(** * Thiptine's Day: the audio overlay core

    A shallow embedding of the recorder ([Recorder]), the clip playback
    engine ([AudioEngine]), the WAV exporter ([Exporter]) and the
    orchestrator's clip handling ([App]), followed by the properties of
    the overlay specification that were checked against them.
    [System] drives the recorder and the engine through their
    interfaces in any order; [App] drives them the way the
    orchestrator's callbacks do.  [MediaTypes], [VideoPlayer],
    [Timeline], [RecTimeline], [Controls] and [ExportHandlers] embed
    the helpers around them: the choice of a media type, the seek and
    drag arithmetic, and the stop handlers of the recording exports.

    Conventions of the embedding.
    - A JavaScript number is a [JS.number]: a rational, one of the two
      infinities, or NaN; zero is taken to be [+0].  [JS.double] is the
      binary64 value nearest to a rational (ties to even, overflow to
      an infinity), and the operations of [JSArith] round their exact
      result with it.  [JS.mul] is the product left exact: the encoder
      uses it where the two agree, because a Float32 sample (24
      significant bits) times 32767 or 32768 has at most 39
      significant bits.
    - A time held by a clip, passed to the engine or read off the video
      is a rational ([Q]) that stands for the double nearest to it: the
      engine and the timelines read it through [JS.double] before they
      compare, add or subtract.  Gains are only stored and handed on.
    - Clip ids are integers ([Z]): the counter [nextClipId] is taken to
      stay below 2^53, where doubles still count exactly.
    - Clip objects live in a heap and arrays hold references to them,
      so that two arrays may share a clip object.  An array itself is
      a list: the recorder never hands out its own array, only copies.
    - Code that may throw returns [option]; [None] is the exception.
    - What a handler awaits from the outside (the microphone prompt,
      the decoder, the video element) is an argument of its model. *)

From Stdlib Require Import ZArith QArith Qabs Qpower Qround List String Ascii
  Lia Lqa Bool Sorted.
From stdpp Require Import base option list gmap.
Import ListNotations.
Local Open Scope Z_scope.

(** ** JavaScript numbers and the conversions DataView applies *)

Module JS.

Inductive number : Type :=
| Fin (q : Q)
| PosInfinity
| NegInfinity
| NaN.

Definition of_Z (z : Z) : number := Fin (inject_Z z).
Definition of_nat (n : nat) : number := of_Z (Z.of_nat n).

(** *** Rounding to binary64 *)

(** The integer nearest to [q], the even one of two that are equally
    near. *)
Definition rne (q : Q) : Z :=
  let f := Qfloor q in
  match (q - inject_Z f ?= 1 # 2)%Q with
  | Lt => f
  | Gt => f + 1
  | Eq => if Z.even f then f else f + 1
  end.

(** [floor (log2 q)] of a positive rational. *)
Definition ilog2 (q : Q) : Z :=
  let k := Z.log2 (Qnum q) - Z.log2 (Zpos (Qden q)) in
  if Qle_bool (2 ^ k) q then k else k - 1.

(** The weight of the last of the 53 bits of a positive rational;
    binary64 has no bit below [2^-1074]. *)
Definition exponent (q : Q) : Z := Z.max (-1074) (ilog2 q - 52).

Definition significand (q : Q) : Z := rne (q * 2 ^ (- exponent q))%Q.

(** The value of that significand, for a positive rational. *)
Definition round_pos (q : Q) : Q :=
  Qred (inject_Z (significand q) * 2 ^ exponent q)%Q.

(** Round to nearest, ties to even, with no bound on the exponent
    above. *)
Definition round64 (q : Q) : Q :=
  match Qnum q with
  | Z0 => 0%Q
  | Zpos _ => round_pos q
  | Zneg _ => (- round_pos (- q))%Q
  end.

(** The double nearest to [q]: what a rational becomes when it is
    stored in a number, and what the exact result of an operation on
    doubles is rounded to. *)
Definition double (q : Q) : number :=
  let r := round64 q in
  if Qle_bool (2 ^ 1024) r then PosInfinity
  else if Qle_bool r (- 2 ^ 1024) then NegInfinity
  else Fin r.

(** [q] is a double: rounding gives it back, in lowest terms. *)
Definition representable (q : Q) : Prop := double q = Fin (Qred q).

Definition Qltb (a b : Q) : bool := negb (Qle_bool b a).

(** [a < b]; every comparison with NaN is false. *)
Definition lt (a b : number) : bool :=
  match a, b with
  | NaN, _ | _, NaN => false
  | Fin x, Fin y => Qltb x y
  | _, NegInfinity => false
  | NegInfinity, _ => true
  | PosInfinity, _ => false
  | Fin _, PosInfinity => true
  end.

(** [a <= b]. *)
Definition le (a b : number) : bool :=
  match a, b with
  | NaN, _ | _, NaN => false
  | Fin x, Fin y => Qle_bool x y
  | NegInfinity, _ => true
  | _, PosInfinity => true
  | _, _ => false
  end.

(** [Math.min(a, b)] and [Math.max(a, b)]. *)
Definition Math_min (a b : number) : number :=
  match a, b with
  | NaN, _ | _, NaN => NaN
  | _, _ => if lt b a then b else a
  end.

Definition Math_max (a b : number) : number :=
  match a, b with
  | NaN, _ | _, NaN => NaN
  | _, _ => if lt a b then b else a
  end.

Definition neg (a : number) : number :=
  match a with
  | Fin q => Fin (- q)
  | PosInfinity => NegInfinity
  | NegInfinity => PosInfinity
  | NaN => NaN
  end.

Definition inf_times (q : Q) : number :=
  match Qnum q with
  | Z0 => NaN
  | Zpos _ => PosInfinity
  | Zneg _ => NegInfinity
  end.

(** [a * b] where the product of two finite values needs no
    rounding. *)
Definition mul (a b : number) : number :=
  match a, b with
  | NaN, _ | _, NaN => NaN
  | Fin x, Fin y => Fin (x * y)
  | Fin x, PosInfinity | PosInfinity, Fin x => inf_times x
  | Fin x, NegInfinity | NegInfinity, Fin x => neg (inf_times x)
  | PosInfinity, PosInfinity | NegInfinity, NegInfinity => PosInfinity
  | PosInfinity, NegInfinity | NegInfinity, PosInfinity => NegInfinity
  end.

(** Truncation toward zero of a finite number. *)
Definition truncate (q : Q) : Z := Z.quot (Qnum q) (Zpos (Qden q)).

(** [Math.ceil] of a finite number. *)
Definition ceil (q : Q) : Z := - ((- Qnum q) / Zpos (Qden q)).

(** ToUint8 / ToUint16 / ToUint32: NaN and the infinities become 0,
    a finite number is truncated and reduced modulo [2^bits]. *)
Definition ToUintN (bits : Z) (v : number) : Z :=
  match v with
  | Fin q => truncate q mod 2 ^ bits
  | _ => 0
  end.

(** ToInt16: the same residue read as a signed 16-bit integer. *)
Definition ToInt16 (v : number) : Z :=
  let u := ToUintN 16 v in
  if 2 ^ 15 <=? u then u - 2 ^ 16 else u.

End JS.

(** ** Arithmetic on JavaScript numbers

    Each operation rounds its exact result to binary64.  Zero is taken
    to be [+0]: a division by zero takes its sign from the dividend
    alone. *)

Module JSArith.
Import JS.

(** [a + b]. *)
Definition add (a b : number) : number :=
  match a, b with
  | NaN, _ | _, NaN => NaN
  | Fin x, Fin y => double (x + y)
  | PosInfinity, NegInfinity | NegInfinity, PosInfinity => NaN
  | PosInfinity, _ | _, PosInfinity => PosInfinity
  | NegInfinity, _ | _, NegInfinity => NegInfinity
  end.

(** [a - b]. *)
Definition sub (a b : number) : number := add a (neg b).

(** [a * b]. *)
Definition times (a b : number) : number :=
  match a, b with
  | Fin x, Fin y => double (x * y)
  | _, _ => mul a b
  end.

(** [a / b]. *)
Definition div (a b : number) : number :=
  match a, b with
  | NaN, _ | _, NaN => NaN
  | Fin x, Fin y => if Qeq_bool y 0 then inf_times x else double (x / y)
  | Fin _, PosInfinity | Fin _, NegInfinity => Fin 0
  | PosInfinity, Fin y => if Qltb y 0 then NegInfinity else PosInfinity
  | NegInfinity, Fin y => if Qltb y 0 then PosInfinity else NegInfinity
  | _, _ => NaN
  end.

(** [Math.abs]. *)
Definition abs (a : number) : number :=
  match a with
  | Fin q => Fin (Qabs q)
  | NaN => NaN
  | _ => PosInfinity
  end.

(** [Math.ceil]. *)
Definition Math_ceil (a : number) : number :=
  match a with
  | Fin q => of_Z (ceil q)
  | _ => a
  end.

(** ToBoolean of a number: false for zero and NaN. *)
Definition truthy (a : number) : bool :=
  match a with
  | Fin q => negb (Qeq_bool q 0)
  | NaN => false
  | _ => true
  end.

End JSArith.

(** ** DataView over an ArrayBuffer

    The buffer is the list of its bytes (each in [0, 256)).  Every
    setter throws a RangeError when the element does not fit in the
    view; all multi-byte setters are used with [littleEndian = true]. *)

Module DataView.
Import JS.

(** The [n] low-order bytes of [i], least significant first. *)
Fixpoint le_bytes (n : nat) (i : Z) : list Z :=
  match n with
  | O => []
  | S n' => i mod 256 :: le_bytes n' (i / 256)
  end.

Definition store (byteOffset : nat) (bs : list Z) (view : list Z)
  : option (list Z) :=
  if decide (byteOffset + length bs ≤ length view)%nat
  then Some (list_inserts byteOffset bs view)
  else None.

Definition setUint8 (byteOffset : nat) (value : number) :=
  store byteOffset (le_bytes 1 (ToUintN 8 value)).
Definition setUint16 (byteOffset : nat) (value : number) :=
  store byteOffset (le_bytes 2 (ToUintN 16 value)).
Definition setUint32 (byteOffset : nat) (value : number) :=
  store byteOffset (le_bytes 4 (ToUintN 32 value)).
Definition setInt16 (byteOffset : nat) (value : number) :=
  store byteOffset (le_bytes 2 (ToInt16 value)).

(** Reading back, as a WAV decoder does. *)
Fixpoint le_value (bs : list Z) : Z :=
  match bs with
  | [] => 0
  | b :: bs' => b + 256 * le_value bs'
  end.

Definition getUint (n : nat) (byteOffset : nat) (view : list Z) : Z :=
  le_value (take n (drop byteOffset view)).

Definition getInt16 (byteOffset : nat) (view : list Z) : Z :=
  let u := getUint 2 byteOffset view in
  if 2 ^ 15 <=? u then u - 2 ^ 16 else u.

End DataView.

(** ** Web Audio: AudioBuffer *)

Module WebAudio.
Import JS.

(** An AudioBuffer: its sample rate and one Float32Array per
    channel.  [numberOfChannels], [length] and [duration] are read
    off the channel data. *)
Record AudioBuffer : Type := {
  sampleRate : Q;
  channelData : list (list number);
}.

Definition numberOfChannels (b : AudioBuffer) : nat :=
  length (channelData b).

Definition frames (b : AudioBuffer) : nat :=
  length (default [] (channelData b !! 0%nat)).

Definition buffer_duration (b : AudioBuffer) : Q :=
  (inject_Z (Z.of_nat (frames b)) / sampleRate b)%Q.

(** [buffer.getChannelData(k)]; IndexSizeError for a missing channel. *)
Definition getChannelData (b : AudioBuffer) (k : nat)
  : option (list number) := channelData b !! k.

End WebAudio.

(** ** Recorder: the clip store and the capture session *)

Module Recorder.
Import WebAudio.

(** A clip object [{ id, startTime, duration, audioBuffer }]. *)
Record clip : Type := {
  id : Z;
  startTime : Q;
  duration : Q;
  audioBuffer : option AudioBuffer;
}.

(** A reference to a clip object. *)
Abbreviation ref := nat (only parsing).

(** [mediaRecorder.state]. *)
Inductive recorderState : Type := inactive | recording.

(** The module's variables, the heap of the clip objects it has
    created, and what it wrote with [console.error]. *)
Record state : Type := {
  heap : list clip;
  mediaStream : bool;
  mediaRecorder : option recorderState;
  clips : list ref;
  nextClipId : Z;
  isRecording : bool;
  recordStartTime : Q;
  chunks : list Z;
  console : list string;
}.

Definition initial : state := {|
  heap := []; mediaStream := false; mediaRecorder := None;
  clips := []; nextClipId := 1; isRecording := false;
  recordStartTime := 0; chunks := []; console := [];
|}.

Definition with_heap (h : list clip) (s : state) : state :=
  {| heap := h; mediaStream := mediaStream s;
     mediaRecorder := mediaRecorder s; clips := clips s;
     nextClipId := nextClipId s; isRecording := isRecording s;
     recordStartTime := recordStartTime s; chunks := chunks s;
     console := console s |}.

Definition with_clips (l : list ref) (s : state) : state :=
  {| heap := heap s; mediaStream := mediaStream s;
     mediaRecorder := mediaRecorder s; clips := l;
     nextClipId := nextClipId s; isRecording := isRecording s;
     recordStartTime := recordStartTime s; chunks := chunks s;
     console := console s |}.

Definition with_chunks (l : list Z) (s : state) : state :=
  {| heap := heap s; mediaStream := mediaStream s;
     mediaRecorder := mediaRecorder s; clips := clips s;
     nextClipId := nextClipId s; isRecording := isRecording s;
     recordStartTime := recordStartTime s; chunks := l;
     console := console s |}.

Definition with_isRecording (b : bool) (s : state) : state :=
  {| heap := heap s; mediaStream := mediaStream s;
     mediaRecorder := mediaRecorder s; clips := clips s;
     nextClipId := nextClipId s; isRecording := b;
     recordStartTime := recordStartTime s; chunks := chunks s;
     console := console s |}.

Definition with_mediaRecorder (m : option recorderState) (s : state)
  : state :=
  {| heap := heap s; mediaStream := mediaStream s;
     mediaRecorder := m; clips := clips s;
     nextClipId := nextClipId s; isRecording := isRecording s;
     recordStartTime := recordStartTime s; chunks := chunks s;
     console := console s |}.

Definition with_mediaStream (b : bool) (s : state) : state :=
  {| heap := heap s; mediaStream := b;
     mediaRecorder := mediaRecorder s; clips := clips s;
     nextClipId := nextClipId s; isRecording := isRecording s;
     recordStartTime := recordStartTime s; chunks := chunks s;
     console := console s |}.

Definition console_error (msg : string) (s : state) : state :=
  {| heap := heap s; mediaStream := mediaStream s;
     mediaRecorder := mediaRecorder s; clips := clips s;
     nextClipId := nextClipId s; isRecording := isRecording s;
     recordStartTime := recordStartTime s; chunks := chunks s;
     console := console s ++ [msg] |}.

(** The id of the clip a reference points to. *)
Definition id_of (h : list clip) (r : ref) : option Z := id <$> h !! r.

Definition has_id (h : list clip) (i : Z) (r : ref) : bool :=
  bool_decide (id_of h r = Some i).

(** [requestMic()]; [granted] is the answer of [getUserMedia].
    Returns the new state and the function's result. *)
Definition requestMic (granted : bool) (s : state) : state * bool :=
  if granted then (with_mediaStream true s, true)
  else (console_error "Mic access denied:" s, false).

(** [releaseMic()]. *)
Definition releaseMic (s : state) : state :=
  if mediaStream s then with_mediaStream false s else s.

(** The media recorder goes inactive without [stop()] having been
    called: its stream ended, or it failed. *)
Definition recorder_inactive (s : state) : state :=
  match mediaRecorder s with
  | Some recording => with_mediaRecorder (Some inactive) s
  | _ => s
  end.

(** [stopRecording()]. *)
Definition stopRecording (s : state) : state :=
  let s1 :=
    match mediaRecorder s with
    | Some recording => with_mediaRecorder (Some inactive) s
    | _ => s
    end in
  with_isRecording false s1.

(** [startRecording(startTime)]; [granted] is the answer of
    [getUserMedia] should the microphone still have to be requested.
    Returns the new state and the function's result. *)
Definition startRecording (granted : bool) (t : Q) (s : state)
  : state * bool :=
  let s1 := if isRecording s then stopRecording s else s in
  if negb (mediaStream s1) && negb granted
  then (console_error "Mic access denied:" s1, false)
  else
    ({| heap := heap s1; mediaStream := true;
        mediaRecorder := Some recording; clips := clips s1;
        nextClipId := nextClipId s1; isRecording := true;
        recordStartTime := t; chunks := [];
        console := console s1 |}, true).

(** [mediaRecorder.ondataavailable], for a blob of [size] bytes. *)
Definition ondataavailable (size : Z) (s : state) : state :=
  if 0 <? size then with_chunks (chunks s ++ [size]) s else s.

(** [mediaRecorder.onstop] is an async function: it tests the
    chunks, builds the blob, and then awaits the blob's bytes and
    [decodeAudioData].  [onstop_resume] is what runs after the awaits,
    with the outcome [decoded] of the decoding ([None]: it rejected):
    the clip is created, numbered and pushed, or the error is logged;
    either way [isRecording] is cleared last.  It returns the new
    state and the clip handed to [onRecordingComplete], if any. *)
Definition onstop_resume (decoded : option AudioBuffer) (s : state)
  : state * option ref :=
  match decoded with
  | Some ab =>
      let clip := {| id := nextClipId s;
                     startTime := recordStartTime s;
                     duration := buffer_duration ab;
                     audioBuffer := Some ab |} in
      let r := length (heap s) in
      ({| heap := heap s ++ [clip]; mediaStream := mediaStream s;
          mediaRecorder := mediaRecorder s;
          clips := clips s ++ [r];
          nextClipId := nextClipId s + 1; isRecording := false;
          recordStartTime := recordStartTime s; chunks := chunks s;
          console := console s |}, Some r)
  | None =>
      (with_isRecording false
         (console_error "Failed to decode recorded audio:" s), None)
  end.

(** The whole handler, when nothing else runs during its awaits. *)
Definition onstop (decoded : option AudioBuffer) (s : state)
  : state * option ref :=
  match chunks s with
  | [] => (s, None)
  | _ :: _ => onstop_resume decoded s
  end.

(** [getAllClips()]: a copy of the array, holding the same clip
    objects. *)
Definition getAllClips (s : state) : list ref := clips s.

(** [deleteClip(id)]. *)
Definition deleteClip (i : Z) (s : state) : state :=
  with_clips (filter (fun r => id_of (heap s) r ≠ Some i) (clips s)) s.

(** [Math.max(0, newStart)]. *)
Definition max0 (q : Q) : Q := if JS.Qltb 0 q then q else 0%Q.

Definition set_startTime (t : Q) (c : clip) : clip :=
  {| id := id c; startTime := t; duration := duration c;
     audioBuffer := audioBuffer c |}.

(** [getClip(id)]. *)
Definition getClip (i : Z) (s : state) : option ref :=
  List.find (has_id (heap s) i) (clips s).

(** [moveClip(id, newStart)]: the clip object itself is updated. *)
Definition moveClip (i : Z) (newStart : Q) (s : state) : state :=
  match getClip i s with
  | Some r => with_heap (alter (set_startTime (max0 newStart)) r (heap s)) s
  | None => s
  end.

Definition hasRecordings (s : state) : bool :=
  negb (Nat.eqb (length (clips s)) 0).

End Recorder.

(** ** AudioEngine: clip playback over the shared audio graph *)

Module AudioEngine.
Import JS JSArith WebAudio Recorder.

(** An entry [{ source, gainNode, clipId }] of [activeClipSources]:
    the identity of the source node, the current value of its gain
    node, and the clip id. *)
Record activeSource : Type := {
  source : nat;
  gainValue : Q;
  clipId : Z;
}.

(** One [source.start(0, offset)]: which clip object, under which id,
    from which offset, through a gain node of which value. *)
Record play : Type := {
  play_source : nat;
  play_clip : ref;
  play_id : Z;
  play_offset : number;
  play_gain : Q;
}.

Record state : Type := {
  audioContext : bool;
  masterGain : Q;
  activeClipSources : list activeSource;
  clipGains : gmap Z Q;
  nodes : nat;
}.

(** The module before [init()]; [nodes] counts the source nodes
    created so far and names the next one. *)
Definition initial : state := {|
  audioContext := false; masterGain := 0;
  activeClipSources := []; clipGains := ∅; nodes := 0;
|}.

Definition init (s : state) : state :=
  {| audioContext := true; masterGain := 4 # 5;
     activeClipSources := activeClipSources s;
     clipGains := clipGains s; nodes := nodes s |}.

Definition with_active (l : list activeSource) (s : state) : state :=
  {| audioContext := audioContext s; masterGain := masterGain s;
     activeClipSources := l; clipGains := clipGains s;
     nodes := nodes s |}.

(** [getClipGain(clipId)]. *)
Definition getClipGain (i : Z) (s : state) : Q :=
  match clipGains s !! i with
  | Some g => g
  | None => 4 # 5
  end.

(** [_playClip(clip, offset)]: the new state and the source it
    started, if any. *)
Definition _playClip (r : ref) (c : clip) (offset : number) (s : state)
  : state * list play :=
  if negb (audioContext s) || negb (bool_decide (is_Some (audioBuffer c)))
  then (s, [])
  else
    let src := nodes s in
    let vol := getClipGain (id c) s in
    ({| audioContext := audioContext s; masterGain := masterGain s;
        activeClipSources :=
          activeClipSources s ++
            [{| source := src; gainValue := vol; clipId := id c |}];
        clipGains := clipGains s; nodes := S (nodes s) |},
     [{| play_source := src; play_clip := r; play_id := id c;
         play_offset := offset; play_gain := vol |}]).

(** [source.onended]. *)
Definition onended (src : nat) (s : state) : state :=
  with_active
    (filter (fun a => source a ≠ src) (activeClipSources s)) s.

(** [stopAllClips()]. *)
Definition stopAllClips (s : state) : state := with_active [] s.

(** The window test
    [currentTime >= clip.startTime && currentTime < clipEnd], with
    [clipEnd = clip.startTime + clip.duration]. *)
Definition in_window (c : clip) (currentTime : Q) : bool :=
  let clipEnd := add (double (startTime c)) (double (duration c)) in
  le (double (startTime c)) (double currentTime)
  && lt (double currentTime) clipEnd.

(** [currentTime - clip.startTime]. *)
Definition offset_at (c : clip) (currentTime : Q) : number :=
  sub (double currentTime) (double (startTime c)).

(** [playClipsAtTime(clips, currentTime)]. *)
Definition playClipsAtTime (h : list clip) (cs : list ref)
    (currentTime : Q) (s : state) : state * list play :=
  fold_left
    (fun acc r =>
       match h !! r with
       | Some c =>
           if in_window c currentTime then
             let offset := offset_at c currentTime in
             let '(s', p) := _playClip r c offset (fst acc) in
             (s', snd acc ++ p)
           else acc
       | None => acc
       end)
    cs (stopAllClips s, []).

(** The closure returned by [createClipScheduler(clips)]: the array
    it was given and its private set [started]. *)
Record scheduler : Type := {
  sched_clips : list ref;
  started : gset Z;
}.

Definition createClipScheduler (cs : list ref) : scheduler :=
  {| sched_clips := cs; started := ∅ |}.

(** The body of the [forEach] in [checkTime], for one clip. *)
Definition check_clip (h : list clip) (currentTime : Q)
    (acc : gset Z * state * list play) (r : ref)
  : gset Z * state * list play :=
  let '(st, s, ps) := acc in
  match h !! r with
  | Some c =>
      if in_window c currentTime && negb (bool_decide (id c ∈ st)) then
        let st' := {[id c]} ∪ st in
        let offset := offset_at c currentTime in
        let '(s', p) := _playClip r c offset s in
        (st', s', ps ++ p)
      else acc
  | None => acc
  end.

(** [checkTime(currentTime)] on a scheduler: the scheduler and the
    engine afterwards, and the sources started. *)
Definition checkTime (sc : scheduler) (h : list clip) (currentTime : Q)
    (s : state) : scheduler * state * list play :=
  let '(st, s', ps) :=
    fold_left (check_clip h currentTime) (sched_clips sc)
      (started sc, s, []) in
  ({| sched_clips := sched_clips sc; started := st |}, s', ps).

(** The life of one scheduler: the calls of its [checkTime], each
    with the clip heap and the engine as they are at that moment.
    Returns the scheduler at the end and all the sources it started. *)
Fixpoint ticks (sc : scheduler) (ts : list (list clip * state * Q))
  : scheduler * list play :=
  match ts with
  | [] => (sc, [])
  | (h, s, t) :: ts' =>
      let '(sc', _, ps) := checkTime sc h t s in
      let '(sc'', ps') := ticks sc' ts' in
      (sc'', ps ++ ps')
  end.

Definition set_gainValue (v : Q) (a : activeSource) : activeSource :=
  {| source := source a; gainValue := v; clipId := clipId a |}.

(** [find] on [activeClipSources], then the write through it. *)
Fixpoint update_first (i : Z) (v : Q) (l : list activeSource)
  : list activeSource :=
  match l with
  | [] => []
  | a :: l' =>
      if bool_decide (clipId a = i) then set_gainValue v a :: l'
      else a :: update_first i v l'
  end.

(** [setClipVolume(clipId, vol)]. *)
Definition setClipVolume (i : Z) (vol : Q) (s : state) : state :=
  {| audioContext := audioContext s; masterGain := masterGain s;
     activeClipSources := update_first i vol (activeClipSources s);
     clipGains := <[i := vol]> (clipGains s); nodes := nodes s |}.

(** [setMasterVolume(vol)]. *)
Definition setMasterVolume (vol : Q) (s : state) : state :=
  if audioContext s then
    {| audioContext := audioContext s; masterGain := vol;
       activeClipSources := activeClipSources s;
       clipGains := clipGains s; nodes := nodes s |}
  else s.

End AudioEngine.

(** ** Exporter: the WAV encoder *)

Module Exporter.
Import JS JSArith DataView WebAudio.

(** Reading a typed array past its end yields [undefined], which a
    Float32Array stores as NaN. *)
Definition at_index (a : list number) (i : nat) : number :=
  default NaN (a !! i).

(** The two-channel branch: a fresh zero-filled Float32Array of twice
    the left channel's length, filled pair by pair. *)
Definition interleave (left right : list number) : list number :=
  fold_left
    (fun arr i =>
       <[(i * 2 + 1)%nat := at_index right i]>
         (<[(i * 2)%nat := at_index left i]> arr))
    (seq 0 (length left))
    (replicate (length left * 2) (of_Z 0)).

Fixpoint writeString_from (i : nat) (cs : list ascii) (offset : nat)
    (view : list Z) : option (list Z) :=
  match cs with
  | [] => Some view
  | c :: cs' =>
      view' ← setUint8 (offset + i) (of_nat (nat_of_ascii c)) view;
      writeString_from (S i) cs' offset view'
  end.

Definition _writeString (offset : nat) (str : string) (view : list Z)
  : option (list Z) :=
  writeString_from 0 (list_ascii_of_string str) offset view.

(** One sample as the loop body passes it to [setInt16]. *)
Definition scaled (x : number) : number :=
  let s := Math_max (of_Z (-1)) (Math_min (of_Z 1) x) in
  if lt s (of_Z 0) then mul s (of_Z 0x8000) else mul s (of_Z 0x7FFF).

(** The sample loop, from [offset] on. *)
Fixpoint write_samples (samples : list number) (offset : nat)
    (view : list Z) : option (list Z) :=
  match samples with
  | [] => Some view
  | x :: rest =>
      view' ← setInt16 offset (scaled x) view;
      write_samples rest (offset + 2) view'
  end.

Definition audioBufferToWav (buffer : AudioBuffer) : option (list Z) :=
  let numChannels := numberOfChannels buffer in
  let sampleRate := Fin (sampleRate buffer) in
  let format := 1 in
  let bitsPerSample := 16 in
  interleaved ←
    (if decide (numChannels = 1%nat) then getChannelData buffer 0
     else
       left ← getChannelData buffer 0;
       right ← getChannelData buffer 1;
       Some (interleave left right));
  let dataLength := (length interleaved * 2)%nat in
  let headerLength := 44%nat in
  let totalLength := (headerLength + dataLength)%nat in
  let view := replicate totalLength 0 in
  view ← _writeString 0 "RIFF" view;
  view ← setUint32 4 (of_Z (Z.of_nat totalLength - 8)) view;
  view ← _writeString 8 "WAVE" view;
  view ← _writeString 12 "fmt " view;
  view ← setUint32 16 (of_Z 16) view;
  view ← setUint16 20 (of_Z format) view;
  view ← setUint16 22 (of_nat numChannels) view;
  view ← setUint32 24 sampleRate view;
  view ← setUint32 28
    (mul (mul sampleRate (of_nat numChannels)) (of_Z (bitsPerSample / 8)))
    view;
  view ← setUint16 32 (mul (of_nat numChannels) (of_Z (bitsPerSample / 8)))
    view;
  view ← setUint16 34 (of_Z bitsPerSample) view;
  view ← _writeString 36 "data" view;
  view ← setUint32 40 (of_nat dataLength) view;
  write_samples interleaved 44 view.

(** *** Rendering the recorded clips *)

(** What an export does to the outside world; [Throw] is an exception
    that escapes and rejects the export's promise. *)
Inductive effect : Type :=
| Alert (msg : string)
| Progress (stage : string) (pct : Z)
| Download (bytes : list Z) (mime : string) (filename : string)
| Throw.

(** [Math.round] of a finite number. *)
Definition round (q : Q) : Z :=
  (2 * Qnum q + Zpos (Qden q)) / (2 * Zpos (Qden q)).

(** [_emit(stage, pct)], with [onProgress] telling whether a
    progress callback is registered. *)
Definition _emit (onProgress : bool) (stage : string) (pct : Q)
  : list effect :=
  if onProgress then [Progress stage (round pct)] else [].

(** A buffer source connected through a gain node to the offline
    destination and started at [src_when]. *)
Record scheduledSource : Type := {
  src_buffer : option AudioBuffer;
  src_gain : Q;
  src_when : Q;
}.

(** [clips[0].audioBuffer], whose [sampleRate] the export reads; a
    clip without a buffer makes that a TypeError. *)
Definition first_buffer (rec : Recorder.state) : option AudioBuffer :=
  r0 ← Recorder.getAllClips rec !! 0%nat;
  c0 ← Recorder.heap rec !! r0;
  Recorder.audioBuffer c0.

(** The source the loop body sets up for one clip. *)
Definition source_of (eng : AudioEngine.state) (c : Recorder.clip)
  : scheduledSource :=
  {| src_buffer := Recorder.audioBuffer c;
     src_gain := AudioEngine.getClipGain (Recorder.id c) eng;
     src_when := Recorder.startTime c |}.

(** The sources of all the clips listed. *)
Definition sources_of (rec : Recorder.state) (eng : AudioEngine.state)
  : list scheduledSource :=
  map (source_of eng)
    (omap (fun r => Recorder.heap rec !! r) (Recorder.getAllClips rec)).

(** [(i / clips.length) * 60]: the quotient and the product are both
    rounded; for [i < clips.length] neither leaves [[0, 60]]. *)
Definition mixing_pct (i len : nat) : Q :=
  round64
    (round64 (inject_Z (Z.of_nat i) / inject_Z (Z.of_nat len)) * 60)%Q.

Section Rendering.
(** The offline rendering backend.
    [newOfflineAudioContext channels length sampleRate] tells whether
    the constructor returns or throws; [start src] whether the source
    of one clip can be set up and started ([source.start(when)] throws
    on a negative [when]); [startRendering] is what the rendering of
    the sources started resolves to, [None] when it rejects. *)
Variable newOfflineAudioContext : nat -> number -> number -> bool.
Variable start : scheduledSource -> bool.
Variable startRendering :
  nat -> number -> number -> list scheduledSource -> option AudioBuffer.

(** The [forEach] over the clips, from clip number [i] on: what it
    reports, and the sources it started, [None] when a clip made it
    throw. *)
Fixpoint mix (onProgress : bool) (eng : AudioEngine.state) (len i : nat)
    (cs : list Recorder.clip) : list effect * option (list scheduledSource) :=
  match cs with
  | [] => ([], Some [])
  | c :: rest =>
      let src := source_of eng c in
      if start src then
        let e := _emit onProgress "Mixing clips…" (mixing_pct i len) in
        let '(es, started) := mix onProgress eng len (S i) rest in
        (e ++ es, cons src <$> started)
      else ([], None)
  end.

(** [downloadRecordedAudio()], given the recorder, the engine and
    [VideoPlayer.getDuration()]: its effects, in order. *)
Definition downloadRecordedAudio (onProgress : bool)
    (rec : Recorder.state) (eng : AudioEngine.state)
    (videoDuration : number) : list effect :=
  let clips := Recorder.getAllClips rec in
  if Nat.eqb (length clips) 0 then
    [Alert "No recordings to export."]
  else
    let e0 := _emit onProgress "Preparing recordings…" 0 in
    let duration := videoDuration in
    match first_buffer rec with
    | None => e0 ++ [Throw]
    | Some first =>
        let sampleRate := double (sampleRate first) in
        let totalSamples := Math_ceil (times duration sampleRate) in
        if negb (newOfflineAudioContext 1 totalSamples sampleRate) then
          e0 ++ [Throw]
        else
          let objects :=
            omap (fun r => Recorder.heap rec !! r) clips in
          match mix onProgress eng (length clips) 0 objects with
          | (e1, None) => e0 ++ e1 ++ [Throw]
          | (e1, Some sources) =>
              let e2 := _emit onProgress "Rendering…" 60 in
              match startRendering 1 totalSamples sampleRate sources with
              | None => e0 ++ e1 ++ e2 ++ [Throw]
              | Some rendered =>
                  let e3 := _emit onProgress "Encoding WAV…" 85 in
                  match audioBufferToWav rendered with
                  | None => e0 ++ e1 ++ e2 ++ e3 ++ [Throw]
                  | Some wav =>
                      e0 ++ e1 ++ e2 ++ e3
                        ++ [Download wav "audio/wav"
                              "thiptines-day-recordings.wav"]
                        ++ _emit onProgress "Done!" 100
                  end
              end
          end
    end.
End Rendering.

End Exporter.

(** ** The two modules together, driven through their interfaces *)

Module System.
Import WebAudio Recorder AudioEngine.

Record state : Type := {
  rec : Recorder.state;
  eng : AudioEngine.state;
}.

Definition initial : state :=
  {| rec := Recorder.initial; eng := AudioEngine.initial |}.

(** A call into one of the two modules, or one of the events their
    handlers are registered for.  [OnStop] is a stop handler that runs
    uninterrupted; [OnStopResume] is the second half of one that was
    overtaken by other calls while it awaited the decoder;
    [RecorderInactive] is the media recorder stopping by itself.  The
    caller holds the arrays of clips and the schedulers it was given
    and passes them to [PlayClipsAtTime] and [CheckTime]. *)
Inductive call : Type :=
| RequestMic (granted : bool)
| ReleaseMic
| RecorderInactive
| StartRecording (granted : bool) (t : Q)
| DataAvailable (size : Z)
| StopRecording
| OnStop (decoded : option AudioBuffer)
| OnStopResume (decoded : option AudioBuffer)
| DeleteClip (i : Z)
| MoveClip (i : Z) (newStart : Q)
| Init
| PlayClipsAtTime (cs : list ref) (t : Q)
| CheckTime (sc : scheduler) (t : Q)
| StopAllClips
| SetClipVolume (i : Z) (vol : Q)
| SetMasterVolume (vol : Q)
| Ended (src : nat).

Definition on_rec (f : Recorder.state -> Recorder.state) (s : state)
  : state := {| rec := f (rec s); eng := eng s |}.

Definition on_eng (f : AudioEngine.state -> AudioEngine.state)
    (s : state) : state := {| rec := rec s; eng := f (eng s) |}.

Definition step (s : state) (c : call) : state :=
  match c with
  | RequestMic granted => on_rec (fun r => fst (requestMic granted r)) s
  | ReleaseMic => on_rec releaseMic s
  | RecorderInactive => on_rec recorder_inactive s
  | StartRecording granted t =>
      on_rec (fun r => fst (startRecording granted t r)) s
  | DataAvailable size => on_rec (ondataavailable size) s
  | StopRecording => on_rec stopRecording s
  | OnStop decoded => on_rec (fun r => fst (onstop decoded r)) s
  | OnStopResume decoded =>
      on_rec (fun r => fst (onstop_resume decoded r)) s
  | DeleteClip i => on_rec (deleteClip i) s
  | MoveClip i t => on_rec (moveClip i t) s
  | Init => on_eng init s
  | PlayClipsAtTime cs t =>
      on_eng (fun e => fst (playClipsAtTime (heap (rec s)) cs t e)) s
  | CheckTime sc t =>
      on_eng (fun e => snd (fst (checkTime sc (heap (rec s)) t e))) s
  | StopAllClips => on_eng stopAllClips s
  | SetClipVolume i vol => on_eng (setClipVolume i vol) s
  | SetMasterVolume vol => on_eng (setMasterVolume vol) s
  | Ended src => on_eng (onended src) s
  end.

Definition run (cs : list call) (s : state) : state :=
  fold_left step cs s.

(** The clip a call hands to [onRecordingComplete], if any. *)
Definition completed (s : state) (c : call) : option ref :=
  match c with
  | OnStop decoded => snd (onstop decoded (rec s))
  | OnStopResume decoded => snd (onstop_resume decoded (rec s))
  | _ => None
  end.

(** The id handed out by one call: that of the clip it completed. *)
Definition new_ids (s : state) (c : call) : list Z :=
  match completed s c with
  | Some r => option_list (id_of (heap (rec (step s c))) r)
  | None => []
  end.

(** The ids handed out by the calls [cs] run from [s], oldest first. *)
Fixpoint assigned (cs : list call) (s : state) : list Z :=
  match cs with
  | [] => []
  | c :: cs' => new_ids s c ++ assigned cs' (step s c)
  end.

(** The ids of the clips [getAllClips()] returns. *)
Definition listed_ids (s : state) : list Z :=
  omap (id_of (heap (rec s))) (getAllClips (rec s)).

(** What a caller reads through an array of clips. *)
Definition observe (s : state) (snapshot : list ref)
  : list (option clip) :=
  map (fun r => heap (rec s) !! r) snapshot.

Definition is_setClipVolume (i : Z) (c : call) : bool :=
  match c with
  | SetClipVolume j _ => bool_decide (j = i)
  | _ => false
  end.

(** The edits of the store: remove, move, set gain. *)
Definition is_edit (c : call) : bool :=
  match c with
  | DeleteClip _ | MoveClip _ _ | SetClipVolume _ _ => true
  | _ => false
  end.

Definition is_moveClip (c : call) : bool :=
  match c with
  | MoveClip _ _ => true
  | _ => false
  end.

End System.

(** ** App: restarting clip playback *)

Module App.
Import WebAudio Recorder AudioEngine.

(** The orchestrator's view: the two modules, its [clipScheduler] and
    [isRecordingMode] variables, and the video element ([isPlaying()],
    [getTime()]). *)
Record state : Type := {
  recorder : Recorder.state;
  engine : AudioEngine.state;
  clipScheduler : option scheduler;
  isRecordingMode : bool;
  playing : bool;
  videoTime : Q;
}.

Definition with_recorder (r : Recorder.state) (s : state) : state :=
  {| recorder := r; engine := engine s;
     clipScheduler := clipScheduler s;
     isRecordingMode := isRecordingMode s; playing := playing s;
     videoTime := videoTime s |}.

Definition with_engine (e : AudioEngine.state) (s : state) : state :=
  {| recorder := recorder s; engine := e;
     clipScheduler := clipScheduler s;
     isRecordingMode := isRecordingMode s; playing := playing s;
     videoTime := videoTime s |}.

Definition with_scheduler (sc : option scheduler) (s : state) : state :=
  {| recorder := recorder s; engine := engine s;
     clipScheduler := sc;
     isRecordingMode := isRecordingMode s; playing := playing s;
     videoTime := videoTime s |}.

Definition with_videoTime (t : Q) (s : state) : state :=
  {| recorder := recorder s; engine := engine s;
     clipScheduler := clipScheduler s;
     isRecordingMode := isRecordingMode s; playing := playing s;
     videoTime := t |}.

(** [_restartClipPlayback()]. *)
Definition _restartClipPlayback (s : state) : state * list play :=
  let e1 := stopAllClips (engine s) in
  if playing s && hasRecordings (recorder s) then
    let sc := createClipScheduler (getAllClips (recorder s)) in
    let '(sc', e2, ps) :=
      checkTime sc (heap (recorder s)) (videoTime s) e1 in
    (with_scheduler (Some sc') (with_engine e2 s), ps)
  else
    (with_scheduler None (with_engine e1 s), []).

(** The [timeupdate] callback. *)
Definition onTimeUpdate (currentTime : Q) (s : state)
  : state * list play :=
  let s := with_videoTime currentTime s in
  match clipScheduler s with
  | Some sc =>
      let '(sc', e', ps) :=
        checkTime sc (heap (recorder s)) currentTime (engine s) in
      (with_scheduler (Some sc') (with_engine e' s), ps)
  | None => (s, [])
  end.

(** The [Timeline] seek callback. *)
Definition onSeek (time : Q) (s : state) : state * list play :=
  if isRecordingMode s then (s, [])
  else _restartClipPlayback (with_videoTime time s).

(** The [RecTimeline] delete and move callbacks. *)
Definition onClipDelete (i : Z) (s : state) : state * list play :=
  _restartClipPlayback (with_recorder (deleteClip i (recorder s)) s).

Definition onClipMove (i : Z) (newStart : Q) (s : state)
  : state * list play :=
  _restartClipPlayback (with_recorder (moveClip i newStart (recorder s)) s).

(** The recording-complete callback, for the clip object [c]. *)
Definition onRecordingComplete (c : clip) (s : state)
  : state * list play :=
  _restartClipPlayback
    (with_engine (setClipVolume (id c) (4 # 5) (engine s)) s).

Definition with_playing (b : bool) (s : state) : state :=
  {| recorder := recorder s; engine := engine s;
     clipScheduler := clipScheduler s;
     isRecordingMode := isRecordingMode s; playing := b;
     videoTime := videoTime s |}.

Definition with_isRecordingMode (b : bool) (s : state) : state :=
  {| recorder := recorder s; engine := engine s;
     clipScheduler := clipScheduler s;
     isRecordingMode := b; playing := playing s;
     videoTime := videoTime s |}.

(** [_togglePlay()]; [started] tells whether [play()] got the video
    going. *)
Definition _togglePlay (started : bool) (s : state) : state * list play :=
  if playing s then
    (with_engine (stopAllClips (engine s)) (with_playing false s), [])
  else _restartClipPlayback (with_playing started s).

(** [_skip(delta)], to the clamped time [t]. *)
Definition _skip (t : Q) (s : state) : state * list play :=
  _restartClipPlayback (with_videoTime t s).

(** [_finishRecording()]. *)
Definition _finishRecording (s : state) : state :=
  if isRecordingMode s then
    with_isRecordingMode false
      (with_recorder (stopRecording (recorder s)) s)
  else s.

(** The video's [ended] callback. *)
Definition onEnded (s : state) : state :=
  _finishRecording (with_playing false s).

(** The click on the record button. *)
Definition onRecordClick (started granted : bool) (s : state) : state :=
  if isRecordingMode s then s
  else
    let s1 := with_isRecordingMode true s in
    let s2 := if playing s1 then s1 else with_playing started s1 in
    let '(r, ok) := startRecording granted (videoTime s2) (recorder s2) in
    let s3 := with_recorder r s2 in
    if ok then s3 else with_isRecordingMode false s3.

(** The recorder's stop handler, followed by the recording-complete
    callback when a clip was created. *)
Definition completion (out : Recorder.state * option ref) (s : state)
  : state * list play :=
  let s1 := with_recorder (fst out) s in
  match snd out with
  | Some r =>
      match heap (fst out) !! r with
      | Some c => onRecordingComplete c s1
      | None => (s1, [])
      end
  | None => (s1, [])
  end.

(** The application once its modules are initialised. *)
Definition initial : state :=
  {| recorder := Recorder.initial;
     engine := AudioEngine.init AudioEngine.initial;
     clipScheduler := None; isRecordingMode := false;
     playing := false; videoTime := 0 |}.

(** What can happen to the application.  [VideoProgress] is the video
    element's clock moving on between two callbacks. *)
Inductive event : Type :=
| VideoProgress (t : Q)
| TimeUpdate (currentTime : Q)
| Seek (time : Q)
| SkipTo (t : Q)
| TogglePlay (started : bool)
| VideoEnded
| RecordClick (started granted : bool)
| RecDoneClick
| ChunkAvailable (size : Z)
| RecorderStop (decoded : option AudioBuffer)
| RecorderStopResume (decoded : option AudioBuffer)
| ClipDelete (i : Z)
| ClipMove (i : Z) (newStart : Q)
| SourceEnded (src : nat).

Definition step (s : state) (e : event) : state * list play :=
  match e with
  | VideoProgress t => (with_videoTime t s, [])
  | TimeUpdate currentTime => onTimeUpdate currentTime s
  | Seek time => onSeek time s
  | SkipTo t => _skip t s
  | TogglePlay started => _togglePlay started s
  | VideoEnded => (onEnded s, [])
  | RecordClick started granted => (onRecordClick started granted s, [])
  | RecDoneClick => (_finishRecording s, [])
  | ChunkAvailable size =>
      (with_recorder (ondataavailable size (recorder s)) s, [])
  | RecorderStop decoded => completion (onstop decoded (recorder s)) s
  | RecorderStopResume decoded =>
      completion (onstop_resume decoded (recorder s)) s
  | ClipDelete i => onClipDelete i s
  | ClipMove i newStart => onClipMove i newStart s
  | SourceEnded src => (with_engine (onended src (engine s)) s, [])
  end.

Definition run (es : list event) (s : state) : state :=
  fold_left (fun s e => fst (step s e)) es s.

(** The scheduler in use, if any, holds the clips the recorder
    lists. *)
Definition scheduler_current (s : state) : Prop :=
  match clipScheduler s with
  | Some sc => sched_clips sc = getAllClips (recorder s)
  | None => True
  end.

End App.

(** ** Media types asked of MediaRecorder *)

Module MediaTypes.







(** [str.includes(sub)]. *)
Fixpoint includes (str sub : string) : bool :=
  String.prefix sub str ||
  match str with
  | EmptyString => false
  | String _ rest => includes rest sub
  end.

(** The file extension [downloadMixedVideo] gives its download. *)
Definition extension (mimeType : string) : string :=
  if includes mimeType "mp4" then "mp4"%string else "webm"%string.

End MediaTypes.

(** ** VideoPlayer: duration and volume *)

Module VideoPlayer.
Import JS JSArith.

(** [getDuration()], for the element's [duration] if there is an
    element. *)
Definition getDuration (videoEl : option number) : number :=
  match videoEl with
  | Some duration => if truthy duration then duration else of_Z 0
  | None => of_Z 0
  end.

(** [setVolume(vol)]: the element's volume afterwards, if there is an
    element. *)
Definition setVolume (videoEl : option number) (vol : number)
  : option number :=
  match videoEl with
  | Some _ => Some (Math_max (of_Z 0) (Math_min (of_Z 1) vol))
  | None => None
  end.

End VideoPlayer.

(** ** Timeline: click-to-seek *)

Module Timeline.
Import JS JSArith.

(** [_seekFromEvent(e)]: the time handed to [onSeek], if the callback
    is called; [left] and [width] are those of the bar's bounding
    rectangle. *)
Definition _seekFromEvent (totalDuration : number) (onSeek : bool)
    (clientX left width : number) : option number :=
  if negb (truthy totalDuration) then None
  else
    let x := Math_max (of_Z 0) (Math_min (sub clientX left) width) in
    let pct := div x width in
    let time := times pct totalDuration in
    if onSeek then Some time else None.

End Timeline.

(** ** RecTimeline: dragging a clip *)

Module RecTimeline.
Import JS JSArith.

(** The drag state. *)
Record drag : Type := {
  dragClipId : option Z;
  dragStartX : number;
  dragOriginalStart : number;
}.

(** The [mousedown] handler of a clip's element (not on its delete
    button). *)
Definition onMouseDown (clip : Recorder.clip) (clientX : number) : drag :=
  {| dragClipId := Some (Recorder.id clip); dragStartX := clientX;
     dragOriginalStart := double (Recorder.startTime clip) |}.

(** [_onMouseUp(e)]: the drag state afterwards and the arguments of
    the call of [onClipMove], if it is called; [bar] tells whether the
    bar exists, [width] is that of its bounding rectangle. *)
Definition _onMouseUp (bar : bool) (totalDuration : number)
    (onClipMove : bool) (d : drag) (clientX width : number)
  : drag * option (Z * number) :=
  match dragClipId d with
  | None => (d, None)
  | Some clipId =>
      if negb bar then (d, None)
      else
        let dx := sub clientX (dragStartX d) in
        let timeDelta := times (div dx width) totalDuration in
        let newStart :=
          Math_max (of_Z 0)
            (Math_min (add (dragOriginalStart d) timeDelta) totalDuration) in
        ({| dragClipId := None; dragStartX := dragStartX d;
            dragOriginalStart := dragOriginalStart d |},
         if onClipMove && lt (of_Z 3) (abs dx) then Some (clipId, newStart)
         else None)
  end.

End RecTimeline.

(** ** The orchestrator's skip buttons *)

Module Controls.
Import JS JSArith.

(** The time [_skip(delta)] seeks to. *)
Definition skip_target (time delta duration : number) : number :=
  Math_max (of_Z 0) (Math_min (add time delta) duration).

End Controls.

(** ** Exporter: the stop handlers of the recording exports

    The exports that record the playing video end in a stop handler
    of their media recorder.  [blob] is the recording, of type
    [mimeType]; [decoded] is what [decodeAudioData] made of it, [None]
    when it (or reading the blob) rejected. *)

Module ExportHandlers.
Import WebAudio Exporter.

(** [recorder.onstop] of [downloadOriginalAudio]. *)
Definition downloadOriginalAudio_onstop (onProgress : bool)
    (blob : list Z) (mimeType : string) (decoded : option AudioBuffer)
  : list effect :=
  _emit onProgress "Encoding WAV…" 80
    ++ match decoded ≫= audioBufferToWav with
       | Some wav =>
           [Download wav "audio/wav" "thiptines-day-original.wav"]
             ++ _emit onProgress "Done!" 100
       | None =>
           [Download blob mimeType "thiptines-day-original.webm"]
             ++ _emit onProgress "Done!" 100
       end.

(** [recorder.onstop] of [downloadMixedAudio]. *)
Definition downloadMixedAudio_onstop (onProgress : bool)
    (blob : list Z) (mimeType : string) (decoded : option AudioBuffer)
  : list effect :=
  _emit onProgress "Encoding WAV…" 85
    ++ match decoded ≫= audioBufferToWav with
       | Some wav => [Download wav "audio/wav" "thiptines-day-mixed.wav"]
       | None => [Download blob mimeType "thiptines-day-mixed.webm"]
       end
    ++ _emit onProgress "Done!" 100.

(** [recorder.onstop] of [downloadMixedVideo]. *)
Definition downloadMixedVideo_onstop (onProgress : bool)
    (blob : list Z) (mimeType : string) : list effect :=
  let ext := MediaTypes.extension mimeType in
  [Download blob mimeType ("thiptines-day-final." ++ ext)]
    ++ _emit onProgress "Done!" 100.

End ExportHandlers.

(** ** The specification's own words

    Definitions that follow the text of the specification rather than
    the code; the properties below compare the two. *)

Module Spec.
Import JS WebAudio.

(** "Interleaved" samples: frame by frame, one sample per channel. *)
Definition interleaved (channels : list (list number)) (n : nat)
  : list number :=
  flat_map (fun i => map (fun ch => Exporter.at_index ch i) channels)
    (seq 0 n).

(** Clamping to [[-1, 1]]. *)
Definition clamp (s : Q) : Q :=
  if Qle_bool s (-1) then (-1)%Q else if Qle_bool 1 s then 1%Q else s.

(** "Scaled to [s*32768] if negative or [s*32767] if non-negative,
    before truncation". *)
Definition quantize (s : Q) : Z :=
  let c := clamp s in
  truncate (if Qltb c 0 then c * 32768 else c * 32767)%Q.

(** Little-endian fields. *)
Definition uint16le (x : Z) : list Z := [x mod 256; (x / 2 ^ 8) mod 256].

Definition uint32le (x : Z) : list Z :=
  [x mod 256; (x / 2 ^ 8) mod 256; (x / 2 ^ 16) mod 256;
   (x / 2 ^ 24) mod 256].

(** A signed 16-bit integer in two's complement, little-endian. *)
Definition int16le (x : Z) : list Z := uint16le (x mod 2 ^ 16).

Definition ascii_bytes (str : string) : list Z :=
  map (fun c => Z.of_nat (nat_of_ascii c)) (list_ascii_of_string str).

(** The 44 bytes before the samples, for [c] channels at rate [r]
    with [n] samples per channel. *)
Definition header (c r n : Z) : list Z :=
  ascii_bytes "RIFF" ++ uint32le (44 + n * c * 2 - 8)
    ++ ascii_bytes "WAVE"
    ++ ascii_bytes "fmt " ++ uint32le 16 ++ uint16le 1 ++ uint16le c
    ++ uint32le r ++ uint32le (r * c * 2) ++ uint16le (c * 2)
    ++ uint16le 16
    ++ ascii_bytes "data" ++ uint32le (n * c * 2).

(** The buffer of known samples of the round-trip property:
    [[0.0, 0.5, -0.5, 1.0, -1.0]], one channel, 8000 Hz. *)
Definition known_buffer : AudioBuffer :=
  {| sampleRate := 8000;
     channelData := [[Fin 0; Fin (1 # 2); Fin (- (1 # 2)); Fin 1;
                      Fin (- (1))]] |}.

(** The clip of the scheduler example, [{id: 1, start: 2,
    duration: 3}], as the recorder creates it: a capture started at
    time 2 whose single chunk decodes to three seconds of audio. *)
Definition three_seconds : AudioBuffer :=
  {| sampleRate := 1; channelData := [[Fin 0; Fin 0; Fin 0]] |}.

Definition one_clip : Recorder.state :=
  fst (Recorder.onstop (Some three_seconds)
         (Recorder.stopRecording
            (Recorder.ondataavailable 100
               (fst (Recorder.startRecording true 2 Recorder.initial))))).

(** The application playing the video over that clip, its scheduler
    just created. *)
Definition playing_one_clip : App.state :=
  {| App.recorder := one_clip;
     App.engine := AudioEngine.init AudioEngine.initial;
     App.clipScheduler :=
       Some (AudioEngine.createClipScheduler (Recorder.getAllClips one_clip));
     App.isRecordingMode := false;
     App.playing := true;
     App.videoTime := 0 |}.

(** Gain clamped to [[0, 1]]. *)
Definition clamp01 (g : Q) : Q :=
  if Qle_bool g 0 then 0%Q else if Qle_bool 1 g then 1%Q else g.

(** The engine while that clip is sounding (after the tick at 2.5). *)
Definition sounding : AudioEngine.state :=
  App.engine (fst (App.onTimeUpdate (5 # 2) playing_one_clip)).

(** The store holding that clip. *)
Definition store_one_clip : System.state :=
  {| System.rec := one_clip;
     System.eng := AudioEngine.init AudioEngine.initial |}.

(** "Callers must not observe later mutations through a previously
    returned snapshot." *)
Definition snapshot_isolated : Prop :=
  forall (s : System.state) (c : System.call),
    System.is_edit c = true ->
    let snapshot := Recorder.getAllClips (System.rec s) in
    System.observe (System.step s c) snapshot = System.observe s snapshot.

(** "Each tick must re-fetch current clip data to reflect the latest
    user edits (delete/move/gain change) made between ticks": a tick
    of a scheduler made before some edits starts what a scheduler
    made from the store after them would start. *)
Definition tick_refetches : Prop :=
  forall (s : System.state) (edits : list System.call) (t : Q),
    Forall (fun c => System.is_edit c = true) edits ->
    let sc :=
      AudioEngine.createClipScheduler (Recorder.getAllClips (System.rec s)) in
    let s' := System.run edits s in
    snd (AudioEngine.checkTime sc (Recorder.heap (System.rec s')) t
           (System.eng s'))
    = snd (AudioEngine.checkTime
             (AudioEngine.createClipScheduler
                (Recorder.getAllClips (System.rec s')))
             (Recorder.heap (System.rec s')) t (System.eng s')).

(** "[setGain(id, g)] clamps [g] to [[0,1]]", for the stored gain and
    for the live volume of a sounding clip. *)
Definition setGain_clamps : Prop :=
  forall (s : AudioEngine.state) (i : Z) (g : Q),
    let s' := AudioEngine.setClipVolume i g s in
    (AudioEngine.getClipGain i s' == clamp01 g)%Q /\
    forall a : AudioEngine.activeSource,
      List.find (fun a => bool_decide (AudioEngine.clipId a = i))
        (AudioEngine.activeClipSources s') = Some a ->
      (AudioEngine.gainValue a == clamp01 g)%Q.

End Spec.

(** ** Invariants and auxiliary definitions *)

Section EncoderParts.
Import JS DataView WebAudio Exporter.

(** The bytes [setInt16] writes for one sample. *)
Definition sample_bytes (x : number) : list Z :=
  le_bytes 2 (ToInt16 (scaled x)).

(** [audioBufferToWav] after the channels have been interleaved. *)
Definition wav_of (numChannels : nat) (rate : Q)
    (interleaved : list number) : option (list Z) :=
  let sampleRate := Fin rate in
  let dataLength := (length interleaved * 2)%nat in
  let totalLength := (44 + dataLength)%nat in
  let view := replicate totalLength 0 in
  view ← _writeString 0 "RIFF" view;
  view ← setUint32 4 (of_Z (Z.of_nat totalLength - 8)) view;
  view ← _writeString 8 "WAVE" view;
  view ← _writeString 12 "fmt " view;
  view ← setUint32 16 (of_Z 16) view;
  view ← setUint16 20 (of_Z 1) view;
  view ← setUint16 22 (of_nat numChannels) view;
  view ← setUint32 24 sampleRate view;
  view ← setUint32 28
    (mul (mul sampleRate (of_nat numChannels)) (of_Z (16 / 8))) view;
  view ← setUint16 32 (mul (of_nat numChannels) (of_Z (16 / 8))) view;
  view ← setUint16 34 (of_Z 16) view;
  view ← _writeString 36 "data" view;
  view ← setUint32 40 (of_nat dataLength) view;
  write_samples interleaved 44 view.

End EncoderParts.

Section SchedulerInvariant.
Import WebAudio Recorder AudioEngine.

(** What one pass of [checkTime] over the clips [l] establishes, from
    the set [st0] and the engine [s0]. *)
Definition pass_inv (h : list clip) (t : Q) (st0 : gset Z) (s0 : state)
    (l : list ref) (acc : gset Z * state * list play) : Prop :=
  let '(st, s, ps) := acc in
  audioContext s = audioContext s0 /\
  clipGains s = clipGains s0 /\
  (forall i : Z,
      (i ∈ st) <->
      ((i ∈ st0) \/
       exists r c, r ∈ l /\ h !! r = Some c /\ id c = i /\
                   in_window c t = true)) /\
  NoDup (map play_id ps) /\
  (forall p : play,
      p ∈ ps ->
      (play_id p ∉ st0) /\ (play_id p ∈ st) /\
      exists c, play_clip p ∈ l /\ h !! play_clip p = Some c /\
                play_id p = id c /\ in_window c t = true /\
                play_offset p = offset_at c t /\
                play_gain p = getClipGain (id c) s0) /\
  (NoDup (omap (id_of h) l) -> audioContext s0 = true ->
   forall r c,
     r ∈ l -> h !! r = Some c -> is_Some (audioBuffer c) ->
     in_window c t = true -> id c ∉ st0 ->
     exists p, p ∈ ps /\ play_clip p = r).

End SchedulerInvariant.

Section StoreInvariant.
Import WebAudio Recorder.

(** What holds of the recorder at all times: the clips array refers
    to clip objects that exist, every id in use lies below the
    counter, and no two clips of the array share an id. *)
Definition wf (r : Recorder.state) : Prop :=
  Forall (fun x => (x < length (heap r))%nat) (clips r) /\
  Forall (fun c => id c < nextClipId r) (heap r) /\
  NoDup (omap (id_of (heap r)) (clips r)).

End StoreInvariant.

Section RecorderInvariants.
Import WebAudio Recorder.

(** What holds of the capture session at all times: only non-empty
    chunks are kept, and [isRecording] is set only once a media
    recorder has been created.  The microphone may have been released
    since, and the media recorder may have stopped. *)
Definition recorder_flags (r : Recorder.state) : Prop :=
  Forall (fun size => 0 < size) (Recorder.chunks r) /\
  (Recorder.isRecording r = true -> is_Some (Recorder.mediaRecorder r)).

(** Every clip object the recorder has created still has the buffer
    it was decoded to, and its duration is that buffer's. *)
Definition buffers_kept (r : Recorder.state) : Prop :=
  Forall
    (fun c =>
       exists ab : AudioBuffer,
         audioBuffer c = Some ab /\ duration c = buffer_duration ab)
    (heap r).

End RecorderInvariants.

Section EngineParts.
Import WebAudio Recorder AudioEngine.

(** A clip [playClipsAtTime] can start at [t]: it exists, [t] lies in
    its window and it has a buffer. *)
Definition due (h : list clip) (t : Q) (r : ref) : bool :=
  match h !! r with
  | Some c => in_window c t && bool_decide (is_Some (audioBuffer c))
  | None => false
  end.

(** The entry [_playClip] pushes for a source it started. *)
Definition entry_of (p : play) : activeSource :=
  {| source := play_source p; gainValue := play_gain p;
     clipId := play_id p |}.

(** The source was started on the clip object it names, from the
    offset [t - startTime] as the engine computes it, through the gain
    [getClipGain] gives in [s]. *)
Definition started_from (h : list clip) (t : Q) (s : state) (p : play)
  : Prop :=
  exists c : clip,
    h !! play_clip p = Some c /\ play_id p = id c /\
    play_offset p = offset_at c t /\
    play_gain p = getClipGain (id c) s.

(** The body of the [forEach] in [playClipsAtTime], for one clip. *)
Definition play_due (h : list clip) (t : Q) (acc : state * list play)
    (r : ref) : state * list play :=
  match h !! r with
  | Some c =>
      if in_window c t then
        let offset := offset_at c t in
        let '(s', p) := _playClip r c offset (fst acc) in
        (s', snd acc ++ p)
      else acc
  | None => acc
  end.

End EngineParts.

Section AppParts.
Import WebAudio Recorder AudioEngine.

(** No clip id has two live sources, and every live source was
    started by the scheduler in use. *)
Definition one_voice (a : App.state) : Prop :=
  NoDup (map clipId (activeClipSources (App.engine a))) /\
  match App.clipScheduler a with
  | Some sc =>
      forall x, x ∈ activeClipSources (App.engine a) -> clipId x ∈ started sc
  | None => activeClipSources (App.engine a) = []
  end.

(** Every gain stored in the engine is 0.8. *)
Definition gains_default (e : AudioEngine.state) : Prop :=
  forall (i : Z) (g : Q), clipGains e !! i = Some g -> g = 4 # 5.

(** The sources started while the events [es] run from [a]. *)
Fixpoint played (es : list App.event) (a : App.state) : list play :=
  match es with
  | [] => []
  | e :: es' => snd (App.step a e) ++ played es' (fst (App.step a e))
  end.

(** The events that leave the store and the scheduler's array as they
    are: the video's clock and the end of a source. *)
Definition is_tick (e : App.event) : bool :=
  match e with
  | App.VideoProgress _ | App.TimeUpdate _ | App.SourceEnded _ => true
  | _ => false
  end.

End AppParts.

Section ExportParts.
Import WebAudio Exporter.

Definition is_download (e : effect) : bool :=
  match e with
  | Download _ _ _ => true
  | _ => false
  end.

(** The percentages handed to the progress callback, in order. *)
Definition percents (es : list effect) : list Z :=
  flat_map (fun e => match e with Progress _ pct => [pct] | _ => [] end) es.

End ExportParts.

(** * Properties *)

(** ** Little-endian bytes *)

Section LittleEndian.
Import JS DataView.

Lemma length_le_bytes (n : nat) (i : Z) : length (le_bytes n i) = n.
Proof. revert i; induction n as [|n IH]; intros i; simpl; [done|]. by rewrite IH. Qed.

Lemma le_value_le_bytes (n : nat) (i : Z) :
  le_value (le_bytes n i) = i mod 256 ^ Z.of_nat n.
Proof.
  revert i; induction n as [|n IH]; intros i.
  - simpl. by rewrite Z.mod_1_r.
  - cbn [le_bytes le_value]. rewrite IH.
    rewrite Nat2Z.inj_succ, Z.pow_succ_r by lia.
    rewrite (Z.rem_mul_r i 256 (256 ^ Z.of_nat n)) by lia.
    reflexivity.
Qed.

Lemma le_bytes_mod (n : nat) (i : Z) :
  le_bytes n (i mod 256 ^ Z.of_nat n) = le_bytes n i.
Proof.
  revert i; induction n as [|n IH]; intros i; [done|].
  cbn [le_bytes].
  rewrite Nat2Z.inj_succ, Z.pow_succ_r by lia.
  rewrite (Z.rem_mul_r i 256 (256 ^ Z.of_nat n)) by lia.
  set (hi := (i / 256) mod 256 ^ Z.of_nat n).
  assert (Hlo : 0 <= i mod 256 < 256) by (apply Z.mod_pos_bound; lia).
  assert (H256 : (i mod 256 + 256 * hi) / 256 = hi).
  { rewrite (Z.mul_comm 256 hi), Z.div_add by lia.
    rewrite (Z.div_small (i mod 256)) by lia. lia. }
  rewrite H256. unfold hi. rewrite IH. f_equal.
  rewrite (Z.mul_comm 256), Z.mod_add by lia.
  apply Z.mod_small; lia.
Qed.

Lemma truncate_inject_Z (z : Z) : truncate (inject_Z z) = z.
Proof. unfold truncate; simpl. apply Z.quot_1_r. Qed.

Lemma le_bytes_ToUintN_of_Z (n : nat) (z : Z) :
  le_bytes n (ToUintN (8 * Z.of_nat n) (of_Z z)) = le_bytes n z.
Proof.
  unfold ToUintN, of_Z. rewrite truncate_inject_Z.
  replace (2 ^ (8 * Z.of_nat n)) with (256 ^ Z.of_nat n).
  - apply le_bytes_mod.
  - rewrite Z.pow_mul_r by lia. reflexivity.
Qed.

(** A signed 16-bit value survives the trip through its two bytes. *)
Lemma getInt16_le_bytes (v : Z) (rest : list Z) :
  - 2 ^ 15 <= v < 2 ^ 15 ->
  getInt16 0 (le_bytes 2 v ++ rest) = v.
Proof.
  intros Hv. unfold getInt16, getUint.
  rewrite drop_0, take_app_length' by (by rewrite length_le_bytes).
  rewrite le_value_le_bytes.
  change (256 ^ Z.of_nat 2) with 65536. change (2 ^ 15) with 32768 in *.
  change (2 ^ 16) with 65536.
  destruct (Z.leb_spec 32768 (v mod 65536)) as [H|H].
  - destruct (Z.lt_ge_cases v 0) as [Hn|Hn].
    + rewrite <- (Z.mod_unique v 65536 (-1) (v + 65536)); lia.
    + rewrite Z.mod_small in H; lia.
  - destruct (Z.lt_ge_cases v 0) as [Hn|Hn].
    + rewrite <- (Z.mod_unique v 65536 (-1) (v + 65536)) in H; lia.
    + apply Z.mod_small; lia.
Qed.

(** A store over a slice of the right size replaces exactly it. *)
Lemma store_app (off : nat) (bs pre old post : list Z) :
  length pre = off -> length old = length bs ->
  store off bs (pre ++ old ++ post) = Some (pre ++ bs ++ post).
Proof.
  intros Hpre Hold. unfold store.
  rewrite decide_True by (rewrite !length_app; lia).
  f_equal. subst off.
  rewrite <- (Nat.add_0_r (length pre)), list_inserts_app_r.
  by rewrite list_inserts_0_r.
Qed.

End LittleEndian.

(** ** The WAV encoder *)

Section Encoder.
Import JS DataView WebAudio Exporter.

Lemma audioBufferToWav_unfold (b : AudioBuffer) :
  audioBufferToWav b =
    (if decide (numberOfChannels b = 1%nat) then getChannelData b 0
     else
       left ← getChannelData b 0;
       right ← getChannelData b 1;
       Some (interleave left right))
    ≫= wav_of (numberOfChannels b) (sampleRate b).
Proof. reflexivity. Qed.

Lemma nat_of_ascii_small (c : ascii) : (nat_of_ascii c < 256)%nat.
Proof. destruct c as [[] [] [] [] [] [] [] []]; vm_compute; lia. Qed.

Lemma char_bytes (c : ascii) :
  le_bytes 1 (ToUintN 8 (of_nat (nat_of_ascii c)))
  = [Z.of_nat (nat_of_ascii c)].
Proof.
  unfold of_nat.
  rewrite (le_bytes_ToUintN_of_Z 1). cbn [le_bytes]. f_equal.
  pose proof (nat_of_ascii_small c). apply Z.mod_small; lia.
Qed.

Lemma writeString_from_spec (cs : list ascii) :
  forall (i offset : nat) (pre old post : list Z),
    length pre = (offset + i)%nat -> length old = length cs ->
    writeString_from i cs offset (pre ++ old ++ post)
    = Some (pre ++ map (fun c => Z.of_nat (nat_of_ascii c)) cs ++ post).
Proof.
  induction cs as [|c cs IH]; intros i offset pre old post Hpre Hold.
  - destruct old; [done | discriminate].
  - destruct old as [|o old]; [discriminate|].
    cbn [writeString_from]. unfold setUint8. rewrite char_bytes.
    change ((o :: old) ++ post) with ([o] ++ old ++ post).
    rewrite store_app by done. cbn [mbind option_bind].
    rewrite (app_assoc pre), IH.
    + by rewrite <- app_assoc.
    + rewrite length_app; simpl; lia.
    + simpl in Hold; lia.
Qed.

Lemma writeString_bind {B} (offset : nat) (str : string)
    (pre old post : list Z) (k : list Z -> option B) :
  length pre = offset ->
  length old = length (list_ascii_of_string str) ->
  _writeString offset str (pre ++ old ++ post) ≫= k
  = k ((pre ++ Spec.ascii_bytes str) ++ post).
Proof.
  intros Hpre Hold. unfold _writeString.
  rewrite writeString_from_spec by (done || lia).
  by rewrite <- app_assoc.
Qed.

Lemma store_bind {B} (off : nat) (bs pre old post : list Z)
    (k : list Z -> option B) :
  length pre = off -> length old = length bs ->
  store off bs (pre ++ old ++ post) ≫= k = k ((pre ++ bs) ++ post).
Proof.
  intros Hpre Hold. rewrite store_app by done.
  by rewrite <- app_assoc.
Qed.

Lemma write_samples_spec (xs : list number) :
  forall (off : nat) (pre : list Z),
    length pre = off ->
    write_samples xs off (pre ++ replicate (length xs * 2) 0)
    = Some (pre ++ flat_map sample_bytes xs).
Proof.
  induction xs as [|x xs IH]; intros off pre Hpre.
  - simpl. by rewrite !app_nil_r.
  - cbn [write_samples]. unfold setInt16.
    change (replicate (length (x :: xs) * 2) 0)
      with ([0; 0] ++ replicate (length xs * 2) 0).
    rewrite store_bind by (done || by rewrite length_le_bytes).
    rewrite IH.
    + cbn [flat_map]. by rewrite <- app_assoc.
    + rewrite length_app, length_le_bytes. lia.
Qed.

Lemma length_flat_map_pairs {A B} (f g : A -> B) (l : list A) :
  length (flat_map (fun i => [f i; g i]) l) = (length l * 2)%nat.
Proof. induction l as [|a l IH]; [done|]. cbn [flat_map length app]. lia. Qed.

Lemma interleave_prefix (left right : list number) (k : nat) :
  (k <= length left)%nat ->
  fold_left
    (fun arr i =>
       <[(i * 2 + 1)%nat := at_index right i]>
         (<[(i * 2)%nat := at_index left i]> arr))
    (seq 0 k) (replicate (length left * 2) (of_Z 0))
  = flat_map (fun i => [at_index left i; at_index right i]) (seq 0 k)
      ++ replicate ((length left - k) * 2) (of_Z 0).
Proof.
  induction k as [|k IH]; intros Hk.
  - simpl. by rewrite Nat.sub_0_r.
  - rewrite seq_S, fold_left_app, IH by lia. cbn [fold_left Nat.add].
    rewrite flat_map_app. cbn [flat_map].
    set (done_ := flat_map _ (seq 0 k)).
    assert (Hlen : length done_ = (k * 2)%nat).
    { unfold done_. by rewrite length_flat_map_pairs, length_seq. }
    replace ((length left - k) * 2)%nat
      with (S (S ((length left - S k) * 2))) by lia.
    cbn [replicate].
    rewrite <- Hlen at 2.
    rewrite <- (Nat.add_0_r (length done_)) at 1.
    rewrite insert_app_r. cbn [insert list_insert].
    replace (k * 2 + 1)%nat with (length done_ + 1)%nat by lia.
    rewrite insert_app_r. cbn [insert list_insert].
    by rewrite <- !app_assoc.
Qed.

(** The two-channel loop produces the frames in order, left sample
    then right sample. *)
Lemma interleave_spec (left right : list number) :
  interleave left right = Spec.interleaved [left; right] (length left).
Proof.
  unfold interleave. rewrite interleave_prefix by lia.
  rewrite Nat.sub_diag. simpl. by rewrite app_nil_r.
Qed.

Lemma interleaved_mono_take (ch : list number) (n : nat) :
  (n <= length ch)%nat -> Spec.interleaved [ch] n = take n ch.
Proof.
  unfold Spec.interleaved. induction n as [|n IH]; intros Hn; [done|].
  rewrite seq_S, flat_map_app, IH by lia. cbn [flat_map map Nat.add app].
  destruct (lookup_lt_is_Some_2 ch n) as [x Hx]; [lia|].
  unfold at_index. rewrite Hx. cbn [default].
  by rewrite (take_S_r _ _ _ Hx).
Qed.

Lemma interleaved_mono (ch : list number) :
  Spec.interleaved [ch] (length ch) = ch.
Proof. rewrite interleaved_mono_take by lia. apply firstn_all. Qed.

Lemma length_interleaved (chs : list (list number)) (n : nat) :
  length (Spec.interleaved chs n) = (n * length chs)%nat.
Proof.
  unfold Spec.interleaved. generalize 0%nat.
  induction n as [|n IH]; intros s; [done|].
  cbn [seq flat_map]. rewrite length_app, length_map, IH. lia.
Qed.

Lemma le_bytes_u32 (z : Z) : le_bytes 4 (ToUintN 32 (of_Z z)) = le_bytes 4 z.
Proof. exact (le_bytes_ToUintN_of_Z 4 z). Qed.

Lemma le_bytes_u16 (z : Z) : le_bytes 2 (ToUintN 16 (of_Z z)) = le_bytes 2 z.
Proof. exact (le_bytes_ToUintN_of_Z 2 z). Qed.

Lemma mul_of_Z (a b : Z) : ToUintN 16 (mul (of_Z a) (of_Z b)) = ToUintN 16 (of_Z (a * b)).
Proof. unfold ToUintN, mul, of_Z, truncate. simpl. by rewrite !Z.quot_1_r. Qed.

Lemma mul_of_Z3 (a b c : Z) :
  ToUintN 32 (mul (mul (of_Z a) (of_Z b)) (of_Z c))
  = ToUintN 32 (of_Z (a * b * c)).
Proof. unfold ToUintN, mul, of_Z, truncate. simpl. by rewrite !Z.quot_1_r. Qed.

Ltac len_solve :=
  rewrite ?length_app, ?length_le_bytes, ?length_replicate;
  unfold Spec.ascii_bytes; rewrite ?length_map; simpl; lia.

Lemma wav_of_spec (c : nat) (rate : Q) (xs : list number) :
  wav_of c rate xs
  = Some
      (Spec.ascii_bytes "RIFF"
         ++ le_bytes 4 (Z.of_nat (44 + length xs * 2) - 8)
         ++ Spec.ascii_bytes "WAVE"
         ++ Spec.ascii_bytes "fmt " ++ le_bytes 4 16 ++ le_bytes 2 1
         ++ le_bytes 2 (Z.of_nat c)
         ++ le_bytes 4 (ToUintN 32 (Fin rate))
         ++ le_bytes 4
              (ToUintN 32 (mul (mul (Fin rate) (of_Z (Z.of_nat c))) (of_Z 2)))
         ++ le_bytes 2 (Z.of_nat c * 2) ++ le_bytes 2 16
         ++ Spec.ascii_bytes "data"
         ++ le_bytes 4 (Z.of_nat (length xs * 2))
         ++ flat_map sample_bytes xs).
Proof.
  unfold wav_of. cbv zeta.
  unfold setUint32, setUint16, of_nat.
  change (16 / 8) with 2.
  rewrite mul_of_Z, !le_bytes_u32, !le_bytes_u16.
  set (z2 := replicate 2 0). set (z4 := replicate 4 0).
  change (replicate (44 + length xs * 2) 0)
    with ([] ++ z4 ++ z4 ++ z4 ++ z4 ++ z4 ++ z2 ++ z2 ++ z4 ++ z4
             ++ z2 ++ z2 ++ z4 ++ z4 ++ replicate (length xs * 2) 0).
  rewrite writeString_bind by (subst z2 z4; len_solve).
  rewrite store_bind by (subst z2 z4; len_solve).
  rewrite writeString_bind by (subst z2 z4; len_solve).
  rewrite writeString_bind by (subst z2 z4; len_solve).
  rewrite store_bind by (subst z2 z4; len_solve).
  rewrite store_bind by (subst z2 z4; len_solve).
  rewrite store_bind by (subst z2 z4; len_solve).
  rewrite store_bind by (subst z2 z4; len_solve).
  rewrite store_bind by (subst z2 z4; len_solve).
  rewrite store_bind by (subst z2 z4; len_solve).
  rewrite store_bind by (subst z2 z4; len_solve).
  rewrite writeString_bind by (subst z2 z4; len_solve).
  rewrite store_bind by (subst z2 z4; len_solve).
  rewrite write_samples_spec by (subst z2 z4; len_solve).
  reflexivity.
Qed.

(** The interleaved samples of a buffer with one or two channels of
    [n] samples each. *)
Lemma interleaved_of_buffer (b : AudioBuffer) (n : nat) :
  (numberOfChannels b = 1 \/ numberOfChannels b = 2)%nat ->
  Forall (fun ch => length ch = n) (channelData b) ->
  (if decide (numberOfChannels b = 1%nat) then getChannelData b 0
   else
     left ← getChannelData b 0;
     right ← getChannelData b 1;
     Some (interleave left right))
  = Some (Spec.interleaved (channelData b) n).
Proof.
  unfold numberOfChannels, getChannelData.
  destruct (channelData b) as [|ch0 [|ch1 [|ch2 chs]]];
    intros [Hc|Hc] Hall; try discriminate Hc; cbn.
  - apply Forall_cons_1 in Hall as [<- _]. by rewrite interleaved_mono.
  - apply Forall_cons_1 in Hall as [<- _]. by rewrite interleave_spec.
Qed.

Lemma ToInt16_range (v : number) : - 2 ^ 15 <= ToInt16 v < 2 ^ 15.
Proof.
  unfold ToInt16.
  assert (0 <= ToUintN 16 v < 2 ^ 16).
  { destruct v; simpl; try lia. apply Z.mod_pos_bound. lia. }
  destruct (Z.leb_spec (2 ^ 15) (ToUintN 16 v)); lia.
Qed.

Lemma drop_flat_map_samples (xs : list number) (i : nat) :
  drop (2 * i) (flat_map sample_bytes xs)
  = flat_map sample_bytes (drop i xs).
Proof.
  revert i; induction xs as [|x xs IH]; intros [|i]; try done.
  replace (2 * S i)%nat with (2 + 2 * i)%nat by lia.
  cbn [flat_map]. unfold sample_bytes at 1. cbn [le_bytes app drop Nat.add].
  apply IH.
Qed.

(** Reading the [i]-th sample back from the data sub-chunk. *)
Lemma getInt16_data (hdr : list Z) (xs : list number) (i : nat)
    (x : number) :
  xs !! i = Some x ->
  getInt16 (length hdr + 2 * i) (hdr ++ flat_map sample_bytes xs)
  = ToInt16 (scaled x).
Proof.
  intros Hx.
  assert (Hd : drop (length hdr + 2 * i) (hdr ++ flat_map sample_bytes xs)
               = le_bytes 2 (ToInt16 (scaled x))
                   ++ flat_map sample_bytes (drop (S i) xs)).
  { rewrite drop_app_add', drop_flat_map_samples by done.
    by rewrite (drop_S _ _ _ Hx). }
  pose proof (getInt16_le_bytes (ToInt16 (scaled x))
                (flat_map sample_bytes (drop (S i) xs))
                (ToInt16_range _)) as Hg.
  unfold getInt16, getUint in *. rewrite drop_0 in Hg. by rewrite Hd.
Qed.

Lemma bytes_data (hdr : list Z) (xs : list number) (i : nat)
    (x : number) :
  xs !! i = Some x ->
  take 2 (drop (length hdr + 2 * i) (hdr ++ flat_map sample_bytes xs))
  = le_bytes 2 (ToInt16 (scaled x)).
Proof.
  intros Hx.
  rewrite drop_app_add', drop_flat_map_samples by done.
  by rewrite (drop_S _ _ _ Hx).
Qed.

(** The code's clamp is the specification's. *)
Lemma clamp_code (q : Q) :
  Math_max (of_Z (-1)) (Math_min (of_Z 1) (Fin q)) = Fin (Spec.clamp q).
Proof.
  unfold Spec.clamp, Math_min, Math_max, of_Z, lt, Qltb.
  change (inject_Z 1) with 1%Q. change (inject_Z (-1)) with (-1)%Q.
  destruct (Qle_bool 1 q) eqn:H1; cbn [negb].
  - change (Qle_bool 1 (-1)) with false. cbn [negb].
    destruct (Qle_bool q (-1)) eqn:H2; [|done].
    apply Qle_bool_iff in H1, H2.
    exfalso. apply (Qle_not_lt _ _ (Qle_trans _ _ _ H1 H2)). reflexivity.
  - by destruct (Qle_bool q (-1)).
Qed.

Lemma clamp_range (q : Q) : (-1 <= Spec.clamp q <= 1)%Q.
Proof.
  unfold Spec.clamp.
  destruct (Qle_bool q (-1)) eqn:H2; [split; discriminate|].
  destruct (Qle_bool 1 q) eqn:H1; [split; discriminate|].
  split; apply Qlt_le_weak, Qnot_le_lt; intros H%Qle_bool_iff; congruence.
Qed.

Lemma truncate_scaled_range (c : Q) (k : Z) :
  (-1 <= c <= 1)%Q -> 0 < k ->
  - k <= truncate (c * inject_Z k) <= k.
Proof.
  intros [Hlo Hhi] Hk. unfold truncate, Qle in *. destruct c as [n d].
  cbn [Qnum Qden Qmult inject_Z] in *.
  rewrite Pos.mul_1_r.
  assert (Hd : 0 < Z.pos d) by lia.
  destruct (Z.lt_ge_cases n 0) as [Hn|Hn].
  - replace (n * k) with (- (- n * k)) by lia.
    rewrite Z.quot_opp_l by lia.
    assert (0 <= (- n * k) ÷ Z.pos d) by (apply Z.quot_pos; nia).
    assert ((- n * k) ÷ Z.pos d <= k)
      by (apply Z.quot_le_upper_bound; nia).
    lia.
  - assert (0 <= (n * k) ÷ Z.pos d) by (apply Z.quot_pos; nia).
    assert ((n * k) ÷ Z.pos d <= k)
      by (apply Z.quot_le_upper_bound; nia).
    lia.
Qed.

Lemma truncate_nonneg (c : Q) (k : Z) :
  Qltb c 0 = false -> 0 < k -> 0 <= truncate (c * inject_Z k).
Proof.
  unfold Qltb. intros H Hk. apply negb_false_iff, Qle_bool_iff in H.
  unfold truncate, Qle in *. destruct c as [n d].
  cbn [Qnum Qden Qmult inject_Z] in *.
  apply Z.quot_pos; nia.
Qed.

Lemma ToInt16_small (t : Q) :
  - 2 ^ 15 <= truncate t < 2 ^ 15 -> ToInt16 (Fin t) = truncate t.
Proof.
  intros Ht. unfold ToInt16, ToUintN.
  change (2 ^ 15) with 32768 in *. change (2 ^ 16) with 65536.
  destruct (Z.lt_ge_cases (truncate t) 0) as [Hn|Hn].
  - rewrite <- (Z.mod_unique (truncate t) 65536 (-1) (truncate t + 65536))
      by lia.
    destruct (Z.leb_spec 32768 (truncate t + 65536)); lia.
  - rewrite Z.mod_small by lia.
    destruct (Z.leb_spec 32768 (truncate t)); lia.
Qed.

(** The 16-bit integer written for a finite sample is the one the
    quantization rule names. *)
Lemma quantize_code (q : Q) : ToInt16 (scaled (Fin q)) = Spec.quantize q.
Proof.
  unfold scaled, Spec.quantize. cbv zeta. rewrite clamp_code.
  pose proof (clamp_range q) as Hc.
  set (c := Spec.clamp q) in *.
  change (lt (Fin c) (of_Z 0)) with (Qltb c 0).
  destruct (Qltb c 0) eqn:Hneg; cbn [mul of_Z].
  - apply ToInt16_small.
    pose proof (truncate_scaled_range c 32768 Hc ltac:(lia)) as Ht.
    change (inject_Z 32768) with 32768%Q in *.
    assert (truncate (c * 32768) <= 0).
    { unfold Qltb in Hneg. apply negb_true_iff in Hneg.
      assert (Hlt : (c < 0)%Q).
      { apply Qnot_le_lt. intros H%Qle_bool_iff. congruence. }
      unfold truncate, Qlt in *. destruct c as [n d].
      cbn [Qnum Qden Qmult] in *.
      replace (n * 32768) with (- (- n * 32768)) by lia.
      rewrite Z.quot_opp_l by lia.
      assert (0 <= (- n * 32768) ÷ Z.pos (d * 1)) by (apply Z.quot_pos; lia).
      lia. }
    change (2 ^ 15) with 32768. lia.
  - apply ToInt16_small.
    pose proof (truncate_scaled_range c 32767 Hc ltac:(lia)) as Ht.
    pose proof (truncate_nonneg c 32767 Hneg ltac:(lia)) as Hp.
    change (inject_Z 32767) with 32767%Q in *.
    change (2 ^ 15) with 32768. lia.
Qed.

Lemma le_bytes_uint16le (x : Z) : le_bytes 2 x = Spec.uint16le x.
Proof. reflexivity. Qed.

Lemma le_bytes_uint32le (x : Z) : le_bytes 4 x = Spec.uint32le x.
Proof.
  unfold Spec.uint32le. cbn [le_bytes].
  rewrite !Z.div_div by lia. reflexivity.
Qed.

Lemma le_bytes_int16le (x : Z) : le_bytes 2 x = Spec.int16le x.
Proof.
  change (le_bytes 2 x = le_bytes 2 (x mod 2 ^ 16)).
  symmetry. exact (le_bytes_mod 2 x).
Qed.

(** Whatever the sample rate, the encoder returns 44 header bytes
    followed by the samples in interleaved order. *)
Lemma audioBufferToWav_data (b : AudioBuffer) (n : nat) :
  (numberOfChannels b = 1 \/ numberOfChannels b = 2)%nat ->
  Forall (fun ch => length ch = n) (channelData b) ->
  exists hdr : list Z,
    length hdr = 44%nat /\
    audioBufferToWav b
    = Some (hdr ++ flat_map sample_bytes
                     (Spec.interleaved (channelData b) n)).
Proof.
  intros Hc Hall.
  rewrite audioBufferToWav_unfold, (interleaved_of_buffer b n Hc Hall).
  cbn [mbind option_bind]. rewrite wav_of_spec.
  rewrite !app_assoc. eexists. split; [|reflexivity].
  reflexivity.
Qed.

(** With an integral sample rate, the header is the specification's. *)
Lemma audioBufferToWav_layout (b : AudioBuffer) (n : nat) (r : Z) :
  (numberOfChannels b = 1 \/ numberOfChannels b = 2)%nat ->
  Forall (fun ch => length ch = n) (channelData b) ->
  sampleRate b = inject_Z r ->
  audioBufferToWav b
  = Some (Spec.header (Z.of_nat (numberOfChannels b)) r (Z.of_nat n)
            ++ flat_map sample_bytes (Spec.interleaved (channelData b) n)).
Proof.
  intros Hc Hall Hr.
  rewrite audioBufferToWav_unfold, (interleaved_of_buffer b n Hc Hall).
  cbn [mbind option_bind]. rewrite wav_of_spec, Hr.
  change (Fin (inject_Z r)) with (of_Z r).
  rewrite mul_of_Z3, !le_bytes_u32, length_interleaved.
  fold (numberOfChannels b). set (c := numberOfChannels b).
  rewrite !le_bytes_uint32le, !le_bytes_uint16le.
  unfold Spec.header. rewrite <- !app_assoc.
  replace (Z.of_nat (44 + n * c * 2) - 8)
    with (44 + Z.of_nat n * Z.of_nat c * 2 - 8) by lia.
  replace (Z.of_nat (n * c * 2))
    with (Z.of_nat n * Z.of_nat c * 2) by lia.
  reflexivity.
Qed.

Lemma length_header (c r n : Z) : length (Spec.header c r n) = 44%nat.
Proof. reflexivity. Qed.

Lemma length_samples (xs : list number) :
  length (flat_map sample_bytes xs) = (length xs * 2)%nat.
Proof.
  apply flat_map_constant_length. intros x _. apply length_le_bytes.
Qed.

Lemma uint32le_value (x : Z) :
  0 <= x < 2 ^ 32 -> le_value (Spec.uint32le x) = x.
Proof.
  intros Hx. rewrite <- le_bytes_uint32le, le_value_le_bytes.
  apply Z.mod_small. exact Hx.
Qed.

Lemma uint16le_value (x : Z) :
  0 <= x < 2 ^ 16 -> le_value (Spec.uint16le x) = x.
Proof.
  intros Hx. rewrite <- le_bytes_uint16le, le_value_le_bytes.
  apply Z.mod_small. exact Hx.
Qed.

End Encoder.

(** ** Claims about the container encoder *)

(** C1.  For every buffer of one or two channels, the encoder returns
    a file in which each finite sample [s] of the interleaved input
    occupies the two bytes at offset [44 + 2*i] of the data sub-chunk,
    and these are the little-endian 16-bit two's complement form of
    [s] clamped to [[-1, 1]], scaled by 32768 if negative and by 32767
    otherwise, and truncated.  The buffer [[0.0, 0.5, -0.5, 1.0, -1.0]]
    at one channel and 8000 Hz yields a ten-byte data sub-chunk that
    decodes to [[0, 16383, -16384, 32767, -32768]]. *)
Theorem wav_quantization (b : WebAudio.AudioBuffer) (n : nat) :
  (WebAudio.numberOfChannels b = 1 \/ WebAudio.numberOfChannels b = 2)%nat ->
  Forall (fun ch => length ch = n) (WebAudio.channelData b) ->
  (exists bytes : list Z,
      Exporter.audioBufferToWav b = Some bytes /\
      forall (i : nat) (q : Q),
        Spec.interleaved (WebAudio.channelData b) n !! i = Some (JS.Fin q) ->
        take 2 (drop (44 + 2 * i) bytes) = Spec.int16le (Spec.quantize q) /\
        DataView.getInt16 (44 + 2 * i) bytes = Spec.quantize q)
  /\
  (exists bytes : list Z,
      Exporter.audioBufferToWav Spec.known_buffer = Some bytes /\
      length (drop 44 bytes) = 10%nat /\
      map (fun i => DataView.getInt16 (44 + 2 * i) bytes) (seq 0 5)
      = [0; 16383; -16384; 32767; -32768]).
Proof.
  intros Hc Hall. split.
  - destruct (audioBufferToWav_data b n Hc Hall) as (hdr & Hlen & Hwav).
    eexists. split; [exact Hwav|]. intros i q Hq.
    rewrite <- Hlen. split.
    + rewrite (bytes_data hdr _ i _ Hq), quantize_code.
      apply le_bytes_int16le.
    + rewrite (getInt16_data hdr _ i _ Hq). apply quantize_code.
  - eexists. split; [vm_compute; reflexivity|]. split; reflexivity.
Qed.

Lemma wav_quantization_witness :
  (WebAudio.numberOfChannels Spec.known_buffer = 1
   \/ WebAudio.numberOfChannels Spec.known_buffer = 2)%nat /\
  Forall (fun ch => length ch = 5%nat)
    (WebAudio.channelData Spec.known_buffer) /\
  ((exists bytes : list Z,
       Exporter.audioBufferToWav Spec.known_buffer = Some bytes /\
       forall (i : nat) (q : Q),
         Spec.interleaved (WebAudio.channelData Spec.known_buffer) 5 !! i
         = Some (JS.Fin q) ->
         take 2 (drop (44 + 2 * i) bytes) = Spec.int16le (Spec.quantize q) /\
         DataView.getInt16 (44 + 2 * i) bytes = Spec.quantize q)
   /\
   (exists bytes : list Z,
       Exporter.audioBufferToWav Spec.known_buffer = Some bytes /\
       length (drop 44 bytes) = 10%nat /\
       map (fun i => DataView.getInt16 (44 + 2 * i) bytes) (seq 0 5)
       = [0; 16383; -16384; 32767; -32768])).
Proof.
  assert (H1 : (WebAudio.numberOfChannels Spec.known_buffer = 1
                \/ WebAudio.numberOfChannels Spec.known_buffer = 2)%nat)
    by (left; reflexivity).
  assert (H2 : Forall (fun ch => length ch = 5%nat)
                 (WebAudio.channelData Spec.known_buffer))
    by (repeat constructor).
  exact (conj H1 (conj H2 (wav_quantization Spec.known_buffer 5 H1 H2))).
Defined.

(** C2.  For a buffer of [c] channels ([c] one or two), [n] samples per
    channel and sample rate [r], the encoder returns exactly
    [44 + n*c*2] bytes: "RIFF", the total size minus 8, "WAVE"; "fmt ",
    16, format 1, [c], [r], [r*c*2], [c*2], 16; "data", [n*c*2]; then
    the interleaved samples, two little-endian bytes each.  The bytes
    depend on the sample rate and channel data alone. *)
Theorem wav_container_layout (b : WebAudio.AudioBuffer) (c n : nat) (r : Z) :
  WebAudio.numberOfChannels b = c ->
  (c = 1 \/ c = 2)%nat ->
  Forall (fun ch => length ch = n) (WebAudio.channelData b) ->
  WebAudio.sampleRate b = inject_Z r ->
  exists bytes : list Z,
    Exporter.audioBufferToWav b = Some bytes /\
    length bytes = (44 + n * c * 2)%nat /\
    bytes
    = Spec.header (Z.of_nat c) r (Z.of_nat n)
        ++ flat_map
             (fun x => Spec.int16le (JS.ToInt16 (Exporter.scaled x)))
             (Spec.interleaved (WebAudio.channelData b) n) /\
    length (Spec.header (Z.of_nat c) r (Z.of_nat n)) = 44%nat /\
    forall b' : WebAudio.AudioBuffer,
      WebAudio.sampleRate b' = WebAudio.sampleRate b ->
      WebAudio.channelData b' = WebAudio.channelData b ->
      Exporter.audioBufferToWav b' = Some bytes.
Proof.
  intros Hnc Hc Hall Hr. subst c.
  pose proof (audioBufferToWav_layout b n r Hc Hall Hr) as Hwav.
  eexists. split; [exact Hwav|]. split; [|split; [|split]].
  - rewrite length_app, length_header, length_samples, length_interleaved.
    reflexivity.
  - f_equal. apply flat_map_ext. intros x. apply le_bytes_int16le.
  - reflexivity.
  - intros [rate' chs'] Hrate Hchs. simpl in Hrate, Hchs.
    destruct b as [rate chs]. simpl in *. by subst.
Qed.

Lemma wav_container_layout_witness :
  WebAudio.numberOfChannels Spec.known_buffer = 1%nat /\
  (1 = 1 \/ 1 = 2)%nat /\
  Forall (fun ch => length ch = 5%nat)
    (WebAudio.channelData Spec.known_buffer) /\
  WebAudio.sampleRate Spec.known_buffer = inject_Z 8000 /\
  exists bytes : list Z,
    Exporter.audioBufferToWav Spec.known_buffer = Some bytes /\
    length bytes = (44 + 5 * 1 * 2)%nat /\
    bytes
    = Spec.header (Z.of_nat 1) 8000 (Z.of_nat 5)
        ++ flat_map
             (fun x => Spec.int16le (JS.ToInt16 (Exporter.scaled x)))
             (Spec.interleaved (WebAudio.channelData Spec.known_buffer) 5) /\
    length (Spec.header (Z.of_nat 1) 8000 (Z.of_nat 5)) = 44%nat /\
    forall b' : WebAudio.AudioBuffer,
      WebAudio.sampleRate b' = WebAudio.sampleRate Spec.known_buffer ->
      WebAudio.channelData b' = WebAudio.channelData Spec.known_buffer ->
      Exporter.audioBufferToWav b' = Some bytes.
Proof.
  assert (H1 : WebAudio.numberOfChannels Spec.known_buffer = 1%nat)
    by reflexivity.
  assert (H2 : (1 = 1 \/ 1 = 2)%nat) by (left; reflexivity).
  assert (H3 : Forall (fun ch => length ch = 5%nat)
                 (WebAudio.channelData Spec.known_buffer))
    by (repeat constructor).
  assert (H4 : WebAudio.sampleRate Spec.known_buffer = inject_Z 8000)
    by reflexivity.
  exact (conj H1 (conj H2 (conj H3 (conj H4
           (wav_container_layout Spec.known_buffer 1 5 8000 H1 H2 H3 H4))))).
Defined.

(** ** Rounding to binary64 *)

Section Rounding.
Import JS JSArith.
Local Open Scope Q_scope.

Lemma two_pos k : 0 < 2 ^ k.
Proof. apply Qpower_0_lt. reflexivity. Qed.

Lemma two_add a b : 2 ^ (a + b) == 2 ^ a * 2 ^ b.
Proof. apply Qpower_plus. intros H. inversion H. Qed.

Lemma two_le a b : (a <= b)%Z -> 2 ^ a <= 2 ^ b.
Proof. intros H. apply Qpower_le_compat_l; [exact H | discriminate]. Qed.

Lemma two_lt a b : (a < b)%Z -> 2 ^ a < 2 ^ b.
Proof. intros H. apply Qpower_lt_compat_l; [exact H | reflexivity]. Qed.

Lemma two_lt_inv a b : 2 ^ a < 2 ^ b -> (a < b)%Z.
Proof. intros H. apply (Qpower_lt_compat_l_inv 2); [exact H | reflexivity]. Qed.

Lemma two_Z n : (0 <= n)%Z -> inject_Z (2 ^ n) == 2 ^ n.
Proof. apply (Zpower_Qpower 2). Qed.

Lemma two_eq a b : a = b -> 2 ^ a == 2 ^ b.
Proof. intros ->. reflexivity. Qed.

Lemma two_cancel k : 2 ^ k * 2 ^ (- k) == 1.
Proof. rewrite <- two_add, Z.add_opp_diag_r. reflexivity. Qed.

Lemma rne_bounds q : (Qfloor q <= rne q <= Qfloor q + 1)%Z.
Proof.
  unfold rne. destruct (_ ?= _); [destruct (Z.even _) | |]; lia.
Qed.

Lemma rne_mono a b : a <= b -> (rne a <= rne b)%Z.
Proof.
  intros H. pose proof (Qfloor_resp_le _ _ H) as Hf.
  destruct (Z.eq_dec (Qfloor a) (Qfloor b)) as [E | E].
  - unfold rne. rewrite <- E.
    destruct (Qcompare_spec (a - inject_Z (Qfloor a)) (1 # 2));
      destruct (Qcompare_spec (b - inject_Z (Qfloor a)) (1 # 2));
      try destruct (Z.even _); try lia; exfalso; lra.
  - pose proof (rne_bounds a). pose proof (rne_bounds b). lia.
Qed.

Lemma rne_Z z : rne (inject_Z z) = z.
Proof.
  unfold rne. rewrite Qfloor_Z.
  destruct (Qcompare_spec (inject_Z z - inject_Z z) (1 # 2));
    [exfalso; lra | reflexivity | exfalso; lra].
Qed.

Lemma rne_comp a b : a == b -> rne a = rne b.
Proof.
  intros H. unfold rne. rewrite (Qfloor_comp _ _ H).
  assert (a - inject_Z (Qfloor b) == b - inject_Z (Qfloor b)) as E
    by (rewrite H; reflexivity).
  rewrite (Qcompare_comp _ _ E _ _ (Qeq_refl _)). reflexivity.
Qed.

Lemma rne_integer q z : q == inject_Z z -> rne q = z.
Proof. intros H. rewrite (rne_comp _ _ H). apply rne_Z. Qed.

Lemma Qmake_mult n d : (n # d) * inject_Z (Zpos d) == inject_Z n.
Proof. unfold Qeq, Qmult, inject_Z. cbn. rewrite Pos.mul_1_r. ring. Qed.

Lemma Qnum_pos q : 0 < q -> exists p, Qnum q = Zpos p.
Proof.
  destruct q as [n d]. unfold Qlt. cbn. intros H.
  destruct n; try lia. eauto.
Qed.

Lemma ilog2_rough q :
  0 < q ->
  let k := (Z.log2 (Qnum q) - Z.log2 (Zpos (Qden q)))%Z in
  2 ^ (k - 1) < q /\ q < 2 ^ (k + 1).
Proof.
  destruct q as [n d]. intros Hq. cbn [Qnum Qden].
  assert (0 < n)%Z as Hn by (unfold Qlt in Hq; cbn in Hq; lia).
  pose proof (Z.log2_spec n Hn) as [Ha1 Ha2].
  pose proof (Z.log2_spec (Zpos d) eq_refl) as [Hb1 Hb2].
  pose proof (Z.log2_nonneg n) as Ha0.
  pose proof (Z.log2_nonneg (Zpos d)) as Hb0.
  set (a := Z.log2 n) in *. set (b := Z.log2 (Zpos d)) in *.
  rewrite Zle_Qle, two_Z in Ha1, Hb1 by lia.
  rewrite Zlt_Qlt, two_Z in Ha2, Hb2 by lia.
  pose proof (Qmake_mult n d) as E.
  assert (0 < inject_Z (Zpos d)) as HD by reflexivity.
  set (N := inject_Z n) in *. set (D := inject_Z (Zpos d)) in *.
  set (q := n # d) in *.
  split.
  - assert (2 ^ (a - b - 1) * 2 ^ Z.succ b == 2 ^ a) as Ek
      by (rewrite <- two_add; replace (a - b - 1 + Z.succ b)%Z with a by lia;
          reflexivity).
    pose proof (two_pos (a - b - 1)) as HV.
    destruct (Qlt_le_dec (2 ^ (a - b - 1)) q) as [? | Hc]; [assumption |].
    exfalso.
    set (V := 2 ^ (a - b - 1)) in *. set (X := 2 ^ Z.succ b) in *.
    set (A := 2 ^ a) in *.
    assert (q * D <= V * D) by (apply Qmult_le_compat_r; lra).
    assert (V * D < V * X) by (apply Qmult_lt_l; lra).
    lra.
  - assert (2 ^ (a - b + 1) * 2 ^ b == 2 ^ Z.succ a) as Ek
      by (rewrite <- two_add; replace (a - b + 1 + b)%Z with (Z.succ a) by lia;
          reflexivity).
    pose proof (two_pos (a - b + 1)) as HW.
    pose proof (two_pos b) as HX.
    destruct (Qlt_le_dec q (2 ^ (a - b + 1))) as [? | Hc]; [assumption |].
    exfalso.
    set (W := 2 ^ (a - b + 1)) in *. set (X := 2 ^ b) in *.
    set (Y := 2 ^ Z.succ a) in *.
    assert (W * D <= q * D) by (apply Qmult_le_compat_r; lra).
    assert (W * X <= W * D) by (apply Qmult_le_l; lra).
    lra.
Qed.

Lemma ilog2_spec q : 0 < q -> 2 ^ ilog2 q <= q /\ q < 2 ^ (ilog2 q + 1).
Proof.
  intros Hq. destruct (ilog2_rough q Hq) as [H1 H2]. unfold ilog2.
  set (k := (Z.log2 (Qnum q) - Z.log2 (Zpos (Qden q)))%Z) in *.
  destruct (Qle_bool (2 ^ k) q) eqn:E.
  - apply Qle_bool_iff in E. split; [exact E | exact H2].
  - split; [apply Qlt_le_weak; exact H1 |].
    replace (k - 1 + 1)%Z with k by lia.
    apply Qnot_le_lt. intros H. apply Qle_bool_iff in H. congruence.
Qed.

Lemma ilog2_unique q k : 2 ^ k <= q -> q < 2 ^ (k + 1) -> ilog2 q = k.
Proof.
  intros H1 H2.
  assert (0 < q) as Hq by (pose proof (two_pos k); lra).
  destruct (ilog2_spec q Hq) as [H3 H4].
  assert (2 ^ k < 2 ^ (ilog2 q + 1)) as Ha by lra.
  assert (2 ^ ilog2 q < 2 ^ (k + 1)) as Hb by lra.
  apply two_lt_inv in Ha, Hb. lia.
Qed.

Lemma ilog2_mono a b : 0 < a -> a <= b -> (ilog2 a <= ilog2 b)%Z.
Proof.
  intros Ha H.
  destruct (ilog2_spec a Ha) as [H1 _].
  destruct (ilog2_spec b) as [_ H2]; [lra |].
  assert (2 ^ ilog2 a < 2 ^ (ilog2 b + 1)) as Hc by lra.
  apply two_lt_inv in Hc. lia.
Qed.

Lemma ilog2_scale q e : 0 < q -> ilog2 (q * 2 ^ e) = (ilog2 q + e)%Z.
Proof.
  intros Hq. destruct (ilog2_spec q Hq) as [H1 H2].
  pose proof (two_pos e) as He.
  apply ilog2_unique.
  - rewrite two_add. apply Qmult_le_compat_r; lra.
  - replace (ilog2 q + e + 1)%Z with (ilog2 q + 1 + e)%Z by lia.
    rewrite two_add. apply Qmult_lt_r; lra.
Qed.

Lemma ilog2_comp a b : 0 < a -> a == b -> ilog2 a = ilog2 b.
Proof.
  intros Ha E. destruct (ilog2_spec a Ha) as [H1 H2].
  symmetry. apply ilog2_unique; lra.
Qed.

Lemma exponent_mono a b : 0 < a -> a <= b -> (exponent a <= exponent b)%Z.
Proof.
  intros Ha H. pose proof (ilog2_mono a b Ha H). unfold exponent. lia.
Qed.

Lemma significand_upper q : 0 < q -> (significand q <= 2 ^ 53)%Z.
Proof.
  intros Hq. unfold significand.
  destruct (ilog2_spec q Hq) as [_ H2].
  pose proof (two_pos (- exponent q)) as He.
  assert (q * 2 ^ (- exponent q) <= inject_Z (2 ^ 53)) as H.
  { rewrite two_Z by lia.
    apply Qle_trans with (2 ^ (ilog2 q + 1) * 2 ^ (- exponent q)).
    - apply Qmult_le_compat_r; lra.
    - rewrite <- two_add. apply two_le. unfold exponent. lia. }
  apply rne_mono in H. rewrite rne_Z in H. exact H.
Qed.

Lemma significand_lower q :
  0 < q -> (-1074 < exponent q)%Z -> (2 ^ 52 <= significand q)%Z.
Proof.
  intros Hq He. unfold significand.
  destruct (ilog2_spec q Hq) as [H1 _].
  pose proof (two_pos (- exponent q)) as Hp.
  assert (inject_Z (2 ^ 52) <= q * 2 ^ (- exponent q)) as H.
  { rewrite two_Z by lia.
    apply Qle_trans with (2 ^ ilog2 q * 2 ^ (- exponent q)).
    - rewrite <- two_add. apply two_le. unfold exponent in *. lia.
    - apply Qmult_le_compat_r; lra. }
  apply rne_mono in H. rewrite rne_Z in H. exact H.
Qed.

Lemma significand_nonneg q : 0 < q -> (0 <= significand q)%Z.
Proof.
  intros Hq. unfold significand.
  pose proof (two_pos (- exponent q)) as Hp.
  assert (inject_Z 0 <= q * 2 ^ (- exponent q)) as H.
  { change (inject_Z 0) with 0. apply Qmult_le_0_compat; lra. }
  apply rne_mono in H. rewrite rne_Z in H. exact H.
Qed.

Lemma round_pos_eq q :
  round_pos q == inject_Z (significand q) * 2 ^ exponent q.
Proof. unfold round_pos. apply Qred_correct. Qed.

Lemma round_pos_nonneg q : 0 < q -> 0 <= round_pos q.
Proof.
  intros Hq. rewrite round_pos_eq.
  pose proof (significand_nonneg q Hq) as H. rewrite Zle_Qle in H.
  pose proof (two_pos (exponent q)).
  apply Qmult_le_0_compat; [exact H | lra].
Qed.

Lemma round_pos_mono a b : 0 < a -> a <= b -> round_pos a <= round_pos b.
Proof.
  intros Ha H. assert (0 < b) as Hb by lra.
  rewrite !round_pos_eq.
  pose proof (exponent_mono a b Ha H) as He.
  destruct (Z.eq_dec (exponent a) (exponent b)) as [E | E].
  - unfold significand. rewrite E.
    pose proof (two_pos (exponent b)). pose proof (two_pos (- exponent b)).
    apply Qmult_le_compat_r; [| lra].
    rewrite <- Zle_Qle. apply rne_mono.
    apply Qmult_le_compat_r; lra.
  - pose proof (significand_upper a Ha) as Hu.
    assert (-1074 <= exponent a)%Z by (unfold exponent; lia).
    pose proof (significand_lower b Hb ltac:(lia)) as Hl.
    rewrite Zle_Qle, two_Z in Hu, Hl by lia.
    pose proof (two_pos (exponent a)). pose proof (two_pos (exponent b)).
    apply Qle_trans with (2 ^ 53 * 2 ^ exponent a);
      [apply Qmult_le_compat_r; lra |].
    apply Qle_trans with (2 ^ 52 * 2 ^ exponent b);
      [| apply Qmult_le_compat_r; lra].
    rewrite <- !two_add. apply two_le. lia.
Qed.

Lemma round_pos_comp a b : 0 < a -> a == b -> round_pos a = round_pos b.
Proof.
  intros Ha E. unfold round_pos, significand, exponent.
  rewrite (ilog2_comp a b Ha E).
  f_equal. f_equal. f_equal. apply rne_comp. rewrite E. reflexivity.
Qed.

Lemma ilog2_Z m : (0 < m <= 2 ^ 53)%Z -> (0 <= ilog2 (inject_Z m) <= 53)%Z.
Proof.
  intros [H1 H2].
  assert (0 < inject_Z m) as Hm by (rewrite <- (Zlt_Qlt 0); exact H1).
  split.
  - replace 0%Z with (ilog2 1) by reflexivity.
    apply ilog2_mono; [reflexivity |]. rewrite <- (Zle_Qle 1). lia.
  - replace 53%Z with (ilog2 (inject_Z (2 ^ 53))) by reflexivity.
    apply ilog2_mono; [exact Hm |]. rewrite <- Zle_Qle. exact H2.
Qed.

(** A positive multiple of a power of two with a 53-bit multiplier and
    an exponent not below -1074 is a binary64 value. *)
Lemma round_pos_dyadic q m e :
  (0 < m <= 2 ^ 53)%Z -> (-1074 <= e)%Z -> q == inject_Z m * 2 ^ e ->
  round_pos q = Qred q.
Proof.
  intros Hm He E.
  assert (0 < inject_Z m) as Hm0 by (rewrite <- (Zlt_Qlt 0); lia).
  pose proof (two_pos e) as Hp.
  assert (0 < q) as Hq by (rewrite E; apply Qmult_lt_0_compat; lra).
  pose proof (ilog2_Z m Hm) as Hj.
  assert (ilog2 q = (ilog2 (inject_Z m) + e)%Z) as Hi.
  { rewrite (ilog2_comp q _ Hq E). apply ilog2_scale. exact Hm0. }
  assert (exists z, q * 2 ^ (- exponent q) == inject_Z z) as [z Hz].
  { destruct (Z.eq_dec (ilog2 (inject_Z m)) 53%Z) as [J | J].
    - assert (m = 2 ^ 53)%Z as ->.
      { destruct (ilog2_spec _ Hm0) as [H1 _]. rewrite J in H1.
        rewrite <- two_Z, <- Zle_Qle in H1 by lia. lia. }
      exists (2 ^ 52)%Z.
      assert (exponent q = e + 1)%Z as -> by (unfold exponent; lia).
      rewrite E, !two_Z by lia. rewrite <- Qmult_assoc, <- !two_add.
      apply two_eq. lia.
    - exists (m * 2 ^ (e - exponent q))%Z.
      assert (0 <= e - exponent q)%Z by (unfold exponent; lia).
      generalize dependent (exponent q). intros x Hx.
      rewrite inject_Z_mult, two_Z by lia.
      rewrite E, <- Qmult_assoc, <- two_add.
      replace (e + - x)%Z with (e - x)%Z by lia.
      reflexivity. }
  unfold round_pos, significand. rewrite (rne_integer _ _ Hz).
  apply Qred_complete. rewrite <- Hz, <- Qmult_assoc.
  rewrite (Qmult_comm (2 ^ _)), two_cancel. ring.
Qed.

Lemma round_pos_idem q :
  0 < q -> 0 < round_pos q -> round_pos (round_pos q) = round_pos q.
Proof.
  intros Hq Hr.
  assert (0 < significand q)%Z as Hs.
  { pose proof (significand_nonneg q Hq) as H0.
    destruct (Z.eq_dec (significand q) 0%Z) as [Z0 | ?]; [| lia].
    rewrite round_pos_eq, Z0 in Hr. change (inject_Z 0) with 0 in Hr.
    rewrite Qmult_0_l in Hr. inversion Hr. }
  rewrite (round_pos_dyadic _ (significand q) (exponent q)).
  - unfold round_pos. apply Qred_complete, Qred_correct.
  - split; [exact Hs | apply significand_upper; exact Hq].
  - unfold exponent. lia.
  - apply round_pos_eq.
Qed.

Lemma Qnum_sign q :
  match Qnum q with
  | Z0 => q == 0
  | Zpos _ => 0 < q
  | Zneg _ => q < 0
  end.
Proof. destruct q as [[| p | p] d]; reflexivity. Qed.

Lemma round64_pos q : 0 < q -> round64 q = round_pos q.
Proof.
  intros H. unfold round64. pose proof (Qnum_sign q) as S.
  destruct (Qnum q); [exfalso; lra | reflexivity | exfalso; lra].
Qed.

Lemma round64_neg q : q < 0 -> round64 q = - round_pos (- q).
Proof.
  intros H. unfold round64. pose proof (Qnum_sign q) as S.
  destruct (Qnum q); [exfalso; lra | exfalso; lra | reflexivity].
Qed.

Lemma round64_zero q : q == 0 -> round64 q = 0.
Proof.
  intros H. unfold round64. pose proof (Qnum_sign q) as S.
  destruct (Qnum q); [reflexivity | exfalso; lra | exfalso; lra].
Qed.

Lemma round64_mono a b : a <= b -> round64 a <= round64 b.
Proof.
  intros H.
  destruct (Q_dec a 0) as [[Ha | Ha] | Ha], (Q_dec b 0) as [[Hb | Hb] | Hb];
    rewrite ?(round64_neg a), ?(round64_pos a), ?(round64_zero a),
      ?(round64_neg b), ?(round64_pos b), ?(round64_zero b) by assumption;
    try (exfalso; lra).
  - assert (round_pos (- b) <= round_pos (- a))
      by (apply round_pos_mono; lra). lra.
  - pose proof (round_pos_nonneg (- a)). pose proof (round_pos_nonneg b).
    lra.
  - pose proof (round_pos_nonneg (- a)). lra.
  - apply round_pos_mono; lra.
  - pose proof (round_pos_nonneg b). lra.
  - lra.
Qed.

Lemma round64_comp a b : a == b -> round64 a = round64 b.
Proof.
  intros E.
  destruct (Q_dec a 0) as [[Ha | Ha] | Ha].
  - rewrite (round64_neg a), (round64_neg b) by lra.
    f_equal. apply round_pos_comp; lra.
  - rewrite (round64_pos a), (round64_pos b) by lra.
    apply round_pos_comp; lra.
  - rewrite (round64_zero a), (round64_zero b) by lra. reflexivity.
Qed.

Lemma Qred_zero q : q == 0 -> Qred q = 0.
Proof. intros H. apply (Qred_complete q 0 H). Qed.

Lemma Qopp_opp q : (- - q) = q.
Proof. destruct q as [n d]. unfold Qopp. cbn. rewrite Z.opp_involutive. reflexivity. Qed.

Lemma round_pos_zero q : round_pos q == 0 -> round_pos q = 0.
Proof.
  intros H. unfold round_pos in *. rewrite Qred_correct in H.
  apply Qred_zero. exact H.
Qed.

Lemma round64_idem q : round64 (round64 q) = round64 q.
Proof.
  destruct (Q_dec q 0) as [[Hq | Hq] | Hq].
  - rewrite (round64_neg q Hq).
    pose proof (round_pos_nonneg (- q) ltac:(lra)) as H0.
    destruct (Qle_lt_or_eq _ _ H0) as [H | H].
    + rewrite round64_neg by lra. rewrite Qopp_opp.
      rewrite round_pos_idem by lra. reflexivity.
    + symmetry in H. rewrite (round_pos_zero _ H). reflexivity.
  - rewrite (round64_pos q Hq).
    pose proof (round_pos_nonneg q Hq) as H0.
    destruct (Qle_lt_or_eq _ _ H0) as [H | H].
    + rewrite round64_pos by lra. apply round_pos_idem; assumption.
    + symmetry in H. rewrite (round_pos_zero _ H). reflexivity.
  - rewrite (round64_zero q Hq). reflexivity.
Qed.

Lemma round64_opp q : round64 (- q) = - round64 q.
Proof.
  destruct (Q_dec q 0) as [[Hq | Hq] | Hq].
  - rewrite (round64_neg q Hq), round64_pos by lra. rewrite Qopp_opp.
    reflexivity.
  - rewrite (round64_pos q Hq), round64_neg by lra. rewrite Qopp_opp.
    reflexivity.
  - rewrite (round64_zero q Hq), round64_zero by lra. reflexivity.
Qed.

Lemma Qred_inject_Z z : Qred (inject_Z z) = inject_Z z.
Proof.
  pose proof (gcd_Qred (inject_Z z)) as G.
  pose proof (Qred_correct (inject_Z z)) as E.
  destruct (Qred (inject_Z z)) as [n d]. unfold Qeq in E. cbn in G, E.
  rewrite Z.mul_1_r in E. subst n.
  rewrite Z.gcd_comm, (Z.mul_comm z), Z.gcd_mul_diag_l in G by lia.
  unfold inject_Z. f_equal; lia.
Qed.

Lemma round64_Z z : (Z.abs z <= 2 ^ 53)%Z -> round64 (inject_Z z) = inject_Z z.
Proof.
  intros H.
  assert (forall m, (0 < m <= 2 ^ 53)%Z ->
                    round_pos (inject_Z m) = inject_Z m) as P.
  { intros m Hm. rewrite (round_pos_dyadic _ m 0 Hm); [| lia | ring].
    apply Qred_inject_Z. }
  destruct z as [| p | p].
  - reflexivity.
  - apply P. lia.
  - change (round64 (inject_Z (Z.neg p))) with (- round_pos (inject_Z (Zpos p))).
    rewrite P by lia. reflexivity.
Qed.


(** *** Doubles *)

Lemma round64_nonneg q : 0 <= q -> 0 <= round64 q.
Proof. intros H. apply (round64_mono 0 q H). Qed.

Lemma round64_nonpos q : q <= 0 -> round64 q <= 0.
Proof. intros H. apply (round64_mono q 0 H). Qed.


Lemma double_cases q :
  (double q = Fin (round64 q) /\ - 2 ^ 1024 < round64 q /\
   round64 q < 2 ^ 1024) \/
  (double q = PosInfinity /\ 2 ^ 1024 <= round64 q) \/
  (double q = NegInfinity /\ round64 q <= - 2 ^ 1024).
Proof.
  unfold double.
  destruct (Qle_bool (2 ^ 1024) (round64 q)) eqn:E1.
  - right. left. split; [reflexivity | by apply Qle_bool_iff].
  - destruct (Qle_bool (round64 q) (- 2 ^ 1024)) eqn:E2.
    + right. right. split; [reflexivity | by apply Qle_bool_iff].
    + left. split; [reflexivity |].
      split; apply Qnot_le_lt; intros H%Qle_bool_iff; congruence.
Qed.

Lemma double_not_NaN q : double q <> NaN.
Proof.
  destruct (double_cases q) as [(-> & _) | [(-> & _) | (-> & _)]]; discriminate.
Qed.

Lemma double_Fin q r : double q = Fin r -> r = round64 q.
Proof.
  destruct (double_cases q) as [(-> & _) | [(-> & _) | (-> & _)]]; congruence.
Qed.

(** A double read again is the same double. *)
Lemma double_idem q r : double q = Fin r -> double r = Fin r.
Proof.
  intros H.
  destruct (double_cases q) as [(E & H1 & H2) | [(E & _) | (E & _)]];
    rewrite E in H; try discriminate H.
  injection H as <-.
  destruct (double_cases (round64 q)) as [(E' & _) | [(E' & H3) | (E' & H3)]];
    rewrite round64_idem in *; [exact E' | exfalso; lra | exfalso; lra].
Qed.

Lemma double_mono a b : a <= b -> le (double a) (double b) = true.
Proof.
  intros H%round64_mono.
  destruct (double_cases a) as [(-> & A1 & A2) | [(-> & A1) | (-> & A1)]];
    destruct (double_cases b) as [(-> & B1 & B2) | [(-> & B1) | (-> & B1)]];
    cbn [le]; try reflexivity; try (exfalso; lra).
  by apply Qle_bool_iff.
Qed.

Lemma double_Z z : (Z.abs z < 2 ^ 53)%Z -> double (inject_Z z) = Fin (inject_Z z).
Proof.
  intros H.
  destruct (double_cases (inject_Z z)) as [(E & _) | [(_ & A) | (_ & A)]].
  - rewrite E, round64_Z by lia. reflexivity.
  - exfalso. rewrite round64_Z in A by lia.
    assert (inject_Z z < inject_Z (2 ^ 53)) by (rewrite <- Zlt_Qlt; lia).
    assert (inject_Z (2 ^ 53) <= 2 ^ 1024) by (vm_compute; discriminate).
    lra.
  - exfalso. rewrite round64_Z in A by lia.
    assert (inject_Z (- 2 ^ 53) < inject_Z z) by (rewrite <- Zlt_Qlt; lia).
    assert (- 2 ^ 1024 <= inject_Z (- 2 ^ 53)) by (vm_compute; discriminate).
    lra.
Qed.

(** Integers below [2^53] are doubles, and so is what rounding
    gives. *)
Lemma representable_Z z : (Z.abs z < 2 ^ 53)%Z -> representable (inject_Z z).
Proof.
  intros H. unfold representable. rewrite Qred_inject_Z. by apply double_Z.
Qed.

Lemma representable_double q r : double q = Fin r -> representable r.
Proof.
  intros H. unfold representable. rewrite (double_idem _ _ H).
  f_equal. rewrite (double_Fin _ _ H).
  destruct (Q_dec q 0) as [[Hq | Hq] | Hq].
  - rewrite (round64_neg q Hq). unfold round_pos.
    rewrite Qred_opp. f_equal. symmetry. apply Qred_complete, Qred_correct.
  - rewrite (round64_pos q Hq). unfold round_pos.
    symmetry. apply Qred_complete, Qred_correct.
  - rewrite (round64_zero q Hq). reflexivity.
Qed.

(** Between two doubles, the rounded value of a rational is a double
    between them. *)
Lemma double_between (lo hi q : Q) :
  representable lo -> representable hi -> lo <= q <= hi ->
  double q = Fin (round64 q) /\ lo <= round64 q <= hi.
Proof.
  unfold representable. intros Hlo Hhi [H1 H2].
  pose proof (double_Fin _ _ Hlo) as Elo.
  pose proof (double_Fin _ _ Hhi) as Ehi.
  apply round64_mono in H1, H2. rewrite <- Elo in H1. rewrite <- Ehi in H2.
  destruct (double_cases lo) as [(_ & L1 & L2) | [(E & _) | (E & _)]];
    [| congruence | congruence].
  destruct (double_cases hi) as [(_ & U1 & U2) | [(E & _) | (E & _)]];
    [| congruence | congruence].
  rewrite <- Elo in L1. rewrite <- Ehi in U2.
  rewrite Qred_correct in H1, H2, L1, U2.
  split; [| by split].
  destruct (double_cases q) as [(E & _) | [(_ & A) | (_ & A)]];
    [exact E | exfalso; lra | exfalso; lra].
Qed.

Lemma Qle_bool_false (a b : Q) : Qle_bool a b = false <-> b < a.
Proof.
  rewrite <- not_true_iff_false, Qle_bool_iff.
  split; [apply Qnot_le_lt | apply Qlt_not_le].
Qed.

Lemma Qltb_iff (a b : Q) : Qltb a b = true <-> a < b.
Proof. unfold Qltb. rewrite negb_true_iff. apply Qle_bool_false. Qed.

(** [<] and [<=] on numbers do not run in a circle. *)
Lemma lt_le_le_cycle (a b c : number) :
  lt a b = true -> le b c = true -> le c a = true -> False.
Proof.
  destruct a as [x | | |], b as [y | | |], c as [z | | |]; cbn [lt le];
    try discriminate.
  rewrite Qltb_iff, !Qle_bool_iff. intros. lra.
Qed.

(** Adding a number that is not positive to a double does not give
    more. *)
Lemma add_nonpos (q : Q) (b : number) :
  le b (Fin 0) = true ->
  add (double q) b = NaN \/ le (add (double q) b) (double q) = true.
Proof.
  intros Hb.
  destruct b as [y | | |]; cbn [le] in Hb; try discriminate Hb.
  - apply Qle_bool_iff in Hb.
    destruct (double q) as [x | | |] eqn:E; cbn [add].
    + right. rewrite <- (double_idem _ _ E). apply double_mono. lra.
    + right. reflexivity.
    + right. reflexivity.
    + by destruct (double_not_NaN q).
  - destruct (double q) as [x | | |] eqn:E; cbn [add le]; auto.
Qed.

End Rounding.

(** ** The clip scheduler *)

Section Scheduler.
Import WebAudio Recorder AudioEngine.

(** [_playClip] either returns at once or starts exactly one source,
    through a gain node set to the clip's stored gain. *)
Lemma playClip_cases (r : ref) (c : clip) (o : JS.number) (s : state) :
  (_playClip r c o s = (s, []) /\
   (audioContext s = false \/ audioBuffer c = None))
  \/
  (exists (s' : state) (p : play),
      _playClip r c o s = (s', [p]) /\
      audioContext s = true /\ is_Some (audioBuffer c) /\
      audioContext s' = true /\ clipGains s' = clipGains s /\
      play_clip p = r /\ play_id p = id c /\ play_offset p = o /\
      play_gain p = getClipGain (id c) s).
Proof.
  unfold _playClip. destruct (audioContext s) eqn:Hctx; cbn [negb orb].
  - destruct (audioBuffer c) as [ab|] eqn:Hbuf.
    + rewrite bool_decide_true by eauto. cbn [negb].
      right. eexists _, _. split; [reflexivity|]. cbn.
      repeat split; eauto.
    + rewrite bool_decide_false by (intros [? ?]; discriminate). cbn [negb].
      left. auto.
  - left. auto.
Qed.

Lemma playClip_frame (r : ref) (c : clip) (o : JS.number) (s : state) :
  audioContext (fst (_playClip r c o s)) = audioContext s /\
  clipGains (fst (_playClip r c o s)) = clipGains s.
Proof.
  destruct (playClip_cases r c o s)
    as [[-> _]|(s' & p & -> & Hctx & _ & Hctx' & Hg & _)]; cbn; [done|].
  split; congruence.
Qed.

Lemma playClip_plays (r : ref) (c : clip) (o : JS.number) (s : state) (p : play) :
  p ∈ snd (_playClip r c o s) ->
  play_clip p = r /\ play_id p = id c /\ play_offset p = o /\
  play_gain p = getClipGain (id c) s.
Proof.
  destruct (playClip_cases r c o s)
    as [[-> _]|(s' & q & -> & _ & _ & _ & _ & H1 & H2 & H3 & H4)]; cbn.
  - intros H. by apply elem_of_nil in H.
  - intros ->%list_elem_of_singleton. done.
Qed.

Lemma id_of_Some (h : list clip) (r : ref) (c : clip) :
  h !! r = Some c -> id_of h r = Some (id c).
Proof. unfold id_of. by intros ->. Qed.

(** Among clips with distinct ids, the id names the clip object. *)
Lemma distinct_ids_inj (h : list clip) (l : list ref) (r r' : ref)
    (c c' : clip) :
  NoDup (omap (id_of h) l) -> r ∈ l -> r' ∈ l ->
  h !! r = Some c -> h !! r' = Some c' -> id c = id c' -> r = r'.
Proof.
  intros Hnd Hr Hr' Hc Hc' Hid.
  induction l as [|y l IH]; [by apply elem_of_nil in Hr|].
  assert (Hl : NoDup (omap (id_of h) l)).
  { cbn in Hnd. destruct (id_of h y); [|done]. by apply NoDup_cons in Hnd as []. }
  assert (Hhead : forall x cx cy,
             x ∈ l -> h !! x = Some cx -> h !! y = Some cy ->
             id cx = id cy -> False).
  { intros x cx cy Hx Hcx Hcy Hxy. cbn in Hnd.
    rewrite (id_of_Some _ _ _ Hcy) in Hnd.
    apply NoDup_cons in Hnd as [Hnotin _]. apply Hnotin.
    apply list_elem_of_omap. exists x. split; [done|].
    rewrite (id_of_Some _ _ _ Hcx). by f_equal. }
  apply elem_of_cons in Hr as [->|Hr]; apply elem_of_cons in Hr' as [->|Hr'].
  - done.
  - exfalso. by apply (Hhead r' c' c).
  - exfalso. by apply (Hhead r c c').
  - by apply IH.
Qed.

(** A clip that is not started leaves the invariant in place. *)
Lemma pass_inv_skip (h : list clip) (t : Q) (st0 : gset Z) (s0 : state)
    (l : list ref) (r : ref) (st : gset Z) (s : state) (ps : list play) :
  pass_inv h t st0 s0 l (st, s, ps) ->
  (forall c, h !! r = Some c -> in_window c t = true -> id c ∈ st) ->
  pass_inv h t st0 s0 (l ++ [r]) (st, s, ps).
Proof.
  intros (Hctx & Hgains & Hst & Hnd & Hps & Hall) Hskip.
  refine (conj Hctx (conj Hgains (conj _ (conj Hnd (conj _ _))))).
  - intros i. split.
    + intros Hi. apply Hst in Hi as [Hi|(r' & c' & Hr' & Hc')]; [by left|].
      right. exists r', c'. split; [apply elem_of_app; by left|done].
    + intros [Hi|(r' & c' & Hr' & Hc' & Hid & Hw)]; [apply Hst; by left|].
      apply elem_of_app in Hr' as [Hr'|Hr'].
      * apply Hst. right. by exists r', c'.
      * apply list_elem_of_singleton in Hr'. subst r' i. by apply Hskip.
  - intros p Hp. destruct (Hps p Hp) as (H1 & H2 & c & Hin & Hrest).
    refine (conj H1 (conj H2 _)). exists c.
    split; [apply elem_of_app; by left|done].
  - intros Hnd' Hctx0 r' c' Hr' Hc' Hbuf Hwin Hfresh.
    rewrite omap_app in Hnd'. apply NoDup_app in Hnd' as (Hnd1 & Hdisj & _).
    apply elem_of_app in Hr' as [Hr'|Hr'].
    + by apply (Hall Hnd1 Hctx0 r' c').
    + apply list_elem_of_singleton in Hr'. subst r'. exfalso.
      pose proof (Hskip c' Hc' Hwin) as Hin.
      apply Hst in Hin as [Hi|(r2 & c2 & Hr2 & Hc2 & Hid & _)]; [done|].
      apply (Hdisj (id c')).
      * apply list_elem_of_omap. exists r2. split; [done|].
        rewrite (id_of_Some _ _ _ Hc2). by f_equal.
      * cbn. rewrite (id_of_Some _ _ _ Hc'). by apply list_elem_of_singleton.
Qed.

Lemma pass_inv_fold (h : list clip) (t : Q) (st0 : gset Z) (s0 : state)
    (l : list ref) :
  pass_inv h t st0 s0 l (fold_left (check_clip h t) l (st0, s0, [])).
Proof.
  induction l as [|r l IH] using rev_ind.
  - cbn. refine (conj eq_refl (conj eq_refl (conj _ (conj _ (conj _ _))))).
    + intros i. split; [by left|].
      intros [Hi|(r & c & Hr & _)]; [done|]. by apply elem_of_nil in Hr.
    + constructor.
    + intros p Hp. by apply elem_of_nil in Hp.
    + intros _ _ r c Hr. by apply elem_of_nil in Hr.
  - rewrite fold_left_app. cbn [fold_left].
    destruct (fold_left (check_clip h t) l (st0, s0, [])) as [[st s] ps].
    unfold check_clip.
    destruct (h !! r) as [c|] eqn:Hr;
      [|by apply pass_inv_skip; [|rewrite Hr]].
    destruct (in_window c t && negb (bool_decide (id c ∈ st))) eqn:Hcond.
    2:{ apply pass_inv_skip; [done|]. rewrite Hr. intros c' [= <-] Hwin.
        rewrite Hwin in Hcond. cbn in Hcond.
        by apply negb_false_iff, bool_decide_eq_true in Hcond. }
    apply andb_true_iff in Hcond as [Hwin Hnew].
    apply negb_true_iff, bool_decide_eq_false in Hnew.
    destruct IH as (Hctx & Hgains & Hst & Hnd & Hps & Hall).
    assert (Hfresh0 : id c ∉ st0) by (intros Hin; apply Hnew, Hst; by left).
    assert (Hst' : forall i : Z,
               (i ∈ {[id c]} ∪ st) <->
               ((i ∈ st0) \/
                exists r' c', r' ∈ l ++ [r] /\ h !! r' = Some c' /\
                              id c' = i /\ in_window c' t = true)).
    { intros i. rewrite elem_of_union, elem_of_singleton, Hst. split.
      - intros [->|[Hi|(r' & c' & Hr' & Hc')]]; [|by left|].
        + right. exists r, c.
          split; [apply elem_of_app; right; by apply list_elem_of_singleton|done].
        + right. exists r', c'. split; [apply elem_of_app; by left|done].
      - intros [Hi|(r' & c' & Hr' & Hc' & Hid & Hw)]; [right; by left|].
        apply elem_of_app in Hr' as [Hr'|Hr'].
        + right. right. by exists r', c'.
        + apply list_elem_of_singleton in Hr'. subst r'. left. congruence. }
    assert (Hps' : forall p : play,
               p ∈ ps ->
               (play_id p ∉ st0) /\ (play_id p ∈ {[id c]} ∪ st) /\
               exists c', play_clip p ∈ l ++ [r] /\
                          h !! play_clip p = Some c' /\
                          play_id p = id c' /\ in_window c' t = true /\
                          play_offset p = offset_at c' t /\
                          play_gain p = getClipGain (id c') s0).
    { intros p Hp. destruct (Hps p Hp) as (H1 & H2 & c' & Hin & Hrest).
      refine (conj H1 (conj _ _)); [apply elem_of_union; by right|].
      exists c'. split; [apply elem_of_app; by left|done]. }
    destruct (playClip_cases r c (offset_at c t) s)
      as [[-> Hno]|(s' & p & -> & Hon & Hbuf & Hctx' & Hg' & Hp1 & Hp2 & Hp3 & Hp4)].
    + (* the engine has no context, or the clip no buffer *)
      rewrite app_nil_r.
      refine (conj Hctx (conj Hgains (conj Hst' (conj Hnd (conj Hps' _))))).
      intros Hnd' Hctx0 r' c' Hr' Hc' Hbuf Hw Hfr.
      rewrite omap_app in Hnd'. apply NoDup_app in Hnd' as (Hnd1 & _ & _).
      apply elem_of_app in Hr' as [Hr'|Hr']; [by apply (Hall Hnd1 Hctx0 r' c')|].
      apply list_elem_of_singleton in Hr'. subst r'.
      assert (c' = c) as -> by congruence.
      destruct Hno as [Hno|Hno]; [congruence|].
      rewrite Hno in Hbuf. by destruct Hbuf.
    + refine (conj _ (conj _ (conj Hst' (conj _ (conj _ _))))).
      * congruence.
      * congruence.
      * rewrite map_app. apply NoDup_app. split; [done|].
        split; [|apply NoDup_singleton].
        intros i Hi Hi'. apply list_elem_of_singleton in Hi'. subst i.
        apply list_elem_of_fmap in Hi as (q & Hq & Hq').
        destruct (Hps q Hq') as (_ & Hin & _). apply Hnew. congruence.
      * intros q Hq. apply elem_of_app in Hq as [Hq|Hq]; [by apply Hps'|].
        apply list_elem_of_singleton in Hq. subst q.
        rewrite Hp2. refine (conj Hfresh0 (conj _ _)).
        -- apply elem_of_union. left. by apply elem_of_singleton.
        -- exists c. rewrite Hp1, Hp3, Hp4.
           split; [apply elem_of_app; right; by apply list_elem_of_singleton|].
           unfold getClipGain. by rewrite Hgains.
      * intros Hnd' Hctx0 r' c' Hr' Hc' Hbuf' Hw Hfr.
        rewrite omap_app in Hnd'. apply NoDup_app in Hnd' as (Hnd1 & _ & _).
        apply elem_of_app in Hr' as [Hr'|Hr'].
        -- destruct (Hall Hnd1 Hctx0 r' c' Hr' Hc' Hbuf' Hw Hfr) as (q & Hq & Hq').
           exists q. split; [apply elem_of_app; by left|done].
        -- apply list_elem_of_singleton in Hr'. subst r'.
           exists p. split; [|done].
           apply elem_of_app. right. by apply list_elem_of_singleton.
Qed.

(** The window test, written out. *)
Lemma in_window_iff (c : clip) (t : Q) :
  in_window c t = true <->
  JS.le (JS.double (startTime c)) (JS.double t) = true /\
  JS.lt (JS.double t)
    (JSArith.add (JS.double (startTime c)) (JS.double (duration c))) = true.
Proof. unfold in_window. apply andb_true_iff. Qed.


(** The end of the window is the rounded sum and the offset the
    rounded difference.  For a clip of 0.7 s at 0.1 s, the double just
    below 0.8 lies between the start and the exact sum of the two
    doubles, yet outside the window; and 1.1 - 0.1 is the double 1. *)
Lemma window_end_is_rounded :
  let c := {| id := 1; startTime := 1 # 10; duration := 7 # 10;
              audioBuffer := None |} in
  let t := (7205759403792793 # 9007199254740992)%Q in
  JS.double t = JS.Fin t /\
  (JS.round64 (1 # 10) <= t)%Q /\
  (t < JS.round64 (1 # 10) + JS.round64 (7 # 10))%Q /\
  in_window c t = false /\
  offset_at c (11 # 10) = JS.Fin 1.
Proof. vm_compute. repeat split; try reflexivity; discriminate. Qed.

Lemma checkTime_inv (sc : scheduler) (h : list clip) (t : Q) (s : state) :
  pass_inv h t (started sc) s (sched_clips sc)
    (started (fst (fst (checkTime sc h t s))),
     snd (fst (checkTime sc h t s)), snd (checkTime sc h t s)) /\
  sched_clips (fst (fst (checkTime sc h t s))) = sched_clips sc.
Proof.
  unfold checkTime.
  pose proof (pass_inv_fold h t (started sc) s (sched_clips sc)) as H.
  by destruct (fold_left (check_clip h t) (sched_clips sc) (started sc, s, []))
    as [[st s'] ps].
Qed.

(** Over any run of ticks, no id is started twice, and none that the
    scheduler had already started before the run. *)
Lemma ticks_once (ts : list (list clip * state * Q)) :
  forall sc : scheduler,
    NoDup (map play_id (snd (ticks sc ts))) /\
    (forall p, p ∈ snd (ticks sc ts) -> play_id p ∉ started sc).
Proof.
  induction ts as [|[[h s] t] ts IH]; intros sc.
  - cbn. split; [constructor|]. intros p Hp. by apply elem_of_nil in Hp.
  - cbn [ticks].
    destruct (checkTime_inv sc h t s) as [Hinv _].
    destruct (checkTime sc h t s) as [[sc' s'] ps]. cbn [fst snd] in Hinv.
    destruct Hinv as (_ & _ & Hst & Hnd & Hps & _).
    destruct (IH sc') as [Hnd' Hfresh].
    destruct (ticks sc' ts) as [sc'' ps']. cbn [snd] in *. split.
    + rewrite map_app. apply NoDup_app. split; [done|]. split; [|done].
      intros i Hi Hi'.
      apply list_elem_of_fmap in Hi as (p & -> & Hp).
      apply list_elem_of_fmap in Hi' as (q & Hq & Hq').
      apply (Hfresh q Hq'). rewrite <- Hq. by apply Hps.
    + intros p Hp. apply elem_of_app in Hp as [Hp|Hp]; [by apply Hps|].
      intros Hin. apply (Hfresh p Hp). apply Hst. by left.
Qed.

(** One tick starts exactly the clips that are in their window and
    not yet in the set, each from [currentTime - startTime] at its
    stored gain. *)
Lemma checkTime_exact (sc : scheduler) (h : list clip) (t : Q) (s : state)
    (r : ref) (c : clip) :
  audioContext s = true ->
  NoDup (omap (id_of h) (sched_clips sc)) ->
  r ∈ sched_clips sc -> h !! r = Some c -> is_Some (audioBuffer c) ->
  ((exists p, p ∈ snd (checkTime sc h t s) /\ play_clip p = r) <->
   (in_window c t = true /\ id c ∉ started sc)) /\
  (forall p, p ∈ snd (checkTime sc h t s) -> play_clip p = r ->
             play_id p = id c /\
             play_offset p = offset_at c t /\
             play_gain p = getClipGain (id c) s) /\
  ((id c ∈ started (fst (fst (checkTime sc h t s)))) <->
   ((id c ∈ started sc) \/ in_window c t = true)).
Proof.
  intros Hctx Hnd Hr Hc Hbuf.
  destruct (checkTime_inv sc h t s) as [Hinv _].
  destruct (checkTime sc h t s) as [[sc' s'] ps]. cbn [fst snd] in *.
  destruct Hinv as (_ & _ & Hst & _ & Hps & Hall).
  split; [|split].
  - split.
    + intros (p & Hp & Hpr).
      destruct (Hps p Hp) as (Hfresh & _ & c' & _ & Hc' & Hid & Hw & _).
      rewrite Hpr in Hc'. assert (c' = c) as -> by congruence.
      rewrite <- Hid. done.
    + intros (Hw & Hfresh).
      by apply (Hall Hnd Hctx r c).
  - intros p Hp Hpr.
    destruct (Hps p Hp) as (_ & _ & c' & _ & Hc' & Hid & _ & Ho & Hg).
    rewrite Hpr in Hc'. by assert (c' = c) as -> by congruence.
  - rewrite Hst. split.
    + intros [Hi|(r' & c' & Hr' & Hc' & Hid & Hw)]; [by left|].
      right.
      assert (r' = r) as -> by (by apply (distinct_ids_inj h (sched_clips sc) r' r c' c)).
      by assert (c' = c) as -> by congruence.
    + intros [Hi|Hw]; [by left|]. right. by exists r, c.
Qed.

End Scheduler.

(** ** Claims about the overlay scheduler *)



(** ** Claims about clip gain *)

Section Gain.
Import Recorder AudioEngine.

Lemma update_first_shape (i : Z) (g : Q) (l : list activeSource) :
  map source (update_first i g l) = map source l /\
  map clipId (update_first i g l) = map clipId l.
Proof.
  induction l as [|a l [IH1 IH2]]; [done|]. cbn [update_first].
  destruct (bool_decide (clipId a = i)); cbn; [done|].
  by rewrite IH1, IH2.
Qed.

Lemma update_first_hit (i : Z) (g : Q) (l : list activeSource) :
  forall (k : nat) (a : activeSource),
    l !! k = Some a -> clipId a = i ->
    (forall k' a', (k' < k)%nat -> l !! k' = Some a' -> clipId a' <> i) ->
    update_first i g l !! k = Some (set_gainValue g a).
Proof.
  induction l as [|b l IH]; intros k a Hk Ha Hfirst; [done|].
  cbn [update_first]. destruct k as [|k].
  - cbn in Hk. injection Hk as ->. by rewrite bool_decide_true.
  - rewrite bool_decide_false by (apply (Hfirst 0%nat b); [lia|done]).
    cbn. apply IH; [done..|].
    intros k' a' Hlt Hk'. apply (Hfirst (S k') a'); [lia|done].
Qed.

Lemma update_first_miss (i : Z) (g : Q) (l : list activeSource) :
  forall (k : nat) (a : activeSource),
    l !! k = Some a ->
    (clipId a <> i \/
     exists k' a', (k' < k)%nat /\ l !! k' = Some a' /\ clipId a' = i) ->
    update_first i g l !! k = Some a.
Proof.
  induction l as [|b l IH]; intros k a Hk Hwhy; [done|].
  cbn [update_first]. destruct (decide (clipId b = i)) as [Hb|Hb].
  - rewrite bool_decide_true by done. destruct k as [|k]; [|done].
    cbn in Hk. injection Hk as ->.
    destruct Hwhy as [Hne|(k' & _ & Hlt & _)]; [done|lia].
  - rewrite bool_decide_false by done. destruct k as [|k]; [done|].
    cbn. apply IH; [done|].
    destruct Hwhy as [Hne|(k' & a' & Hlt & Hk' & Ha')]; [by left|].
    right. destruct k' as [|k'].
    + cbn in Hk'. congruence.
    + exists k', a'. split; [lia|done].
Qed.

Lemma clamp01_id (g : Q) : (0 <= g <= 1)%Q -> (Spec.clamp01 g == g)%Q.
Proof.
  intros [H0 H1]. unfold Spec.clamp01.
  destruct (Qle_bool g 0) eqn:E0.
  - apply Qle_bool_iff in E0. by apply Qle_antisym.
  - destruct (Qle_bool 1 g) eqn:E1; [|reflexivity].
    apply Qle_bool_iff in E1. by apply Qle_antisym.
Qed.

Lemma playClipsAtTime_gains (h : list clip) (cs : list ref) (t : Q)
    (s : state) :
  clipGains (fst (playClipsAtTime h cs t s)) = clipGains s.
Proof.
  unfold playClipsAtTime.
  change (clipGains s) with (clipGains (fst (stopAllClips s, @nil play))).
  generalize (stopAllClips s, @nil play).
  induction cs as [|r cs IH]; intros acc; [done|].
  cbn [fold_left]. rewrite IH.
  destruct (h !! r) as [c|]; [|done].
  destruct (in_window c t); [|done].
  pose proof (playClip_frame r c (offset_at c t) (fst acc)) as [_ Hg].
  by destruct (_playClip r c (offset_at c t) (fst acc)).
Qed.

(** Only [setClipVolume(i, _)] touches the gain stored for [i]. *)
Lemma step_gain (s : System.state) (c : System.call) (i : Z) :
  System.is_setClipVolume i c = false ->
  clipGains (System.eng (System.step s c)) !! i
  = clipGains (System.eng s) !! i.
Proof.
  destruct c; cbn; try done.
  - intros _. by rewrite playClipsAtTime_gains.
  - intros _. destruct (checkTime_inv sc (heap (System.rec s)) t (System.eng s))
      as [(_ & Hg & _) _].
    by rewrite Hg.
  - intros Hne%bool_decide_eq_false. by rewrite lookup_insert_ne.
  - intros _. unfold setMasterVolume. by destruct (audioContext (System.eng s)).
Qed.

Lemma run_gain (cs : list System.call) (i : Z) :
  forallb (fun c => negb (System.is_setClipVolume i c)) cs = true ->
  forall s : System.state,
    clipGains (System.eng (System.run cs s)) !! i
    = clipGains (System.eng s) !! i.
Proof.
  unfold System.run.
  induction cs as [|c cs IH]; intros Hcs s; [done|].
  cbn in Hcs. apply andb_true_iff in Hcs as [Hc Hcs].
  cbn [fold_left]. rewrite IH by done.
  apply step_gain. by apply negb_true_iff.
Qed.

Lemma deleteClip_unlisted (i : Z) (r : Recorder.state) :
  i ∉ omap (id_of (heap (deleteClip i r))) (getAllClips (deleteClip i r)).
Proof.
  unfold deleteClip, getAllClips. cbn.
  intros (x & Hx & Hid)%list_elem_of_omap.
  by apply list_elem_of_filter in Hx as [Hne _].
Qed.

End Gain.

(** C5, as written, fails: [setClipVolume] stores the value it is
    given.  With clip 1 sounding, [setClipVolume(1, 1.5)] leaves 1.5
    both in [clipGains] and on the live gain node, not 1. *)
Lemma setClipVolume_does_not_clamp :
  let s' := AudioEngine.setClipVolume 1 (3 # 2) Spec.sounding in
  AudioEngine.getClipGain 1 s' = 3 # 2 /\
  map AudioEngine.gainValue (AudioEngine.activeClipSources s') = [3 # 2] /\
  Spec.clamp01 (3 # 2) = 1%Q /\
  ~ Spec.setGain_clamps.
Proof.
  split; [reflexivity|]. split; [reflexivity|]. split; [reflexivity|].
  intros H. destruct (H Spec.sounding 1 (3 # 2)) as [Hstored _].
  vm_compute in Hstored. discriminate.
Qed.

(** C5, amended.  [setClipVolume(id, g)] stores [g] itself as the
    gain of [id] (which is [g] clamped to [[0,1]] whenever [g] lies in
    that range) and leaves every other id's gain alone; the list of
    active sources keeps its sources and ids, so nothing is restarted;
    the first active source of [id], if there is one, gets [g] as its
    live gain and all other active sources keep theirs. *)
Theorem setClipVolume_stores_and_updates_live
    (s : AudioEngine.state) (i : Z) (g : Q) :
  let s' := AudioEngine.setClipVolume i g s in
  AudioEngine.clipGains s' !! i = Some g /\
  AudioEngine.getClipGain i s' = g /\
  (forall j : Z, j <> i ->
     AudioEngine.getClipGain j s' = AudioEngine.getClipGain j s) /\
  map AudioEngine.source (AudioEngine.activeClipSources s')
  = map AudioEngine.source (AudioEngine.activeClipSources s) /\
  map AudioEngine.clipId (AudioEngine.activeClipSources s')
  = map AudioEngine.clipId (AudioEngine.activeClipSources s) /\
  AudioEngine.nodes s' = AudioEngine.nodes s /\
  (forall (k : nat) (a : AudioEngine.activeSource),
     AudioEngine.activeClipSources s !! k = Some a ->
     AudioEngine.clipId a = i ->
     (forall k' a', (k' < k)%nat ->
        AudioEngine.activeClipSources s !! k' = Some a' ->
        AudioEngine.clipId a' <> i) ->
     AudioEngine.activeClipSources s' !! k
     = Some {| AudioEngine.source := AudioEngine.source a;
               AudioEngine.gainValue := g;
               AudioEngine.clipId := AudioEngine.clipId a |}) /\
  (forall (k : nat) (a : AudioEngine.activeSource),
     AudioEngine.activeClipSources s !! k = Some a ->
     (AudioEngine.clipId a <> i \/
      exists k' a', (k' < k)%nat /\
        AudioEngine.activeClipSources s !! k' = Some a' /\
        AudioEngine.clipId a' = i) ->
     AudioEngine.activeClipSources s' !! k = Some a) /\
  ((0 <= g <= 1)%Q -> (Spec.clamp01 g == g)%Q).
Proof.
  cbn zeta. unfold AudioEngine.setClipVolume, AudioEngine.getClipGain.
  cbn [AudioEngine.clipGains AudioEngine.activeClipSources AudioEngine.nodes].
  rewrite lookup_insert_eq.
  split; [done|]. split; [done|]. split.
  { intros j Hj. by rewrite lookup_insert_ne. }
  split; [apply update_first_shape|]. split; [apply update_first_shape|].
  split; [done|]. split; [apply update_first_hit|].
  split; [apply update_first_miss|apply clamp01_id].
Qed.

Lemma setClipVolume_stores_and_updates_live_witness :
  let s' := AudioEngine.setClipVolume 1 (1 # 2) Spec.sounding in
  let a := {| AudioEngine.source := 0%nat; AudioEngine.gainValue := 4 # 5;
              AudioEngine.clipId := 1 |} in
  AudioEngine.activeClipSources Spec.sounding !! 0%nat = Some a /\
  AudioEngine.clipId a = 1 /\
  (0 <= 1 # 2 <= 1)%Q /\
  AudioEngine.activeClipSources s' !! 0%nat
  = Some {| AudioEngine.source := 0%nat; AudioEngine.gainValue := 1 # 2;
            AudioEngine.clipId := 1 |} /\
  (Spec.clamp01 (1 # 2) == 1 # 2)%Q.
Proof.
  assert (H1 : AudioEngine.activeClipSources Spec.sounding !! 0%nat
               = Some {| AudioEngine.source := 0%nat;
                         AudioEngine.gainValue := 4 # 5;
                         AudioEngine.clipId := 1 |}) by reflexivity.
  assert (H2 : (0 <= 1 # 2 <= 1)%Q) by (split; vm_compute; discriminate).
  pose proof (setClipVolume_stores_and_updates_live Spec.sounding 1 (1 # 2))
    as (_ & _ & _ & _ & _ & _ & Hlive & _ & Hclamp).
  refine (conj H1 (conj eq_refl (conj H2 (conj _ (Hclamp H2))))).
  apply (Hlive 0%nat _ H1 eq_refl). intros k' a' Hlt. lia.
Defined.

(** C10.  As long as [setClipVolume] has not been called for an id,
    whatever else has been called (the id may never have named a clip,
    or name one that was deleted), [getClipGain] answers 0.8 for it,
    and [_playClip], given an audio context and a clip of that id
    with a buffer, starts exactly one source for it, through a gain
    node set to 0.8 that it adds to the live sources; no source it
    starts for that id has another gain.  Once a gain has been stored
    for an id it stays until the next [setClipVolume] for that id;
    [deleteClip] removes the clip from the store and leaves the stored
    gain behind. *)
Theorem default_gain_and_gain_survives_delete
    (cs : list System.call) (i : Z) :
  forallb (fun c => negb (System.is_setClipVolume i c)) cs = true ->
  (let s := System.run cs System.initial in
   AudioEngine.getClipGain i (System.eng s) = 4 # 5 /\
   (forall (r : Recorder.ref) (c : Recorder.clip) (o : JS.number)
           (p : AudioEngine.play),
      Recorder.id c = i ->
      p ∈ snd (AudioEngine._playClip r c o (System.eng s)) ->
      AudioEngine.play_gain p = 4 # 5) /\
   (forall (r : Recorder.ref) (c : Recorder.clip) (o : JS.number),
      Recorder.id c = i ->
      AudioEngine.audioContext (System.eng s) = true ->
      is_Some (Recorder.audioBuffer c) ->
      exists (e' : AudioEngine.state) (p : AudioEngine.play),
        AudioEngine._playClip r c o (System.eng s) = (e', [p]) /\
        AudioEngine.play_clip p = r /\ AudioEngine.play_id p = i /\
        AudioEngine.play_offset p = o /\
        AudioEngine.play_gain p = 4 # 5 /\
        AudioEngine.activeClipSources e'
        = AudioEngine.activeClipSources (System.eng s)
            ++ [{| AudioEngine.source := AudioEngine.play_source p;
                   AudioEngine.gainValue := 4 # 5;
                   AudioEngine.clipId := i |}]))
  /\
  (forall (s : System.state) (g : Q),
     let stored := System.step s (System.SetClipVolume i g) in
     AudioEngine.getClipGain i (System.eng (System.run cs stored)) = g /\
     let deleted := System.step stored (System.DeleteClip i) in
     (i ∉ System.listed_ids deleted) /\
     AudioEngine.getClipGain i (System.eng deleted) = g).
Proof.
  intros Hcs. split.
  - cbn zeta.
    assert (Hg : AudioEngine.getClipGain i
                   (System.eng (System.run cs System.initial)) = 4 # 5).
    { unfold AudioEngine.getClipGain. by rewrite (run_gain cs i Hcs). }
    split; [done|]. split.
    + intros r c o p Hid Hp.
      apply playClip_plays in Hp as (_ & _ & _ & ->). by rewrite Hid.
    + intros r c o Hid Hctx Hbuf.
      unfold AudioEngine._playClip. rewrite Hctx.
      rewrite bool_decide_true by done. cbn [negb orb].
      rewrite Hid, Hg. eexists _, _. split; [reflexivity|].
      cbn. done.
  - intros s g. cbn zeta. split; [|split].
    + unfold AudioEngine.getClipGain. rewrite (run_gain cs i Hcs).
      cbn. by rewrite lookup_insert_eq.
    + apply deleteClip_unlisted.
    + unfold AudioEngine.getClipGain. cbn. by rewrite lookup_insert_eq.
Qed.

Lemma default_gain_and_gain_survives_delete_witness :
  let cs := [System.Init; System.StartRecording true 2;
             System.DataAvailable 100; System.StopRecording;
             System.OnStop (Some Spec.three_seconds);
             System.CheckTime (AudioEngine.createClipScheduler [0%nat])
               (5 # 2);
             System.DeleteClip 1] in
  let s := System.run cs System.initial in
  let c := {| Recorder.id := 1; Recorder.startTime := 2;
              Recorder.duration := 3;
              Recorder.audioBuffer := Some Spec.three_seconds |} in
  forallb (fun c => negb (System.is_setClipVolume 1 c)) cs = true /\
  System.listed_ids s = [] /\
  AudioEngine.getClipGain 1 (System.eng s) = 4 # 5 /\
  (exists (e' : AudioEngine.state) (p : AudioEngine.play),
     AudioEngine._playClip 0%nat c (JS.Fin 0) (System.eng s) = (e', [p]) /\
     AudioEngine.play_id p = 1 /\ AudioEngine.play_gain p = 4 # 5) /\
  AudioEngine.getClipGain 1
    (System.eng
       (System.run cs
          (System.step System.initial (System.SetClipVolume 1 (1 # 2)))))
  = 1 # 2.
Proof.
  assert (H : forallb (fun c => negb (System.is_setClipVolume 1 c))
                [System.Init; System.StartRecording true 2;
                 System.DataAvailable 100; System.StopRecording;
                 System.OnStop (Some Spec.three_seconds);
                 System.CheckTime
                   (AudioEngine.createClipScheduler [0%nat]) (5 # 2);
                 System.DeleteClip 1] = true) by reflexivity.
  assert (Hbuf : is_Some (Some Spec.three_seconds)) by (eexists; reflexivity).
  destruct (proj2 (proj2 (proj1 (default_gain_and_gain_survives_delete _ 1 H)))
              0%nat
              {| Recorder.id := 1; Recorder.startTime := 2;
                 Recorder.duration := 3;
                 Recorder.audioBuffer := Some Spec.three_seconds |}
              (JS.Fin 0) eq_refl eq_refl Hbuf)
    as (e' & p & E & _ & Hid & _ & Hgain & _).
  refine (conj H (conj eq_refl (conj _ (conj _ _)))).
  - exact (proj1 (proj1 (default_gain_and_gain_survives_delete _ 1 H))).
  - exact (ex_intro _ e' (ex_intro _ p (conj E (conj Hid Hgain)))).
  - exact (proj1 (proj2 (default_gain_and_gain_survives_delete _ 1 H)
                    System.initial (1 # 2))).
Defined.

(** ** The clip store *)

Section Store.
Import WebAudio Recorder.

Lemma wf_initial : wf Recorder.initial.
Proof. repeat split; constructor. Qed.

Lemma wf_frame (r r' : Recorder.state) :
  heap r' = heap r -> clips r' = clips r ->
  nextClipId r' = nextClipId r -> wf r -> wf r'.
Proof. unfold wf. by intros -> -> ->. Qed.

Lemma stopRecording_frame (r : Recorder.state) :
  heap (stopRecording r) = heap r /\
  clips (stopRecording r) = clips r /\
  nextClipId (stopRecording r) = nextClipId r.
Proof. unfold stopRecording. by destruct (mediaRecorder r) as [[]|]. Qed.

Lemma requestMic_frame (granted : bool) (r : Recorder.state) :
  heap (fst (requestMic granted r)) = heap r /\
  clips (fst (requestMic granted r)) = clips r /\
  nextClipId (fst (requestMic granted r)) = nextClipId r.
Proof. unfold requestMic. by destruct granted. Qed.

Lemma releaseMic_frame (r : Recorder.state) :
  heap (releaseMic r) = heap r /\
  clips (releaseMic r) = clips r /\
  nextClipId (releaseMic r) = nextClipId r.
Proof. unfold releaseMic. by destruct (mediaStream r). Qed.

Lemma recorder_inactive_frame (r : Recorder.state) :
  heap (recorder_inactive r) = heap r /\
  clips (recorder_inactive r) = clips r /\
  nextClipId (recorder_inactive r) = nextClipId r.
Proof. unfold recorder_inactive. by destruct (mediaRecorder r) as [[]|]. Qed.

Lemma startRecording_frame (granted : bool) (t : Q) (r : Recorder.state) :
  heap (fst (startRecording granted t r)) = heap r /\
  clips (fst (startRecording granted t r)) = clips r /\
  nextClipId (fst (startRecording granted t r)) = nextClipId r.
Proof.
  unfold startRecording.
  destruct (isRecording r);
    [pose proof (stopRecording_frame r) as (H1 & H2 & H3)|];
    match goal with
    | |- context [if ?b then _ else _] => destruct b
    end; cbn; auto.
Qed.

Lemma ondataavailable_frame (size : Z) (r : Recorder.state) :
  heap (ondataavailable size r) = heap r /\
  clips (ondataavailable size r) = clips r /\
  nextClipId (ondataavailable size r) = nextClipId r.
Proof. unfold ondataavailable. by destruct (0 <? size). Qed.

(** Ids of clips already in the heap are not disturbed by a new clip
    object. *)
Lemma omap_id_of_app (h : list clip) (c : clip) (l : list ref) :
  Forall (fun x => (x < length h)%nat) l ->
  omap (id_of (h ++ [c])) l = omap (id_of h) l.
Proof.
  induction 1 as [|x l Hx _ IH]; [done|]. cbn.
  assert (id_of (h ++ [c]) x = id_of h x) as ->
    by (unfold id_of; by rewrite lookup_app_l).
  by rewrite IH.
Qed.

Lemma listed_below (r : Recorder.state) (i : Z) :
  wf r -> i ∈ omap (id_of (heap r)) (clips r) -> i < nextClipId r.
Proof.
  intros (_ & Hids & _) (x & _ & Hx)%list_elem_of_omap.
  unfold id_of in Hx. destruct (heap r !! x) as [c|] eqn:Hc; [|done].
  injection Hx as <-.
  exact (Forall_lookup_1 _ _ _ _ Hids Hc).
Qed.

(** What the creation of a clip does to the store. *)
Lemma resume_add (ab : AudioBuffer) (r : Recorder.state) :
  wf r ->
  let r' := fst (onstop_resume (Some ab) r) in
  wf r' /\
  snd (onstop_resume (Some ab) r) = Some (length (heap r)) /\
  id_of (heap r') (length (heap r)) = Some (nextClipId r) /\
  nextClipId r' = nextClipId r + 1 /\
  omap (id_of (heap r')) (clips r')
  = omap (id_of (heap r)) (clips r) ++ [nextClipId r].
Proof.
  intros Hwf. unfold onstop_resume. cbn.
  assert (Hnew : id_of (heap r ++ [{| id := nextClipId r;
                     startTime := recordStartTime r;
                     duration := buffer_duration ab;
                     audioBuffer := Some ab |}]) (length (heap r))
                 = Some (nextClipId r)).
  { unfold id_of. by rewrite list_lookup_middle. }
  assert (Hlist : omap (id_of (heap r ++ [{| id := nextClipId r;
                     startTime := recordStartTime r;
                     duration := buffer_duration ab;
                     audioBuffer := Some ab |}])) (clips r ++ [length (heap r)])
                  = omap (id_of (heap r)) (clips r) ++ [nextClipId r]).
  { destruct Hwf as (Hrefs & _ & _).
    rewrite omap_app, omap_id_of_app by done. cbn. by rewrite Hnew. }
  refine (conj _ (conj eq_refl (conj Hnew (conj eq_refl Hlist)))).
  pose proof Hwf as (Hrefs & Hids & Hnd).
  unfold wf. cbn [heap clips nextClipId]. rewrite Hlist.
  split; [|split].
  - apply Forall_app. split.
    + eapply Forall_impl; [exact Hrefs|]. intros x Hx. cbn in Hx.
      rewrite length_app. cbn. lia.
    + constructor; [|constructor]. rewrite length_app. cbn. lia.
  - apply Forall_app. split.
    + eapply Forall_impl; [exact Hids|]. intros c Hc. cbn in Hc. lia.
    + constructor; [cbn; lia|constructor].
  - apply NoDup_app. split; [done|].
    split; [|apply NoDup_singleton].
    intros i Hi ->%list_elem_of_singleton.
    pose proof (listed_below r _ Hwf Hi). lia.
Qed.

(** A rejected decode leaves the store alone. *)
Lemma resume_none (r : Recorder.state) :
  snd (onstop_resume None r) = None /\
  heap (fst (onstop_resume None r)) = heap r /\
  clips (fst (onstop_resume None r)) = clips r /\
  nextClipId (fst (onstop_resume None r)) = nextClipId r.
Proof. done. Qed.

Lemma deleteClip_wf (i : Z) (r : Recorder.state) :
  wf r -> wf (deleteClip i r).
Proof.
  intros (Hrefs & Hids & Hnd). unfold deleteClip. repeat split; cbn.
  - apply Forall_forall. intros x [_ Hx]%list_elem_of_filter.
    by apply (proj1 (Forall_forall _ _) Hrefs).
  - done.
  - clear Hrefs. induction (clips r) as [|x l IH]; [constructor|].
    rewrite filter_cons. cbn in Hnd.
    destruct (id_of (heap r) x) as [j|] eqn:Hx.
    + apply NoDup_cons in Hnd as [Hnotin Hnd].
      destruct (decide (Some j <> Some i)); [|by apply IH].
      cbn. rewrite Hx. apply NoDup_cons. split; [|by apply IH].
      intros (y & Hy & Hyj)%list_elem_of_omap. apply Hnotin.
      apply list_elem_of_omap. exists y. split; [|done].
      by apply list_elem_of_filter in Hy as [_ Hy].
    + destruct (decide (None <> Some i)); [|by apply IH].
      cbn. rewrite Hx. by apply IH.
Qed.

Lemma deleteClip_listed (i j : Z) (r : Recorder.state) :
  j ∈ omap (id_of (heap (deleteClip i r))) (clips (deleteClip i r)) ->
  j ∈ omap (id_of (heap r)) (clips r).
Proof.
  unfold deleteClip. cbn.
  intros (x & Hx & Hid)%list_elem_of_omap. apply list_elem_of_omap.
  exists x. split; [|done]. by apply list_elem_of_filter in Hx as [_ Hx].
Qed.

(** Moving a clip changes no id. *)
Lemma id_of_alter (t : Q) (x : ref) (h : list clip) (y : ref) :
  id_of (alter (set_startTime t) x h) y = id_of h y.
Proof.
  unfold id_of. rewrite list_lookup_alter.
  destruct (decide (x = y)) as [->|]; [|done]. by destruct (h !! y).
Qed.

Lemma moveClip_ids (i : Z) (t : Q) (r : Recorder.state) (l : list ref) :
  omap (id_of (heap (moveClip i t r))) l = omap (id_of (heap r)) l.
Proof.
  unfold moveClip. destruct (getClip i r) as [x|]; [|done]. cbn.
  induction l as [|y l IH]; [done|]. cbn. by rewrite id_of_alter, IH.
Qed.

Lemma moveClip_frame (i : Z) (t : Q) (r : Recorder.state) :
  clips (moveClip i t r) = clips r /\
  nextClipId (moveClip i t r) = nextClipId r /\
  length (heap (moveClip i t r)) = length (heap r).
Proof.
  unfold moveClip. destruct (getClip i r) as [x|]; [|done]. cbn.
  by rewrite length_alter.
Qed.

Lemma moveClip_wf (i : Z) (t : Q) (r : Recorder.state) :
  wf r -> wf (moveClip i t r).
Proof.
  intros (Hrefs & Hids & Hnd).
  pose proof (moveClip_frame i t r) as (Hc & Hn & Hl).
  unfold wf. rewrite Hc, Hn, Hl, moveClip_ids. repeat split; [done| |done].
  unfold moveClip. destruct (getClip i r) as [x|]; [|done]. cbn.
  apply Forall_alter; [done|]. by intros c _ Hc'.
Qed.

(** One call either hands out no id and lists nothing new, or hands
    out the counter's value, lists it last and advances the counter. *)
Lemma step_inv (s : System.state) (c : System.call) :
  wf (System.rec s) ->
  wf (System.rec (System.step s c)) /\
  ((System.new_ids s c = [] /\
    nextClipId (System.rec (System.step s c)) = nextClipId (System.rec s) /\
    forall i, i ∈ System.listed_ids (System.step s c) ->
              i ∈ System.listed_ids s)
   \/
   (System.new_ids s c = [nextClipId (System.rec s)] /\
    nextClipId (System.rec (System.step s c))
    = nextClipId (System.rec s) + 1 /\
    System.listed_ids (System.step s c)
    = System.listed_ids s ++ [nextClipId (System.rec s)])).
Proof.
  intros Hwf. unfold System.listed_ids, getAllClips.
  destruct c; unfold System.new_ids, System.completed;
    cbn [System.step System.on_rec System.on_eng System.rec];
    try (split; [done|left; done]).
  - pose proof (requestMic_frame granted (System.rec s)) as (H1 & H2 & H3).
    split; [by apply (wf_frame (System.rec s))|].
    left. by rewrite H1, H2, H3.
  - pose proof (releaseMic_frame (System.rec s)) as (H1 & H2 & H3).
    split; [by apply (wf_frame (System.rec s))|].
    left. by rewrite H1, H2, H3.
  - pose proof (recorder_inactive_frame (System.rec s)) as (H1 & H2 & H3).
    split; [by apply (wf_frame (System.rec s))|].
    left. by rewrite H1, H2, H3.
  - pose proof (startRecording_frame granted t (System.rec s))
      as (H1 & H2 & H3).
    split; [by apply (wf_frame (System.rec s))|].
    left. by rewrite H1, H2, H3.
  - pose proof (ondataavailable_frame size (System.rec s)) as (H1 & H2 & H3).
    split; [by apply (wf_frame (System.rec s))|].
    left. by rewrite H1, H2, H3.
  - pose proof (stopRecording_frame (System.rec s)) as (H1 & H2 & H3).
    split; [by apply (wf_frame (System.rec s))|].
    left. by rewrite H1, H2, H3.
  - unfold onstop.
    destruct (chunks (System.rec s)) as [|ch chs]; [split; [done|by left]|].
    destruct decoded as [ab|].
    + pose proof (resume_add ab (System.rec s) Hwf)
        as (Hwf' & H0 & H1 & H2 & H3).
      split; [done|]. right. by rewrite H0, H1, H2, H3.
    + pose proof (resume_none (System.rec s)) as (H0 & H1 & H2 & H3).
      split; [by apply (wf_frame (System.rec s))|].
      left. by rewrite H0, H1, H2, H3.
  - destruct decoded as [ab|].
    + pose proof (resume_add ab (System.rec s) Hwf)
        as (Hwf' & H0 & H1 & H2 & H3).
      split; [done|]. right. by rewrite H0, H1, H2, H3.
    + pose proof (resume_none (System.rec s)) as (H0 & H1 & H2 & H3).
      split; [by apply (wf_frame (System.rec s))|].
      left. by rewrite H0, H1, H2, H3.
  - split; [by apply deleteClip_wf|]. left.
    split; [done|]. split; [done|]. intros j. apply deleteClip_listed.
  - split; [by apply moveClip_wf|]. left.
    pose proof (moveClip_frame i newStart (System.rec s)) as (H1 & H2 & _).
    by rewrite moveClip_ids, H1, H2.
Qed.

(** The invariants of the store over any sequence of calls. *)
Lemma run_inv (cs : list System.call) :
  forall s : System.state,
    wf (System.rec s) ->
    wf (System.rec (System.run cs s)) /\
    nextClipId (System.rec s) <= nextClipId (System.rec (System.run cs s)) /\
    (forall i, i ∈ System.listed_ids (System.run cs s) ->
               i ∈ System.listed_ids s \/ i ∈ System.assigned cs s) /\
    StronglySorted Z.lt (System.assigned cs s) /\
    Forall (fun i => nextClipId (System.rec s) <= i
                     < nextClipId (System.rec (System.run cs s)))
      (System.assigned cs s).
Proof.
  induction cs as [|c cs IH]; intros s Hwf.
  - cbn. split; [done|]. split; [lia|]. split; [by left|].
    split; constructor.
  - destruct (step_inv s c Hwf) as [Hwf' Hstep].
    destruct (IH (System.step s c) Hwf') as (Hwf'' & Hle & Hin & Hsort & Hrange).
    unfold System.run in *. cbn [fold_left System.assigned].
    destruct Hstep as [(-> & Hn & Hsub)|(-> & Hn & Hlist)]; cbn [app].
    + rewrite Hn in *. split; [done|]. split; [done|].
      split; [|by split].
      intros i Hi. destruct (Hin i Hi) as [H|H]; [left; by apply Hsub|by right].
    + rewrite Hn in *. split; [done|]. split; [lia|]. split; [|split].
      * intros i Hi. destruct (Hin i Hi) as [H|H].
        -- rewrite Hlist in H. apply elem_of_app in H as [H|H]; [by left|].
           right. apply list_elem_of_singleton in H. subst i. by left.
        -- right. by right.
      * constructor; [done|].
        eapply Forall_impl; [exact Hrange|]. cbn. intros i Hi. lia.
      * constructor; [lia|].
        eapply Forall_impl; [exact Hrange|]. cbn. intros i Hi. lia.
Qed.

Lemma StronglySorted_lt_NoDup (l : list Z) :
  StronglySorted Z.lt l -> NoDup l.
Proof.
  induction 1 as [|x l _ IH Hx]; [constructor|].
  apply NoDup_cons. split; [|done].
  intros Hin. pose proof (proj1 (Forall_forall _ _) Hx x Hin). lia.
Qed.

Lemma listed_ids_length (s : System.state) :
  wf (System.rec s) ->
  length (System.listed_ids s) = length (getAllClips (System.rec s)).
Proof.
  intros (Hrefs & _ & _). unfold System.listed_ids, getAllClips.
  induction Hrefs as [|x l Hx _ IH]; [done|]. cbn.
  destruct (lookup_lt_is_Some_2 _ _ Hx) as [c Hc].
  rewrite (id_of_Some _ _ _ Hc). cbn. by rewrite IH.
Qed.

(** An edit leaves every clip object in place, with its id, duration
    and samples; only [moveClip] changes anything in it. *)
Lemma edit_object (s : System.state) (c : System.call) (r : ref)
    (c0 : clip) :
  System.is_edit c = true -> heap (System.rec s) !! r = Some c0 ->
  exists c1 : clip,
    heap (System.rec (System.step s c)) !! r = Some c1 /\
    id c1 = id c0 /\ duration c1 = duration c0 /\
    audioBuffer c1 = audioBuffer c0 /\
    (System.is_moveClip c = false -> c1 = c0).
Proof.
  intros Hedit Hr. destruct c; try discriminate Hedit; cbn.
  - by exists c0.
  - unfold moveClip. destruct (getClip i (System.rec s)) as [x|];
      [|by exists c0].
    cbn. rewrite list_lookup_alter.
    destruct (decide (x = r)) as [->|]; [|by exists c0].
    rewrite Hr. cbn. eexists. split; [done|]. by repeat split.
  - by exists c0.
Qed.

Lemma edits_object (edits : list System.call) :
  Forall (fun c => System.is_edit c = true) edits ->
  forall (s : System.state) (r : ref) (c0 : clip),
    heap (System.rec s) !! r = Some c0 ->
    exists c1 : clip,
      heap (System.rec (System.run edits s)) !! r = Some c1 /\
      id c1 = id c0 /\ duration c1 = duration c0 /\
      audioBuffer c1 = audioBuffer c0 /\
      (forallb (fun c => negb (System.is_moveClip c)) edits = true ->
       c1 = c0).
Proof.
  induction 1 as [|c edits Hc _ IH]; intros s r c0 Hr.
  - exists c0. by repeat split.
  - destruct (edit_object s c r c0 Hc Hr) as (c1 & Hr1 & H1 & H2 & H3 & H4).
    destruct (IH (System.step s c) r c1 Hr1) as (c2 & Hr2 & G1 & G2 & G3 & G4).
    exists c2. unfold System.run in *. cbn [fold_left].
    split; [done|]. split; [congruence|]. split; [congruence|].
    split; [congruence|]. cbn. intros [Hm Hms]%andb_true_iff.
    rewrite G4 by done. apply H4. by apply negb_true_iff.
Qed.

Lemma edits_heap_length (edits : list System.call) :
  Forall (fun c => System.is_edit c = true) edits ->
  forall s : System.state,
    length (heap (System.rec (System.run edits s)))
    = length (heap (System.rec s)).
Proof.
  unfold System.run.
  induction 1 as [|c edits Hc _ IH]; intros s; [done|].
  cbn [fold_left]. rewrite IH.
  destruct c; try discriminate Hc; cbn; try done.
  by destruct (moveClip_frame i newStart (System.rec s)) as (_ & _ & ->).
Qed.

(** [moveClip] writes the new start time into the clip object that
    [getClip] finds. *)
Lemma moveClip_object (i : Z) (t : Q) (s : Recorder.state) (r : ref)
    (c : clip) :
  getClip i s = Some r -> heap s !! r = Some c ->
  heap (moveClip i t s) !! r = Some (set_startTime (max0 t) c).
Proof.
  intros Hg Hr. unfold moveClip. rewrite Hg. cbn.
  by rewrite list_lookup_alter_eq, Hr.
Qed.

End Store.

(** ** Claims about the clip store *)

(** C6.  After any sequence of calls (captures, removals, moves, gain
    changes and all the rest), [getAllClips()] lists no id twice and
    only ids that an earlier successful capture handed out; the ids
    handed out are strictly increasing, so none is handed out twice,
    and whatever is handed out later (also after the clip of an id has
    been deleted) differs from all ids handed out before. *)
Theorem clip_ids_unique_and_never_reused (cs : list System.call) :
  let s := System.run cs System.initial in
  NoDup (System.listed_ids s) /\
  length (System.listed_ids s)
  = length (Recorder.getAllClips (System.rec s)) /\
  (forall i : Z,
     i ∈ System.listed_ids s -> i ∈ System.assigned cs System.initial) /\
  StronglySorted Z.lt (System.assigned cs System.initial) /\
  NoDup (System.assigned cs System.initial) /\
  (forall (more : list System.call) (i : Z),
     i ∈ System.assigned more s ->
     i ∉ System.assigned cs System.initial).
Proof.
  cbn zeta.
  destruct (run_inv cs System.initial wf_initial)
    as (Hwf & _ & Hin & Hsort & Hrange).
  split; [apply Hwf|]. split; [by apply listed_ids_length|]. split.
  { intros i Hi. destruct (Hin i Hi) as [H|H]; [|done].
    by apply elem_of_nil in H. }
  split; [done|]. split; [by apply StronglySorted_lt_NoDup|].
  intros more i Hi Hold.
  destruct (run_inv more _ Hwf) as (_ & _ & _ & _ & Hrange').
  pose proof (proj1 (Forall_forall _ _) Hrange' i Hi) as H1.
  pose proof (proj1 (Forall_forall _ _) Hrange i Hold) as H2.
  cbn beta in H1, H2. lia.
Qed.

(** C4, as written, fails: the array [getAllClips()] returns is a copy
    but its entries are the store's clip objects, and [moveClip]
    updates the object.  With the clip [{id: 1, start: 2}] in the
    store, a snapshot taken before [moveClip(1, 7)] shows start time 7
    afterwards. *)
Lemma snapshot_sees_moveClip :
  let s := Spec.store_one_clip in
  let snapshot := Recorder.getAllClips (System.rec s) in
  let s' := System.step s (System.MoveClip 1 7) in
  map (option_map Recorder.startTime) (System.observe s snapshot)
  = [Some 2%Q] /\
  map (option_map Recorder.startTime) (System.observe s' snapshot)
  = [Some 7%Q] /\
  ~ Spec.snapshot_isolated.
Proof.
  split; [reflexivity|]. split; [reflexivity|].
  intros H. specialize (H Spec.store_one_clip (System.MoveClip 1 7) eq_refl).
  vm_compute in H. discriminate.
Qed.

(** C4, amended.  A snapshot returned by [getAllClips()] is an array of
    its own: no later edit changes its length, its members or their
    order.  Through it the caller reads the store's clip objects:
    after any sequence of [deleteClip], [moveClip] and [setClipVolume]
    each entry still has the id, duration and samples it had, and also
    its start time if no [moveClip] was among the edits; a
    [moveClip(id, t)] writes [max(0, t)] into the clip object found
    for [id], which shows through every snapshot holding it. *)
Theorem snapshot_shares_clip_objects
    (s : System.state) (edits : list System.call) :
  Forall (fun c => System.is_edit c = true) edits ->
  let snapshot := Recorder.getAllClips (System.rec s) in
  let s' := System.run edits s in
  length (System.observe s' snapshot) = length snapshot /\
  (forall (k : nat) (r : Recorder.ref) (c : Recorder.clip),
     snapshot !! k = Some r ->
     System.observe s snapshot !! k = Some (Some c) ->
     exists c' : Recorder.clip,
       System.observe s' snapshot !! k = Some (Some c') /\
       Recorder.id c' = Recorder.id c /\
       Recorder.duration c' = Recorder.duration c /\
       Recorder.audioBuffer c' = Recorder.audioBuffer c /\
       (forallb (fun c => negb (System.is_moveClip c)) edits = true ->
        Recorder.startTime c' = Recorder.startTime c)) /\
  (forallb (fun c => negb (System.is_moveClip c)) edits = true ->
   System.observe s' snapshot = System.observe s snapshot) /\
  (forall (i : Z) (t : Q) (k : nat) (r : Recorder.ref) (c : Recorder.clip),
     Recorder.getClip i (System.rec s) = Some r ->
     snapshot !! k = Some r ->
     System.observe s snapshot !! k = Some (Some c) ->
     System.observe (System.step s (System.MoveClip i t)) snapshot !! k
     = Some (Some (Recorder.set_startTime (Recorder.max0 t) c))).
Proof.
  intros Hedits. cbn zeta. unfold System.observe.
  split; [by rewrite length_map|]. split; [|split].
  - intros k r c Hk Hobs.
    rewrite list_lookup_fmap, Hk in Hobs. cbn in Hobs.
    injection Hobs as Hr.
    destruct (edits_object edits Hedits s r c Hr)
      as (c' & Hr' & H1 & H2 & H3 & H4).
    exists c'. rewrite list_lookup_fmap, Hk. cbn. rewrite Hr'.
    repeat split; try done. intros Hm. by rewrite H4.
  - intros Hm. apply map_ext_in. intros r Hr.
    destruct (Recorder.heap (System.rec s) !! r) as [c|] eqn:Hc.
    + destruct (edits_object edits Hedits s r c Hc)
        as (c' & Hr' & _ & _ & _ & H4).
      by rewrite Hr', H4.
    + apply lookup_ge_None in Hc. apply lookup_ge_None.
      by rewrite edits_heap_length.
  - intros i t k r c Hg Hk Hobs.
    rewrite list_lookup_fmap, Hk in Hobs. cbn in Hobs.
    injection Hobs as Hr.
    rewrite list_lookup_fmap, Hk. cbn. f_equal.
    by apply moveClip_object.
Qed.

Lemma snapshot_shares_clip_objects_witness :
  let s := Spec.store_one_clip in
  let edits := [System.DeleteClip 1; System.SetClipVolume 1 (1 # 2)] in
  let snapshot := Recorder.getAllClips (System.rec s) in
  Forall (fun c => System.is_edit c = true) edits /\
  forallb (fun c => negb (System.is_moveClip c)) edits = true /\
  Recorder.getAllClips (System.rec (System.run edits s)) = [] /\
  System.observe (System.run edits s) snapshot
  = [Some {| Recorder.id := 1; Recorder.startTime := 2;
             Recorder.duration := 3;
             Recorder.audioBuffer := Some Spec.three_seconds |}].
Proof.
  assert (H1 : Forall (fun c => System.is_edit c = true)
                 [System.DeleteClip 1; System.SetClipVolume 1 (1 # 2)])
    by (repeat constructor).
  assert (H2 : forallb (fun c => negb (System.is_moveClip c))
                 [System.DeleteClip 1; System.SetClipVolume 1 (1 # 2)] = true)
    by reflexivity.
  refine (conj H1 (conj H2 (conj eq_refl _))).
  exact (proj1 (proj2 (proj2
           (snapshot_shares_clip_objects Spec.store_one_clip _ H1))) H2).
Defined.

(** ** Claims about capture and export *)

Section Capture.
Import WebAudio Recorder.

Lemma stopRecording_idle (s : Recorder.state) :
  isRecording (stopRecording s) = false /\
  mediaRecorder (stopRecording s) <> Some recording /\
  chunks (stopRecording s) = chunks s /\
  console (stopRecording s) = console s.
Proof.
  unfold stopRecording.
  destruct (mediaRecorder s) as [[]|] eqn:E; cbn; rewrite ?E;
    repeat split; congruence.
Qed.

Lemma startRecording_chunks (granted : bool) (t : Q) (s : Recorder.state) :
  snd (startRecording granted t s) = true ->
  chunks (fst (startRecording granted t s)) = [] /\
  isRecording (fst (startRecording granted t s)) = true.
Proof.
  unfold startRecording.
  by destruct (negb (mediaStream (if isRecording s then stopRecording s else s))
               && negb granted).
Qed.

Lemma no_chunks (sizes : list Z) :
  Forall (fun z => z <= 0) sizes ->
  forall s : System.state,
    chunks (System.rec s) = [] ->
    chunks (System.rec (System.run (map System.DataAvailable sizes) s)) = []
    /\ heap (System.rec (System.run (map System.DataAvailable sizes) s))
       = heap (System.rec s)
    /\ clips (System.rec (System.run (map System.DataAvailable sizes) s))
       = clips (System.rec s)
    /\ nextClipId (System.rec (System.run (map System.DataAvailable sizes) s))
       = nextClipId (System.rec s).
Proof.
  unfold System.run.
  induction 1 as [|z sizes Hz _ IH]; intros s Hs; [done|].
  cbn [map fold_left].
  assert (Hstate : System.step s (System.DataAvailable z) = s).
  { cbn. unfold System.on_rec, ondataavailable.
    rewrite (proj2 (Z.ltb_ge 0 z) Hz). by destruct s. }
  rewrite Hstate. by apply IH.
Qed.

End Capture.

(** C8.  A stop with no chunk accumulated leaves the recorder idle
    ([isRecording] false, the media recorder not recording) and the
    [onstop] handler then changes nothing: no clip, no id used, no
    callback.  So a whole capture that is stopped before any non-empty
    chunk arrived leaves the store as it was.  When chunks were
    accumulated and decoding fails, the handler logs "Failed to decode
    recorded audio:", inserts no clip, uses no id, hands no clip to
    the completion callback, and leaves the recorder idle. *)
Theorem capture_without_clip :
  (forall (s : Recorder.state) (decoded : option WebAudio.AudioBuffer),
     Recorder.chunks s = [] ->
     let s1 := Recorder.stopRecording s in
     Recorder.isRecording s1 = false /\
     Recorder.mediaRecorder s1 <> Some Recorder.recording /\
     Recorder.onstop decoded s1 = (s1, None) /\
     Recorder.clips s1 = Recorder.clips s /\
     Recorder.heap s1 = Recorder.heap s /\
     Recorder.nextClipId s1 = Recorder.nextClipId s)
  /\
  (forall (s0 : System.state) (granted : bool) (t : Q) (sizes : list Z)
          (decoded : option WebAudio.AudioBuffer),
     snd (Recorder.startRecording granted t (System.rec s0)) = true ->
     Forall (fun z => z <= 0) sizes ->
     let s :=
       System.run
         ([System.StartRecording granted t]
            ++ map System.DataAvailable sizes
            ++ [System.StopRecording; System.OnStop decoded]) s0 in
     Recorder.getAllClips (System.rec s)
     = Recorder.getAllClips (System.rec s0) /\
     Recorder.heap (System.rec s) = Recorder.heap (System.rec s0) /\
     Recorder.nextClipId (System.rec s)
     = Recorder.nextClipId (System.rec s0) /\
     Recorder.isRecording (System.rec s) = false)
  /\
  (forall s : Recorder.state,
     Recorder.chunks s <> [] ->
     let s1 := Recorder.stopRecording s in
     let s2 := fst (Recorder.onstop None s1) in
     snd (Recorder.onstop None s1) = None /\
     Recorder.console s2
     = Recorder.console s ++ ["Failed to decode recorded audio:"%string] /\
     Recorder.clips s2 = Recorder.clips s /\
     Recorder.heap s2 = Recorder.heap s /\
     Recorder.nextClipId s2 = Recorder.nextClipId s /\
     Recorder.isRecording s2 = false /\
     Recorder.mediaRecorder s2 <> Some Recorder.recording).
Proof.
  split; [|split].
  - intros s decoded Hch. cbn zeta.
    destruct (stopRecording_idle s) as (H1 & H2 & H3 & _).
    destruct (stopRecording_frame s) as (H4 & H5 & H6).
    refine (conj H1 (conj H2 (conj _ (conj H5 (conj H4 H6))))).
    unfold Recorder.onstop. by rewrite H3, Hch.
  - intros s0 granted t sizes decoded Hok Hsizes. cbn zeta.
    unfold System.run. rewrite !fold_left_app.
    change (fold_left System.step [System.StartRecording granted t] s0)
      with (System.step s0 (System.StartRecording granted t)).
    set (s1 := System.step s0 (System.StartRecording granted t)).
    destruct (startRecording_chunks granted t (System.rec s0) Hok) as [Hc0 _].
    destruct (startRecording_frame granted t (System.rec s0))
      as (Hh0 & Hl0 & Hn0).
    destruct (no_chunks sizes Hsizes s1 Hc0) as (Hc & Hh & Hl & Hn).
    unfold System.run in Hc, Hh, Hl, Hn.
    set (s2 := fold_left System.step (map System.DataAvailable sizes) s1) in *.
    change (System.rec
              (fold_left System.step
                 [System.StopRecording; System.OnStop decoded] s2))
      with (fst (Recorder.onstop decoded
                   (Recorder.stopRecording (System.rec s2)))).
    destruct (stopRecording_idle (System.rec s2)) as (H1 & H2 & H3 & _).
    destruct (stopRecording_frame (System.rec s2)) as (H4 & H5 & H6).
    assert (Hstop : Recorder.onstop decoded
                      (Recorder.stopRecording (System.rec s2))
                    = (Recorder.stopRecording (System.rec s2), None)).
    { unfold Recorder.onstop. by rewrite H3, Hc. }
    rewrite Hstop. cbn [fst]. unfold Recorder.getAllClips.
    rewrite H5, H4, H6, Hl, Hh, Hn. subst s1. cbn [System.rec System.step System.on_rec].
    by rewrite Hl0, Hh0, Hn0.
  - intros s Hch. cbn zeta.
    destruct (stopRecording_idle s) as (H1 & H2 & H3 & H3').
    destruct (stopRecording_frame s) as (H4 & H5 & H6).
    unfold Recorder.onstop. rewrite H3.
    destruct (Recorder.chunks s) as [|ch chs]; [done|].
    cbn -[Recorder.stopRecording].
    by rewrite H3', H4, H5, H6.
Qed.

Lemma capture_without_clip_witness :
  let s0 := Spec.store_one_clip in
  let s :=
    System.run
      ([System.StartRecording true 4]
         ++ map System.DataAvailable [0]
         ++ [System.StopRecording; System.OnStop (Some Spec.three_seconds)])
      s0 in
  snd (Recorder.startRecording true 4 (System.rec s0)) = true /\
  Forall (fun z => z <= 0) [0] /\
  Recorder.getAllClips (System.rec s) = Recorder.getAllClips (System.rec s0) /\
  Recorder.heap (System.rec s) = Recorder.heap (System.rec s0) /\
  Recorder.nextClipId (System.rec s) = Recorder.nextClipId (System.rec s0) /\
  Recorder.isRecording (System.rec s) = false.
Proof.
  assert (H1 : snd (Recorder.startRecording true 4
                      (System.rec Spec.store_one_clip)) = true)
    by reflexivity.
  assert (H2 : Forall (fun z => z <= 0) [0]) by (repeat constructor; lia).
  exact (conj H1 (conj H2
           (proj1 (proj2 capture_without_clip) Spec.store_one_clip true
              4%Q [0] (Some Spec.three_seconds) H1 H2))).
Defined.

(** C7.  With no recorded clip, the recordings export does nothing but
    tell the user "No recordings to export.": it renders nothing and
    downloads no file, silent or otherwise. *)
Theorem export_without_recordings
    (newOfflineAudioContext : nat -> JS.number -> JS.number -> bool)
    (start : Exporter.scheduledSource -> bool)
    (startRendering :
       nat -> JS.number -> JS.number -> list Exporter.scheduledSource ->
       option WebAudio.AudioBuffer)
    (onProgress : bool) (rec : Recorder.state) (eng : AudioEngine.state)
    (videoDuration : JS.number) :
  Recorder.hasRecordings rec = false ->
  Recorder.getAllClips rec = [] /\
  Exporter.downloadRecordedAudio newOfflineAudioContext start startRendering
    onProgress rec eng videoDuration
  = [Exporter.Alert "No recordings to export."] /\
  forall (bytes : list Z) (mime filename : string),
    Exporter.Download bytes mime filename
    ∉ Exporter.downloadRecordedAudio newOfflineAudioContext start
        startRendering onProgress rec eng videoDuration.
Proof.
  unfold Recorder.hasRecordings, Exporter.downloadRecordedAudio,
    Recorder.getAllClips.
  intros Hempty%negb_false_iff. rewrite Hempty.
  split; [|split; [done|]].
  - apply Nat.eqb_eq in Hempty. by destruct (Recorder.clips rec).
  - intros bytes mime filename Hin.
    apply list_elem_of_singleton in Hin. discriminate.
Qed.

Lemma export_without_recordings_witness :
  Recorder.hasRecordings Recorder.initial = false /\
  Exporter.downloadRecordedAudio (fun _ _ _ => true) (fun _ => true)
    (fun _ _ _ _ => Some Spec.three_seconds) true
    Recorder.initial AudioEngine.initial (JS.of_Z 10)
  = [Exporter.Alert "No recordings to export."].
Proof.
  assert (H : Recorder.hasRecordings Recorder.initial = false)
    by reflexivity.
  exact (conj H (proj1 (proj2
           (export_without_recordings (fun _ _ _ => true) (fun _ => true)
              (fun _ _ _ _ => Some Spec.three_seconds)
              true Recorder.initial AudioEngine.initial (JS.of_Z 10) H)))).
Defined.

(** ** Claims about the scheduler and later edits *)

Section Refetch.
Import WebAudio Recorder AudioEngine.

Lemma edits_ids (edits : list System.call) (l : list ref) :
  Forall (fun c => System.is_edit c = true) edits ->
  forall s : System.state,
    omap (id_of (heap (System.rec (System.run edits s)))) l
    = omap (id_of (heap (System.rec s))) l.
Proof.
  unfold System.run.
  induction 1 as [|c edits Hc _ IH]; intros s; [done|].
  cbn [fold_left]. rewrite IH.
  destruct c; try discriminate Hc; cbn; try done.
  apply moveClip_ids.
Qed.

(** [checkTime] never changes the array the scheduler was given. *)
Lemma checkTime_clips (sc : scheduler) (h : list clip) (t : Q) (s : state) :
  sched_clips (fst (fst (checkTime sc h t s))) = sched_clips sc.
Proof. apply checkTime_inv. Qed.

(** [_restartClipPlayback] leaves either no scheduler or one made from
    the clips the recorder lists now. *)
Lemma restart_scheduler (a : App.state) :
  let a' := fst (App._restartClipPlayback a) in
  App.recorder a' = App.recorder a /\
  match App.clipScheduler a' with
  | Some sc => sched_clips sc = getAllClips (App.recorder a')
  | None => App.playing a' && hasRecordings (App.recorder a') = false
  end.
Proof.
  unfold App._restartClipPlayback.
  destruct (App.playing a && hasRecordings (App.recorder a)) eqn:Hcond;
    [|done].
  pose proof (checkTime_clips
                (createClipScheduler (getAllClips (App.recorder a)))
                (heap (App.recorder a)) (App.videoTime a)
                (stopAllClips (App.engine a))) as Hc.
  by destruct (checkTime _ _ _ _) as [[sc' e2] ps].
Qed.

Lemma restart_current (a : App.state) :
  App.scheduler_current (fst (App._restartClipPlayback a)).
Proof.
  destruct (restart_scheduler a) as [_ H]. unfold App.scheduler_current.
  by destruct (App.clipScheduler _).
Qed.

(** A handler that leaves the recorder's array and the scheduler
    alone keeps the scheduler current. *)
Lemma current_frame (a a' : App.state) :
  clips (App.recorder a') = clips (App.recorder a) ->
  App.clipScheduler a' = App.clipScheduler a ->
  App.scheduler_current a -> App.scheduler_current a'.
Proof.
  unfold App.scheduler_current, getAllClips. by intros -> ->.
Qed.

Lemma completion_current (out : Recorder.state * option ref)
    (a : App.state) :
  (snd out = None -> clips (fst out) = clips (App.recorder a)) ->
  (forall r, snd out = Some r -> is_Some (heap (fst out) !! r)) ->
  App.scheduler_current a ->
  App.scheduler_current (fst (App.completion out a)).
Proof.
  intros Hnone Hsome Hcur. unfold App.completion.
  destruct (snd out) as [r|].
  - destruct (Hsome r eq_refl) as [c ->]. apply restart_current.
  - by apply (current_frame a); [apply Hnone|..].
Qed.

Lemma step_current (a : App.state) (e : App.event) :
  App.scheduler_current a -> App.scheduler_current (fst (App.step a e)).
Proof.
  intros Hcur. destruct e; cbn [App.step fst].
  - by apply (current_frame a).
  - unfold App.onTimeUpdate. cbn [App.clipScheduler App.with_videoTime].
    destruct (App.clipScheduler a) as [sc|] eqn:Hsc.
    + pose proof (checkTime_clips sc (heap (App.recorder a)) currentTime
                    (App.engine a)) as Hc.
      cbn [App.recorder App.engine].
      destruct (checkTime _ _ _ _) as [[sc' e'] ps].
      unfold App.scheduler_current in *. rewrite Hsc in Hcur. cbn in *.
      congruence.
    + apply (current_frame a); [done| |done]. cbn. by rewrite Hsc.
  - unfold App.onSeek. destruct (App.isRecordingMode a); [done|].
    apply restart_current.
  - apply restart_current.
  - unfold App._togglePlay. destruct (App.playing a);
      [by apply (current_frame a)|apply restart_current].
  - unfold App.onEnded, App._finishRecording. cbn.
    destruct (App.isRecordingMode a); apply (current_frame a); try done.
    cbn. apply stopRecording_frame.
  - unfold App.onRecordClick. destruct (App.isRecordingMode a); [done|].
    set (s2 := if App.playing _ then _ else _).
    assert (H2 : clips (App.recorder s2) = clips (App.recorder a)
                 /\ App.clipScheduler s2 = App.clipScheduler a).
    { unfold s2. cbn. by destruct (App.playing a). }
    destruct H2 as [H2 H3].
    pose proof (startRecording_frame granted (App.videoTime s2)
                  (App.recorder s2)) as (_ & Hc & _).
    destruct (startRecording _ _ _) as [r ok]. cbn [fst] in Hc.
    destruct ok; apply (current_frame a); cbn; congruence.
  - unfold App._finishRecording.
    destruct (App.isRecordingMode a); [|done].
    apply (current_frame a); [|done|done]. cbn. apply stopRecording_frame.
  - apply (current_frame a); [|done|done]. cbn.
    apply ondataavailable_frame.
  - apply completion_current; [| |done]; unfold onstop;
      destruct (chunks (App.recorder a)); try done;
      destruct decoded; cbn; try done.
    intros r [= <-]. rewrite list_lookup_middle by done. eauto.
  - apply completion_current; [| |done]; destruct decoded; cbn; try done.
    intros r [= <-]. rewrite list_lookup_middle by done. eauto.
  - apply restart_current.
  - apply restart_current.
  - by apply (current_frame a).
Qed.

Lemma run_current (es : list App.event) :
  forall a : App.state,
    App.scheduler_current a -> App.scheduler_current (App.run es a).
Proof.
  unfold App.run. induction es as [|e es IH]; intros a Ha; [done|].
  cbn [fold_left]. apply IH. by apply step_current.
Qed.

End Refetch.

(** C9, as written, fails: a scheduler keeps the array of clips it was
    created with.  With the clip [{id: 1, start: 2, duration: 3}] in
    the store and a scheduler made from it, after [deleteClip(1)] the
    store lists nothing, yet the scheduler's tick at 2.5 still starts
    clip 1. *)
Lemma tick_after_delete_still_plays :
  let s := Spec.store_one_clip in
  let sc :=
    AudioEngine.createClipScheduler (Recorder.getAllClips (System.rec s)) in
  let s' := System.run [System.DeleteClip 1] s in
  Recorder.getAllClips (System.rec s') = [] /\
  map AudioEngine.play_id
    (snd (AudioEngine.checkTime sc (Recorder.heap (System.rec s')) (5 # 2)
            (System.eng s')))
  = [1] /\
  ~ Spec.tick_refetches.
Proof.
  split; [reflexivity|]. split; [reflexivity|].
  intros H.
  specialize (H Spec.store_one_clip [System.DeleteClip 1] (5 # 2)%Q
                ltac:(repeat constructor)).
  vm_compute in H. discriminate.
Qed.

(** C9, amended.  A scheduler acts on the array of clips it was given
    at creation, which [checkTime] never changes: a clip of that array
    is started by a later tick exactly when the engine's window test
    ([currentTime >= startTime && currentTime < startTime + duration],
    in binary64) holds of the start time and duration its clip object
    has at the time of the tick, from the offset
    [currentTime - startTime] taken of that start time, and at the
    gain stored for it at that time, whether or not the clip is still
    in the store.  So a move or
    gain change made after creation is reflected in later ticks and a
    deletion is not.  The application makes up for this by replacing
    its scheduler after every delete, move and completed recording:
    whatever happens in it, the scheduler it ticks was made from the
    clips the recorder lists at that time. *)
Theorem tick_reads_captured_clips :
  (forall (s : System.state) (edits : list System.call) (t : Q)
          (r : Recorder.ref) (c' : Recorder.clip),
     wf (System.rec s) ->
     Forall (fun c => System.is_edit c = true) edits ->
     let sc :=
       AudioEngine.createClipScheduler
         (Recorder.getAllClips (System.rec s)) in
     let s' := System.run edits s in
     AudioEngine.audioContext (System.eng s') = true ->
     r ∈ Recorder.getAllClips (System.rec s) ->
     Recorder.heap (System.rec s') !! r = Some c' ->
     is_Some (Recorder.audioBuffer c') ->
     let result :=
       AudioEngine.checkTime sc (Recorder.heap (System.rec s')) t
         (System.eng s') in
     AudioEngine.sched_clips (fst (fst result))
     = Recorder.getAllClips (System.rec s) /\
     let startTime := JS.double (Recorder.startTime c') in
     let currentTime := JS.double t in
     let clipEnd :=
       JSArith.add startTime (JS.double (Recorder.duration c')) in
     ((exists p, p ∈ snd result /\ AudioEngine.play_clip p = r) <->
      (JS.le startTime currentTime = true /\
       JS.lt currentTime clipEnd = true)) /\
     (forall p, p ∈ snd result -> AudioEngine.play_clip p = r ->
                AudioEngine.play_offset p
                = JSArith.sub currentTime startTime /\
                AudioEngine.play_gain p
                = AudioEngine.getClipGain (Recorder.id c') (System.eng s')))
  /\
  (forall (s : Recorder.state) (i : Z) (newStart : Q) (r : Recorder.ref)
          (c : Recorder.clip),
     Recorder.getClip i s = Some r -> Recorder.heap s !! r = Some c ->
     Recorder.heap (Recorder.moveClip i newStart s) !! r
     = Some (Recorder.set_startTime (Recorder.max0 newStart) c))
  /\
  (forall (e : AudioEngine.state) (i : Z) (g : Q),
     AudioEngine.getClipGain i (AudioEngine.setClipVolume i g e) = g)
  /\
  (forall es : list App.event,
     let a := App.run es App.initial in
     match App.clipScheduler a with
     | Some sc =>
         AudioEngine.sched_clips sc = Recorder.getAllClips (App.recorder a)
     | None => True
     end).
Proof.
  split; [|split; [|split]].
  - intros s edits t r c' Hwf Hedits. cbn zeta. intros Hctx Hr Hc' Hbuf.
    split; [apply checkTime_clips|].
    assert (Hnd : NoDup (omap (Recorder.id_of
                                 (Recorder.heap
                                    (System.rec (System.run edits s))))
                           (Recorder.getAllClips (System.rec s)))).
    { rewrite edits_ids by done. apply Hwf. }
    destruct (checkTime_exact
                (AudioEngine.createClipScheduler
                   (Recorder.getAllClips (System.rec s)))
                _ t _ r c' Hctx Hnd Hr Hc' Hbuf) as (Hiff & Hplay & _).
    split.
    + rewrite Hiff, in_window_iff. cbn. split; [by intros (H1 & _)|].
      intros H. split; [done|]. set_solver.
    + intros p Hp Hpr. by destruct (Hplay p Hp Hpr) as (_ & Ho & Hg).
  - intros s i newStart r c. apply moveClip_object.
  - intros e i g. unfold AudioEngine.getClipGain, AudioEngine.setClipVolume.
    cbn. by rewrite lookup_insert_eq.
  - intros es. cbn zeta. by apply (run_current es App.initial).
Qed.

Lemma tick_reads_captured_clips_witness :
  let s := Spec.store_one_clip in
  let edits := [System.MoveClip 1 7; System.SetClipVolume 1 (1 # 2);
                System.DeleteClip 1] in
  let c' := {| Recorder.id := 1; Recorder.startTime := 7;
               Recorder.duration := 3;
               Recorder.audioBuffer := Some Spec.three_seconds |} in
  let sc :=
    AudioEngine.createClipScheduler (Recorder.getAllClips (System.rec s)) in
  let s' := System.run edits s in
  let result :=
    AudioEngine.checkTime sc (Recorder.heap (System.rec s')) 8
      (System.eng s') in
  wf (System.rec s) /\
  Forall (fun c => System.is_edit c = true) edits /\
  AudioEngine.audioContext (System.eng s') = true /\
  0%nat ∈ Recorder.getAllClips (System.rec s) /\
  Recorder.heap (System.rec s') !! 0%nat = Some c' /\
  is_Some (Recorder.audioBuffer c') /\
  Recorder.getAllClips (System.rec s') = [] /\
  (exists p, p ∈ snd result /\ AudioEngine.play_clip p = 0%nat /\
             AudioEngine.play_offset p
             = JSArith.sub (JS.double 8) (JS.double 7) /\
             AudioEngine.play_gain p = 1 # 2).
Proof.
  assert (H1 : wf (System.rec Spec.store_one_clip)).
  { split; [|split]; vm_compute.
    - repeat constructor.
    - repeat constructor.
    - apply NoDup_singleton. }
  assert (H2 : Forall (fun c => System.is_edit c = true)
                 [System.MoveClip 1 7; System.SetClipVolume 1 (1 # 2);
                  System.DeleteClip 1]) by (repeat constructor).
  assert (H3 : AudioEngine.audioContext
                 (System.eng
                    (System.run
                       [System.MoveClip 1 7; System.SetClipVolume 1 (1 # 2);
                        System.DeleteClip 1] Spec.store_one_clip)) = true)
    by reflexivity.
  assert (H4 : 0%nat ∈ Recorder.getAllClips (System.rec Spec.store_one_clip))
    by (vm_compute; apply list_elem_of_singleton; reflexivity).
  assert (H5 : Recorder.heap
                 (System.rec
                    (System.run
                       [System.MoveClip 1 7; System.SetClipVolume 1 (1 # 2);
                        System.DeleteClip 1] Spec.store_one_clip)) !! 0%nat
               = Some {| Recorder.id := 1; Recorder.startTime := 7;
                         Recorder.duration := 3;
                         Recorder.audioBuffer := Some Spec.three_seconds |})
    by reflexivity.
  assert (H6 : is_Some (Some Spec.three_seconds)) by (eexists; reflexivity).
  assert (H7 : JS.le (JS.double 7) (JS.double 8) = true /\
               JS.lt (JS.double 8) (JSArith.add (JS.double 7) (JS.double 3))
               = true) by (vm_compute; split; reflexivity).
  destruct (proj1 tick_reads_captured_clips Spec.store_one_clip _ 8%Q
              0%nat _ H1 H2 H3 H4 H5 H6) as (_ & Hiff & Hplay).
  destruct (proj2 Hiff H7) as (p & Hp & Hpr).
  destruct (Hplay p Hp Hpr) as (Ho & Hg).
  refine (conj H1 (conj H2 (conj H3 (conj H4 (conj H5 (conj H6
            (conj eq_refl _))))))).
  exact (ex_intro _ p (conj Hp (conj Hpr (conj Ho Hg)))).
Defined.

(** * Further properties of the code *)

(** ** The encoder: reading a file back, and its edge cases *)

Section EncoderEdges.
Import JS DataView WebAudio Exporter.

Lemma div_cross_mono (x y d1 d2 : Z) :
  0 <= x -> 0 < d1 -> 0 < d2 -> x * d2 <= y * d1 -> x / d1 <= y / d2.
Proof.
  intros Hx H1 H2 H.
  apply Z.div_le_lower_bound; [lia|].
  pose proof (Z.mul_div_le x d1 H1). nia.
Qed.

Lemma quot_neg (n d : Z) : n <= 0 -> 0 < d -> n ÷ d = - ((- n) / d).
Proof.
  intros Hn Hd. rewrite <- (Z.quot_div_nonneg (- n) d) by lia.
  rewrite Z.quot_opp_l by lia. lia.
Qed.

Lemma truncate_mono (a b : Q) : (a <= b)%Q -> truncate a <= truncate b.
Proof.
  unfold truncate, Qle. destruct a as [n1 d1], b as [n2 d2]; cbn [Qnum Qden].
  intros H.
  destruct (Z_lt_le_dec n1 0) as [Ha|Ha], (Z_lt_le_dec n2 0) as [Hb|Hb].
  - rewrite !quot_neg by lia.
    apply Z.opp_le_mono. rewrite !Z.opp_involutive.
    apply div_cross_mono; lia.
  - transitivity 0.
    + rewrite quot_neg by lia.
      pose proof (Z.div_pos (- n1) (Z.pos d1)). lia.
    + apply Z.quot_pos; lia.
  - exfalso. nia.
  - rewrite !Z.quot_div_nonneg by lia. apply div_cross_mono; lia.
Qed.

Lemma clamp_mono (a b : Q) : (a <= b)%Q -> (Spec.clamp a <= Spec.clamp b)%Q.
Proof.
  intros H. unfold Spec.clamp.
  destruct (Qle_bool a (-1)) eqn:E1, (Qle_bool b (-1)) eqn:E2,
    (Qle_bool 1 a) eqn:E3, (Qle_bool 1 b) eqn:E4;
    rewrite ?Qle_bool_iff in *;
    repeat match goal with
      | H : Qle_bool _ _ = false |- _ =>
          apply not_true_iff_false in H; rewrite Qle_bool_iff in H
      end; lra.
Qed.

Lemma scale_mono (a b : Q) :
  (a <= b)%Q ->
  ((if Qltb a 0 then a * 32768 else a * 32767)
   <= (if Qltb b 0 then b * 32768 else b * 32767))%Q.
Proof.
  intros H. unfold Qltb.
  destruct (Qle_bool 0 a) eqn:E1, (Qle_bool 0 b) eqn:E2; cbn [negb];
    rewrite ?Qle_bool_iff in *;
    repeat match goal with
      | H : Qle_bool _ _ = false |- _ =>
          apply not_true_iff_false in H; rewrite Qle_bool_iff in H
      end; lra.
Qed.

Lemma quantize_mono (a b : Q) :
  (a <= b)%Q -> ToInt16 (scaled (Fin a)) <= ToInt16 (scaled (Fin b)).
Proof.
  intros H. rewrite !quantize_code. unfold Spec.quantize.
  apply truncate_mono, scale_mono, clamp_mono, H.
Qed.

Lemma getUint_header_32 (off : nat) (x : Z) (file : list Z) :
  take 4 (drop off file) = Spec.uint32le x -> 0 <= x < 2 ^ 32 ->
  getUint 4 off file = x.
Proof. intros E Hx. unfold getUint. rewrite E. by apply uint32le_value. Qed.

Lemma getUint_header_16 (off : nat) (x : Z) (file : list Z) :
  take 2 (drop off file) = Spec.uint16le x -> 0 <= x < 2 ^ 16 ->
  getUint 2 off file = x.
Proof. intros E Hx. unfold getUint. rewrite E. by apply uint16le_value. Qed.

Lemma encoder_fails_only_without_channels (b : AudioBuffer) :
  audioBufferToWav b = None <-> numberOfChannels b = 0%nat.
Proof.
  rewrite audioBufferToWav_unfold.
  unfold numberOfChannels, getChannelData.
  destruct (channelData b) as [|l [|r rest]]; cbn [length].
  - split; [done|]. intros _. by rewrite decide_False by done.
  - rewrite decide_True by done. cbn [lookup list_lookup mbind option_bind].
    rewrite wav_of_spec. split; discriminate.
  - rewrite decide_False by done. cbn [lookup list_lookup mbind option_bind].
    rewrite wav_of_spec. split; discriminate.
Qed.

Lemma le_bytes_range (n : nat) (i : Z) :
  Forall (fun x => 0 <= x < 256) (le_bytes n i).
Proof.
  revert i. induction n as [|n IH]; intros i; cbn [le_bytes]; constructor.
  - apply Z.mod_pos_bound. lia.
  - apply IH.
Qed.

Lemma ascii_bytes_range (str : string) :
  Forall (fun x => 0 <= x < 256) (Spec.ascii_bytes str).
Proof.
  unfold Spec.ascii_bytes. apply Forall_fmap, Forall_forall. intros c _.
  cbn. pose proof (nat_of_ascii_small c). lia.
Qed.

Lemma samples_range (xs : list number) :
  Forall (fun x => 0 <= x < 256) (flat_map sample_bytes xs).
Proof.
  induction xs as [|x xs IH]; cbn [flat_map]; [constructor|].
  apply Forall_app. split; [apply le_bytes_range|exact IH].
Qed.

Lemma wav_of_range (c : nat) (rate : Q) (xs : list number) (file : list Z) :
  wav_of c rate xs = Some file ->
  Forall (fun x => 0 <= x < 256) file /\
  length file = (44 + 2 * length xs)%nat.
Proof.
  rewrite wav_of_spec. intros H. apply (inj Some) in H. subst file. split.
  - repeat (apply Forall_app; split);
      first [apply ascii_bytes_range | apply le_bytes_range
            | apply samples_range].
  - repeat rewrite ?length_app, ?length_le_bytes. rewrite length_samples.
    unfold Spec.ascii_bytes. rewrite !length_map. cbn. lia.
Qed.

End EncoderEdges.

(** X1.  A file the encoder makes from a buffer of one or two channels
    of [n] samples, at an integral rate [r], reads back as a canonical
    PCM WAV file: the four tags are in place and the little-endian
    fields give the RIFF size (the file's length minus 8), a 16-byte
    format chunk, format 1, the channel count, the rate, the byte rate
    [r*c*2], the block size [c*2], 16 bits per sample and the length of
    the data that follows, [n*c*2] bytes; provided these values fit
    their fields. *)
Theorem wav_header_reads_back (b : WebAudio.AudioBuffer) (n : nat) (r : Z) :
  let c := Z.of_nat (WebAudio.numberOfChannels b) in
  (c = 1 \/ c = 2) ->
  Forall (fun ch => length ch = n) (WebAudio.channelData b) ->
  WebAudio.sampleRate b = inject_Z r ->
  0 <= r -> r * c * 2 < 2 ^ 32 -> 36 + Z.of_nat n * c * 2 < 2 ^ 32 ->
  exists file : list Z,
    Exporter.audioBufferToWav b = Some file /\
    take 4 file = Spec.ascii_bytes "RIFF" /\
    DataView.getUint 4 4 file = Z.of_nat (length file) - 8 /\
    take 4 (drop 8 file) = Spec.ascii_bytes "WAVE" /\
    take 4 (drop 12 file) = Spec.ascii_bytes "fmt " /\
    DataView.getUint 4 16 file = 16 /\
    DataView.getUint 2 20 file = 1 /\
    DataView.getUint 2 22 file = c /\
    DataView.getUint 4 24 file = r /\
    DataView.getUint 4 28 file = r * c * 2 /\
    DataView.getUint 2 32 file = c * 2 /\
    DataView.getUint 2 34 file = 16 /\
    take 4 (drop 36 file) = Spec.ascii_bytes "data" /\
    DataView.getUint 4 40 file = Z.of_nat (length (drop 44 file)) /\
    Z.of_nat (length (drop 44 file)) = Z.of_nat n * c * 2.
Proof.
  intros c Hc Hall Hr Hr0 Hrate Hlen.
  assert (Hc' : (WebAudio.numberOfChannels b = 1
                 \/ WebAudio.numberOfChannels b = 2)%nat) by lia.
  rewrite (audioBufferToWav_layout b n r Hc' Hall Hr).
  fold c.
  set (data := flat_map sample_bytes _).
  assert (Hdata : Z.of_nat (length data) = Z.of_nat n * c * 2).
  { unfold data. rewrite length_samples, length_interleaved.
    fold (WebAudio.numberOfChannels b). lia. }
  eexists. split; [reflexivity|].
  assert (Hd : drop 44 (Spec.header c r (Z.of_nat n) ++ data) = data)
    by reflexivity.
  assert (Hl : Z.of_nat (length (Spec.header c r (Z.of_nat n) ++ data))
               = 44 + Z.of_nat n * c * 2).
  { rewrite length_app, length_header. lia. }
  rewrite Hd, Hl, Hdata.
  repeat
    (split;
     [first [ reflexivity
            | apply getUint_header_32; [reflexivity|lia]
            | apply getUint_header_16; [reflexivity|lia] ] |]).
  reflexivity.
Qed.

Lemma wav_header_reads_back_witness :
  exists file : list Z,
    Exporter.audioBufferToWav Spec.known_buffer = Some file /\
    take 4 file = Spec.ascii_bytes "RIFF" /\
    DataView.getUint 4 4 file = Z.of_nat (length file) - 8 /\
    take 4 (drop 8 file) = Spec.ascii_bytes "WAVE" /\
    take 4 (drop 12 file) = Spec.ascii_bytes "fmt " /\
    DataView.getUint 4 16 file = 16 /\
    DataView.getUint 2 20 file = 1 /\
    DataView.getUint 2 22 file = 1 /\
    DataView.getUint 4 24 file = 8000 /\
    DataView.getUint 4 28 file = 8000 * 1 * 2 /\
    DataView.getUint 2 32 file = 1 * 2 /\
    DataView.getUint 2 34 file = 16 /\
    take 4 (drop 36 file) = Spec.ascii_bytes "data" /\
    DataView.getUint 4 40 file = Z.of_nat (length (drop 44 file)) /\
    Z.of_nat (length (drop 44 file)) = Z.of_nat 5 * 1 * 2.
Proof.
  assert (H1 : Z.of_nat (WebAudio.numberOfChannels Spec.known_buffer) = 1
               \/ Z.of_nat (WebAudio.numberOfChannels Spec.known_buffer) = 2)
    by (left; reflexivity).
  assert (H2 : Forall (fun ch => length ch = 5%nat)
                 (WebAudio.channelData Spec.known_buffer))
    by (repeat constructor).
  assert (H3 : WebAudio.sampleRate Spec.known_buffer = inject_Z 8000)
    by reflexivity.
  assert (H4 : 0 <= 8000) by lia.
  assert (H5 : 8000 * Z.of_nat (WebAudio.numberOfChannels Spec.known_buffer) * 2
               < 2 ^ 32) by (vm_compute; reflexivity).
  assert (H6 : 36 + Z.of_nat 5
                    * Z.of_nat (WebAudio.numberOfChannels Spec.known_buffer) * 2
               < 2 ^ 32) by (vm_compute; reflexivity).
  exact (wav_header_reads_back Spec.known_buffer 5 8000 H1 H2 H3 H4 H5 H6).
Defined.

(** X2.  Samples outside [[-1, 1]] saturate: every finite sample of 1
    or more, and +Infinity, is written as 32767; every sample of -1 or
    less, and -Infinity, as -32768; NaN, which is also what a sample
    read past the end of a channel is, as 0. *)
Theorem quantization_saturates :
  (forall q : Q, (1 <= q)%Q ->
     JS.ToInt16 (Exporter.scaled (JS.Fin q)) = 32767) /\
  (forall q : Q, (q <= -1)%Q ->
     JS.ToInt16 (Exporter.scaled (JS.Fin q)) = -32768) /\
  JS.ToInt16 (Exporter.scaled JS.PosInfinity) = 32767 /\
  JS.ToInt16 (Exporter.scaled JS.NegInfinity) = -32768 /\
  JS.ToInt16 (Exporter.scaled JS.NaN) = 0 /\
  JS.ToInt16 (Exporter.scaled (Exporter.at_index [] 0)) = 0.
Proof.
  assert (Hhi : JS.ToInt16 (Exporter.scaled (JS.Fin 1)) = 32767)
    by (vm_compute; reflexivity).
  assert (Hlo : JS.ToInt16 (Exporter.scaled (JS.Fin (-1))) = -32768)
    by (vm_compute; reflexivity).
  assert (Hrange : forall x, -32768 <= JS.ToInt16 (Exporter.scaled x) <= 32767).
  { intros x. pose proof (ToInt16_range (Exporter.scaled x)). lia. }
  refine (conj _ (conj _ (conj _ (conj _ (conj _ _))))).
  - intros q Hq. pose proof (quantize_mono 1 q Hq).
    pose proof (Hrange (JS.Fin q)). lia.
  - intros q Hq. pose proof (quantize_mono q (-1) Hq).
    pose proof (Hrange (JS.Fin q)). lia.
  - vm_compute; reflexivity.
  - vm_compute; reflexivity.
  - vm_compute; reflexivity.
  - vm_compute; reflexivity.
Qed.

(** X3.  Quantization keeps order and sign: a larger sample never
    gets a smaller 16-bit value, equal samples get equal values
    whatever fraction stands for them, a non-negative sample gets a
    non-negative value and a non-positive one a non-positive value. *)
Theorem quantization_is_monotone :
  (forall a b : Q, (a <= b)%Q ->
     JS.ToInt16 (Exporter.scaled (JS.Fin a))
     <= JS.ToInt16 (Exporter.scaled (JS.Fin b))) /\
  (forall a b : Q, (a == b)%Q ->
     JS.ToInt16 (Exporter.scaled (JS.Fin a))
     = JS.ToInt16 (Exporter.scaled (JS.Fin b))) /\
  (forall q : Q, (0 <= q)%Q ->
     0 <= JS.ToInt16 (Exporter.scaled (JS.Fin q))) /\
  (forall q : Q, (q <= 0)%Q ->
     JS.ToInt16 (Exporter.scaled (JS.Fin q)) <= 0).
Proof.
  assert (H0 : JS.ToInt16 (Exporter.scaled (JS.Fin 0)) = 0)
    by (vm_compute; reflexivity).
  refine (conj quantize_mono (conj _ (conj _ _))).
  - intros a b E.
    apply Z.le_antisymm; apply quantize_mono; rewrite E; apply Qle_refl.
  - intros q Hq. rewrite <- H0. by apply quantize_mono.
  - intros q Hq. rewrite <- H0. by apply quantize_mono.
Qed.

(** X4.  The encoder throws exactly when the buffer has no channel.
    For a buffer of two or more channels it writes channels 0 and 1
    only, interleaved over the length of channel 0, while the header
    announces all [c] channels and a block size of [2*c]: with three
    or more channels the data holds 4 bytes per frame, not [2*c]. *)
Theorem wav_channel_count_edges :
  (forall b : WebAudio.AudioBuffer,
     Exporter.audioBufferToWav b = None <->
     WebAudio.numberOfChannels b = 0%nat) /\
  (forall (rate : Q) (left right : list JS.number)
          (rest : list (list JS.number)),
     let b := {| WebAudio.sampleRate := rate;
                 WebAudio.channelData := left :: right :: rest |} in
     let c := Z.of_nat (WebAudio.numberOfChannels b) in
     exists file : list Z,
       Exporter.audioBufferToWav b = Some file /\
       length file = (44 + 4 * length left)%nat /\
       DataView.getUint 2 22 file = c mod 2 ^ 16 /\
       DataView.getUint 2 32 file = (c * 2) mod 2 ^ 16 /\
       DataView.getUint 4 40 file = Z.of_nat (4 * length left) mod 2 ^ 32 /\
       drop 44 file
       = flat_map
           (fun x => DataView.le_bytes 2 (JS.ToInt16 (Exporter.scaled x)))
           (Spec.interleaved [left; right] (length left))).
Proof.
  split.
  - exact encoder_fails_only_without_channels.
  - intros rate left right rest b c.
    rewrite audioBufferToWav_unfold.
    assert (E : (if decide (WebAudio.numberOfChannels b = 1%nat)
                 then WebAudio.getChannelData b 0
                 else
                   l ← WebAudio.getChannelData b 0;
                   r ← WebAudio.getChannelData b 1;
                   Some (Exporter.interleave l r))
                = Some (Spec.interleaved [left; right] (length left))).
    { destruct (decide _) as [H|H]; [discriminate H|].
      cbn. by rewrite interleave_spec. }
    rewrite E. cbn [mbind option_bind]. rewrite wav_of_spec.
    set (xs := Spec.interleaved [left; right] (length left)).
    assert (Hxs : length xs = (length left * 2)%nat).
    { unfold xs. by rewrite length_interleaved. }
    eexists. split; [reflexivity|].
    fold sample_bytes.
    refine (conj _ (conj _ (conj _ (conj _ _)))).
    + repeat rewrite ?length_app, ?length_le_bytes. rewrite length_samples.
      unfold Spec.ascii_bytes. rewrite !length_map. cbn. lia.
    + unfold DataView.getUint.
      change (take 2 (drop 22 _))
        with (DataView.le_bytes 2 (Z.of_nat (WebAudio.numberOfChannels b))).
      apply le_value_le_bytes.
    + unfold DataView.getUint.
      change (take 2 (drop 32 _))
        with (DataView.le_bytes 2 (Z.of_nat (WebAudio.numberOfChannels b) * 2)).
      apply le_value_le_bytes.
    + unfold DataView.getUint.
      change (take 4 (drop 40 _))
        with (DataView.le_bytes 4 (Z.of_nat (length xs * 2))).
      rewrite le_value_le_bytes, Hxs. f_equal. lia.
    + reflexivity.
Qed.

(** X5.  Whatever the encoder returns is a string of bytes, every
    element between 0 and 255, made of the 44 header bytes and two
    bytes per sample written: one sample per frame of channel 0 for a
    mono buffer, two per frame otherwise. *)
Theorem wav_output_is_a_byte_string
    (b : WebAudio.AudioBuffer) (file : list Z) :
  Exporter.audioBufferToWav b = Some file ->
  Forall (fun x => 0 <= x < 256) file /\
  length file
  = (44 + 2 * (WebAudio.frames b
               * (if decide (WebAudio.numberOfChannels b = 1%nat)
                  then 1 else 2)))%nat.
Proof.
  rewrite audioBufferToWav_unfold.
  unfold WebAudio.numberOfChannels, WebAudio.getChannelData, WebAudio.frames.
  destruct (WebAudio.channelData b) as [|l [|r rest]]; cbn [length].
  - rewrite decide_False by done. discriminate.
  - rewrite decide_True by done.
    cbn [lookup list_lookup mbind option_bind default]. intros H.
    apply wav_of_range in H as (H1 & H2). split; [done|]. rewrite H2.
    unfold id. repeat case_decide; lia.
  - rewrite decide_False by done.
    cbn [lookup list_lookup mbind option_bind default]. intros H.
    apply wav_of_range in H as (H1 & H2). split; [done|].
    rewrite H2, interleave_spec, length_interleaved. cbn [length].
    unfold id. repeat case_decide; lia.
Qed.

Lemma wav_output_is_a_byte_string_witness :
  exists file : list Z,
    Exporter.audioBufferToWav Spec.known_buffer = Some file /\
    Forall (fun x => 0 <= x < 256) file /\
    length file = 54%nat.
Proof.
  destruct (Exporter.audioBufferToWav Spec.known_buffer) as [file|] eqn:E;
    [|vm_compute in E; discriminate E].
  exists file. split; [reflexivity|].
  exact (wav_output_is_a_byte_string Spec.known_buffer file E).
Defined.

(** ** The recorder: edits, captures and the store's order *)

Section StoreEdits.
Import WebAudio Recorder.

Lemma with_clips_same (s : Recorder.state) : with_clips (clips s) s = s.
Proof. by destruct s. Qed.

Lemma has_id_true (h : list clip) (i : Z) (r : ref) :
  has_id h i r = true <-> id_of h r = Some i.
Proof. unfold has_id. apply bool_decide_eq_true. Qed.

Lemma has_id_false (h : list clip) (i : Z) (r : ref) :
  has_id h i r = false <-> id_of h r <> Some i.
Proof. unfold has_id. apply bool_decide_eq_false. Qed.

Lemma find_filter_other (h : list clip) (i j : Z) (l : list ref) :
  j <> i ->
  List.find (has_id h j) (filter (fun r => id_of h r ≠ Some i) l)
  = List.find (has_id h j) l.
Proof.
  intros Hji. induction l as [|r l IH]; [done|].
  rewrite filter_cons. cbn [List.find].
  destruct (decide (id_of h r ≠ Some i)) as [Hr|Hr].
  - cbn [List.find]. by rewrite IH.
  - assert (E : id_of h r = Some i) by (by destruct (decide (id_of h r = Some i))).
    assert (has_id h j r = false) as -> by (apply has_id_false; congruence).
    exact IH.
Qed.

Lemma find_filter_same (h : list clip) (i : Z) (l : list ref) :
  List.find (has_id h i) (filter (fun r => id_of h r ≠ Some i) l) = None.
Proof.
  induction l as [|r l IH]; [done|].
  rewrite filter_cons.
  destruct (decide (id_of h r ≠ Some i)) as [Hr|Hr]; [|exact IH].
  cbn [List.find]. by rewrite (proj2 (has_id_false h i r) Hr).
Qed.

Lemma filter_find_none (h : list clip) (i : Z) (l : list ref) :
  List.find (has_id h i) l = None ->
  filter (fun r => id_of h r ≠ Some i) l = l.
Proof.
  induction l as [|r l IH]; [done|]. cbn [List.find].
  destruct (has_id h i r) eqn:E; [done|]. intros Hl.
  rewrite filter_cons, decide_True by (by apply has_id_false).
  by rewrite IH.
Qed.

(** Where [find] stops: nothing before the hit has the id. *)
Lemma find_split (h : list clip) (i : Z) (l : list ref) (r : ref) :
  List.find (has_id h i) l = Some r ->
  exists l1 l2,
    l = l1 ++ r :: l2 /\ id_of h r = Some i /\
    Forall (fun x => id_of h x <> Some i) l1.
Proof.
  induction l as [|x l IH]; [done|]. cbn [List.find].
  destruct (has_id h i x) eqn:E.
  - intros [= ->]. exists [], l. split; [done|]. split; [|constructor].
    by apply has_id_true.
  - intros Hl. destruct (IH Hl) as (l1 & l2 & -> & Hr & Hl1).
    exists (x :: l1), l2. split; [done|]. split; [done|].
    constructor; [by apply has_id_false|done].
Qed.

Lemma filter_all (h : list clip) (i : Z) (l : list ref) :
  Forall (fun x => id_of h x <> Some i) l ->
  filter (fun r => id_of h r ≠ Some i) l = l.
Proof.
  induction 1 as [|x l Hx Hl IH]; [done|].
  by rewrite filter_cons, decide_True, IH.
Qed.

Lemma omap_not_in (h : list clip) (i : Z) (l : list ref) :
  i ∉ omap (id_of h) l -> Forall (fun x => id_of h x <> Some i) l.
Proof.
  intros Hi. apply Forall_forall. intros x Hx E. apply Hi.
  apply list_elem_of_omap. by exists x.
Qed.

Lemma delete_exactly (h : list clip) (i : Z) (l : list ref) (r : ref) :
  NoDup (omap (id_of h) l) ->
  List.find (has_id h i) l = Some r ->
  exists l1 l2,
    l = l1 ++ r :: l2 /\
    filter (fun x => id_of h x ≠ Some i) l = l1 ++ l2.
Proof.
  intros Hnd Hfind.
  destruct (find_split h i l r Hfind) as (l1 & l2 & -> & Hr & Hl1).
  exists l1, l2. split; [done|].
  rewrite omap_app in Hnd. cbn [omap list_omap] in Hnd. rewrite Hr in Hnd.
  apply NoDup_app in Hnd as (_ & _ & Hnd).
  apply NoDup_cons in Hnd as (Hi & _).
  rewrite filter_app, filter_cons, decide_False by (intros H; by apply H).
  by rewrite (filter_all h i l1 Hl1), (filter_all h i l2 (omap_not_in h i l2 Hi)).
Qed.

Lemma find_alter (h : list clip) (i : Z) (t : Q) (x : ref) (l : list ref) :
  List.find (has_id (alter (set_startTime t) x h) i) l
  = List.find (has_id h i) l.
Proof.
  induction l as [|y l IH]; [done|]. cbn [List.find].
  unfold has_id at 1 3. rewrite id_of_alter. fold (has_id h i y).
  by rewrite IH.
Qed.

Lemma max0_nonneg (t : Q) :
  (0 <= max0 t)%Q /\ ((0 <= t)%Q -> (max0 t == t)%Q) /\
  ((t <= 0)%Q -> (max0 t == 0)%Q).
Proof.
  unfold max0, JS.Qltb. destruct (Qle_bool t 0) eqn:E; cbn [negb].
  - apply Qle_bool_iff in E. repeat split; intros; lra.
  - apply not_true_iff_false in E. rewrite Qle_bool_iff in E.
    repeat split; intros; lra.
Qed.

Lemma stopRecording_flags (r : Recorder.state) :
  recorder_flags r -> recorder_flags (stopRecording r).
Proof.
  unfold recorder_flags. intros (Hch & Hrec).
  unfold stopRecording.
  destruct (mediaRecorder r) as [[]|] eqn:E; cbn; rewrite ?E;
    (split; [done|discriminate]).
Qed.

Lemma startRecording_flags (granted : bool) (t : Q) (r : Recorder.state) :
  recorder_flags r -> recorder_flags (fst (startRecording granted t r)).
Proof.
  intros H. unfold startRecording.
  set (r1 := if isRecording r then stopRecording r else r).
  assert (H1 : recorder_flags r1).
  { unfold r1. destruct (isRecording r); [by apply stopRecording_flags|done]. }
  destruct (negb (mediaStream r1) && negb granted); cbn [fst].
  - exact H1.
  - split; [constructor|]. cbn. eauto.
Qed.

Lemma startRecording_result (granted : bool) (t : Q) (r : Recorder.state) :
  snd (startRecording granted t r) = mediaStream r || granted.
Proof.
  unfold startRecording.
  assert (E : mediaStream (if isRecording r then stopRecording r else r)
              = mediaStream r).
  { destruct (isRecording r); [|done]. unfold stopRecording.
    by destruct (mediaRecorder r) as [[]|]. }
  rewrite E. by destruct (mediaStream r), granted.
Qed.

Lemma step_flags (s : System.state) (c : System.call) :
  recorder_flags (System.rec s) ->
  recorder_flags (System.rec (System.step s c)).
Proof.
  intros H.
  destruct c; cbn [System.step System.on_rec System.on_eng System.rec];
    try exact H.
  - unfold requestMic. by destruct granted.
  - unfold releaseMic. by destruct (mediaStream (System.rec s)).
  - unfold recorder_inactive. destruct H as (Hch & Hrec).
    destruct (mediaRecorder (System.rec s)) as [[]|] eqn:E; cbn;
      (split; [done|]); rewrite ?E; done.
  - by apply startRecording_flags.
  - unfold ondataavailable. destruct (0 <? size) eqn:E; [|done].
    destruct H as (Hch & Hrec).
    split; [|done]. cbn.
    apply Forall_app. split; [done|]. constructor; [lia|constructor].
  - by apply stopRecording_flags.
  - unfold onstop. destruct (chunks (System.rec s)) eqn:E; [done|].
    destruct H as (Hch & Hrec).
    destruct decoded; cbn; (split; [done|discriminate]).
  - destruct H as (Hch & Hrec).
    destruct decoded; cbn; (split; [done|discriminate]).
  - unfold moveClip. destruct (getClip i (System.rec s)); done.
Qed.

Lemma run_flags (cs : list System.call) :
  forall s : System.state,
    recorder_flags (System.rec s) ->
    recorder_flags (System.rec (System.run cs s)).
Proof.
  induction cs as [|c cs IH]; intros s H; [done|].
  apply (IH (System.step s c)), step_flags, H.
Qed.

Lemma flags_initial : recorder_flags Recorder.initial.
Proof. split; cbn; [constructor|discriminate]. Qed.

Lemma run_wf_initial (cs : list System.call) :
  wf (System.rec (System.run cs System.initial)).
Proof. apply run_inv, wf_initial. Qed.

Lemma fold_chunks (sizes : list Z) :
  forall s : Recorder.state,
    let s' := fold_left (fun s z => ondataavailable z s) sizes s in
    heap s' = heap s /\ clips s' = clips s /\ nextClipId s' = nextClipId s /\
    recordStartTime s' = recordStartTime s /\
    mediaRecorder s' = mediaRecorder s /\ mediaStream s' = mediaStream s /\
    console s' = console s /\
    chunks s' = chunks s ++ List.filter (fun z => 0 <? z) sizes.
Proof.
  induction sizes as [|z sizes IH]; intros s; cbn zeta.
  - cbn. by rewrite app_nil_r.
  - cbn [fold_left List.filter].
    destruct (IH (ondataavailable z s)) as (H1 & H2 & H3 & H4 & H5 & H6 & H7 & H8).
    rewrite H1, H2, H3, H4, H5, H6, H7, H8.
    unfold ondataavailable. destruct (0 <? z); cbn; [|done].
    by rewrite <- app_assoc.
Qed.

End StoreEdits.

(** X6.  [deleteClip(id)]: afterwards [getClip(id)] finds nothing and
    every other id is found as before; an id that is not stored leaves
    the recorder as it is; deleting twice is deleting once; and in
    every store the recorder can reach exactly one entry leaves the
    array, the others keeping their order. *)
Theorem deleteClip_removes_exactly_that_clip (i : Z) (s : Recorder.state) :
  Recorder.getClip i (Recorder.deleteClip i s) = None /\
  (forall j : Z, j <> i ->
     Recorder.getClip j (Recorder.deleteClip i s) = Recorder.getClip j s) /\
  (Recorder.getClip i s = None -> Recorder.deleteClip i s = s) /\
  Recorder.deleteClip i (Recorder.deleteClip i s) = Recorder.deleteClip i s /\
  (forall (calls : list System.call) (r : Recorder.ref),
     s = System.rec (System.run calls System.initial) ->
     Recorder.getClip i s = Some r ->
     exists before after : list Recorder.ref,
       Recorder.getAllClips s = before ++ r :: after /\
       Recorder.getAllClips (Recorder.deleteClip i s) = before ++ after).
Proof.
  refine (conj _ (conj _ (conj _ (conj _ _)))).
  - apply find_filter_same.
  - intros j Hj. by apply find_filter_other.
  - intros H. unfold Recorder.deleteClip.
    rewrite (filter_find_none _ _ _ H). apply with_clips_same.
  - unfold Recorder.deleteClip.
    cbn [Recorder.heap Recorder.clips Recorder.with_clips].
    rewrite (filter_find_none _ _ _
               (find_filter_same (Recorder.heap s) i (Recorder.clips s))).
    reflexivity.
  - intros calls r -> Hr.
    pose proof (run_wf_initial calls) as (_ & _ & Hnd).
    exact (delete_exactly _ _ _ _ Hnd Hr).
Qed.

Lemma deleteClip_removes_exactly_that_clip_witness :
  Spec.one_clip
  = System.rec
      (System.run
         [System.StartRecording true 2; System.DataAvailable 100;
          System.StopRecording; System.OnStop (Some Spec.three_seconds)]
         System.initial) /\
  Recorder.getClip 1 Spec.one_clip = Some 0%nat /\
  exists before after : list Recorder.ref,
    Recorder.getAllClips Spec.one_clip = before ++ 0%nat :: after /\
    Recorder.getAllClips (Recorder.deleteClip 1 Spec.one_clip)
    = before ++ after.
Proof.
  assert (H1 : Spec.one_clip
               = System.rec
                   (System.run
                      [System.StartRecording true 2; System.DataAvailable 100;
                       System.StopRecording;
                       System.OnStop (Some Spec.three_seconds)]
                      System.initial)) by reflexivity.
  assert (H2 : Recorder.getClip 1 Spec.one_clip = Some 0%nat) by reflexivity.
  exact (conj H1 (conj H2
           (proj2 (proj2 (proj2 (proj2
              (deleteClip_removes_exactly_that_clip 1 Spec.one_clip))))
              _ 0%nat H1 H2))).
Defined.

(** X7.  [moveClip(id, t)] keeps the array and what [getClip] finds
    for every id; an unknown id leaves the recorder as it is; otherwise
    the clip found gets the start time [max(0, t)], which is never
    negative, keeps its id, duration and buffer, and no other clip
    object changes. *)
Theorem moveClip_moves_only_that_clip (i : Z) (t : Q) (s : Recorder.state) :
  Recorder.getAllClips (Recorder.moveClip i t s) = Recorder.getAllClips s /\
  (forall j : Z,
     Recorder.getClip j (Recorder.moveClip i t s) = Recorder.getClip j s) /\
  (Recorder.getClip i s = None -> Recorder.moveClip i t s = s) /\
  (forall r : Recorder.ref,
     Recorder.getClip i s = Some r ->
     exists c : Recorder.clip,
       Recorder.heap s !! r = Some c /\ Recorder.id c = i /\
       Recorder.heap (Recorder.moveClip i t s) !! r
       = Some {| Recorder.id := i; Recorder.startTime := Recorder.max0 t;
                 Recorder.duration := Recorder.duration c;
                 Recorder.audioBuffer := Recorder.audioBuffer c |} /\
       forall r' : Recorder.ref,
         r' <> r ->
         Recorder.heap (Recorder.moveClip i t s) !! r' = Recorder.heap s !! r') /\
  (0 <= Recorder.max0 t)%Q /\
  ((0 <= t)%Q -> (Recorder.max0 t == t)%Q) /\
  ((t <= 0)%Q -> (Recorder.max0 t == 0)%Q).
Proof.
  refine (conj _ (conj _ (conj _ (conj _ (max0_nonneg t))))).
  - apply moveClip_frame.
  - intros j. unfold Recorder.moveClip.
    destruct (Recorder.getClip i s) as [r|]; [|done].
    unfold Recorder.getClip. cbn [Recorder.heap Recorder.clips Recorder.with_heap].
    apply find_alter.
  - intros H. unfold Recorder.moveClip. by rewrite H.
  - intros r Hr.
    destruct (find_split _ _ _ _ Hr) as (l1 & l2 & _ & Hid & _).
    unfold Recorder.id_of in Hid.
    destruct (Recorder.heap s !! r) as [c|] eqn:Hc; [|done].
    injection Hid as Hid.
    exists c. split; [done|]. split; [done|]. split.
    + rewrite (moveClip_object i t s r c Hr Hc). unfold Recorder.set_startTime.
      by rewrite Hid.
    + intros r' Hne. unfold Recorder.moveClip. rewrite Hr.
      cbn [Recorder.heap Recorder.with_heap].
      by apply list_lookup_alter_ne.
Qed.

Lemma moveClip_moves_only_that_clip_witness :
  Recorder.getClip 1 Spec.one_clip = Some 0%nat /\
  exists c : Recorder.clip,
    Recorder.heap Spec.one_clip !! 0%nat = Some c /\ Recorder.id c = 1 /\
    Recorder.heap (Recorder.moveClip 1 (-3) Spec.one_clip) !! 0%nat
    = Some {| Recorder.id := 1; Recorder.startTime := Recorder.max0 (-3);
              Recorder.duration := Recorder.duration c;
              Recorder.audioBuffer := Recorder.audioBuffer c |} /\
    forall r' : Recorder.ref,
      r' <> 0%nat ->
      Recorder.heap (Recorder.moveClip 1 (-3) Spec.one_clip) !! r'
      = Recorder.heap Spec.one_clip !! r'.
Proof.
  assert (H1 : Recorder.getClip 1 Spec.one_clip = Some 0%nat) by reflexivity.
  exact (conj H1
           (proj1 (proj2 (proj2 (proj2
              (moveClip_moves_only_that_clip 1 (-3) Spec.one_clip))))
              0%nat H1)).
Defined.

(** X8.  A capture that starts, receives at least one non-empty
    chunk, is stopped and decodes appends exactly one clip: it carries
    the counter's value as id, the time given to [startRecording] as
    start time and the decoded buffer's duration; the counter moves on
    by one, [isRecording] is cleared, and only the non-empty chunks
    were kept. *)
Theorem capture_appends_one_clip
    (s : Recorder.state) (granted : bool) (t : Q) (sizes : list Z)
    (ab : WebAudio.AudioBuffer) :
  snd (Recorder.startRecording granted t s) = true ->
  Exists (fun size => 0 < size) sizes ->
  let s1 := fst (Recorder.startRecording granted t s) in
  let s2 := fold_left (fun s z => Recorder.ondataavailable z s) sizes s1 in
  let out := Recorder.onstop (Some ab) (Recorder.stopRecording s2) in
  let r := length (Recorder.heap s) in
  snd out = Some r /\
  Recorder.heap (fst out)
  = Recorder.heap s
      ++ [{| Recorder.id := Recorder.nextClipId s;
             Recorder.startTime := t;
             Recorder.duration := WebAudio.buffer_duration ab;
             Recorder.audioBuffer := Some ab |}] /\
  Recorder.getAllClips (fst out) = Recorder.getAllClips s ++ [r] /\
  Recorder.nextClipId (fst out) = Recorder.nextClipId s + 1 /\
  Recorder.isRecording (fst out) = false /\
  Recorder.hasRecordings (fst out) = true /\
  Recorder.chunks (fst out) = List.filter (fun z => 0 <? z) sizes.
Proof.
  intros Hok Hex s1 s2 out r.
  destruct (startRecording_frame granted t s) as (Hh & Hc & Hn).
  destruct (startRecording_chunks granted t s Hok) as (Hch & _).
  assert (Ht : Recorder.recordStartTime s1 = t).
  { unfold s1, Recorder.startRecording in *.
    destruct (negb _ && negb _); [discriminate Hok|reflexivity]. }
  destruct (fold_chunks sizes s1) as (F1 & F2 & F3 & F4 & _ & _ & _ & F8).
  fold s1 in Hh, Hc, Hn, Hch. fold s2 in F1, F2, F3, F4, F8.
  rewrite Hch in F8. cbn [app] in F8.
  assert (Hne : List.filter (fun z => 0 <? z) sizes <> []).
  { apply Exists_exists in Hex as (z & Hz & Hpos).
    intros E. apply list_elem_of_In in Hz.
    assert (Hin : In z (List.filter (fun z => 0 <? z) sizes)).
    { apply filter_In. split; [done|]. by apply Z.ltb_lt. }
    rewrite E in Hin. destruct Hin. }
  destruct (stopRecording_frame s2) as (G1 & G2 & G3).
  destruct (stopRecording_idle s2) as (_ & _ & G4 & _).
  assert (G5 : Recorder.recordStartTime (Recorder.stopRecording s2)
               = Recorder.recordStartTime s2).
  { unfold Recorder.stopRecording.
    by destruct (Recorder.mediaRecorder s2) as [[]|]. }
  assert (Eo : Recorder.onstop (Some ab) (Recorder.stopRecording s2)
               = Recorder.onstop_resume (Some ab) (Recorder.stopRecording s2)).
  { unfold Recorder.onstop.
    destruct (Recorder.chunks (Recorder.stopRecording s2)) as [|z zs] eqn:E;
      [|reflexivity].
    exfalso. apply Hne. by rewrite <- F8, <- G4. }
  unfold out. rewrite Eo.
  cbn [Recorder.onstop_resume fst snd Recorder.heap
    Recorder.getAllClips Recorder.clips Recorder.nextClipId
    Recorder.isRecording Recorder.chunks].
  rewrite G1, G2, G3, G4, G5, F1, F2, F3, F4, F8, Hh, Hc, Hn, Ht.
  repeat split.
  unfold Recorder.hasRecordings. cbn [Recorder.clips].
  rewrite length_app. cbn. by rewrite Nat.add_1_r.
Qed.

Lemma capture_appends_one_clip_witness :
  let s := Recorder.initial in
  let out :=
    Recorder.onstop (Some Spec.three_seconds)
      (Recorder.stopRecording
         (fold_left (fun s z => Recorder.ondataavailable z s) [0; 100]
            (fst (Recorder.startRecording true 2 s)))) in
  snd (Recorder.startRecording true 2 s) = true /\
  Exists (fun size => 0 < size) [0; 100] /\
  snd out = Some 0%nat /\
  Recorder.heap (fst out)
  = [{| Recorder.id := 1; Recorder.startTime := 2;
        Recorder.duration := WebAudio.buffer_duration Spec.three_seconds;
        Recorder.audioBuffer := Some Spec.three_seconds |}] /\
  Recorder.getAllClips (fst out) = [0%nat].
Proof.
  assert (H1 : snd (Recorder.startRecording true 2 Recorder.initial) = true)
    by reflexivity.
  assert (H2 : Exists (fun size => 0 < size) [0; 100])
    by (right; left; lia).
  pose proof (capture_appends_one_clip Recorder.initial true 2 [0; 100]
                Spec.three_seconds H1 H2) as (A & B & C & _).
  exact (conj H1 (conj H2 (conj A (conj B C)))).
Defined.

(** X9.  In every state the recorder can reach, [requestMic],
    [releaseMic] and a media recorder stopping by itself included:
    only non-empty chunks are stored, and [isRecording] is set only
    once a media recorder exists.  [startRecording] fails exactly when
    no stream is held and the request is refused; it has then cleared
    [isRecording], stopping the capture in progress if the flag was
    set, and logged the error, and the clips, the counter and the
    chunks are as before.  While the stream
    is held the prompt is not consulted.  A successful start sets
    [isRecording] and the start time and empties the chunks, leaving
    the clips and the counter alone.  [releaseMic] gives the stream up
    and touches nothing else, [isRecording] included, so that the next
    start depends on the prompt again: after [startRecording] and
    [releaseMic] the flag is set with no stream held, and a refused
    start from there clears the flag and stops the media recorder. *)
Theorem recording_flag_and_microphone
    (calls : list System.call) (granted : bool) (t : Q) :
  let s := System.rec (System.run calls System.initial) in
  (Recorder.isRecording s = true -> is_Some (Recorder.mediaRecorder s)) /\
  Forall (fun size => 0 < size) (Recorder.chunks s) /\
  (snd (Recorder.startRecording granted t s) = false <->
   (Recorder.mediaStream s = false /\ granted = false)) /\
  (snd (Recorder.startRecording granted t s) = false ->
   let s' := fst (Recorder.startRecording granted t s) in
   s' = Recorder.console_error "Mic access denied:"
          (if Recorder.isRecording s then Recorder.stopRecording s else s) /\
   Recorder.isRecording s' = false /\
   Recorder.getAllClips s' = Recorder.getAllClips s /\
   Recorder.nextClipId s' = Recorder.nextClipId s /\
   Recorder.chunks s' = Recorder.chunks s) /\
  (Recorder.mediaStream s = true ->
   Recorder.startRecording granted t s = Recorder.startRecording true t s) /\
  (snd (Recorder.startRecording granted t s) = true ->
   let s' := fst (Recorder.startRecording granted t s) in
   Recorder.isRecording s' = true /\ Recorder.recordStartTime s' = t /\
   Recorder.chunks s' = [] /\ Recorder.mediaStream s' = true /\
   Recorder.mediaRecorder s' = Some Recorder.recording /\
   Recorder.getAllClips s' = Recorder.getAllClips s /\
   Recorder.nextClipId s' = Recorder.nextClipId s) /\
  (let s' := Recorder.releaseMic s in
   Recorder.mediaStream s' = false /\
   Recorder.isRecording s' = Recorder.isRecording s /\
   Recorder.mediaRecorder s' = Recorder.mediaRecorder s /\
   Recorder.chunks s' = Recorder.chunks s /\
   Recorder.getAllClips s' = Recorder.getAllClips s /\
   Recorder.nextClipId s' = Recorder.nextClipId s /\
   snd (Recorder.startRecording granted t s') = granted) /\
  (Recorder.requestMic granted s
   = if granted then (Recorder.with_mediaStream true s, true)
     else (Recorder.console_error "Mic access denied:" s, false)) /\
  (let s1 :=
     System.rec
       (System.run [System.StartRecording true 0; System.ReleaseMic]
          System.initial) in
   let s2 := fst (Recorder.startRecording false 1 s1) in
   Recorder.isRecording s1 = true /\ Recorder.mediaStream s1 = false /\
   Recorder.mediaRecorder s1 = Some Recorder.recording /\
   snd (Recorder.startRecording false 1 s1) = false /\
   Recorder.isRecording s2 = false /\
   Recorder.mediaRecorder s2 = Some Recorder.inactive).
Proof.
  intros s.
  assert (Hf : recorder_flags s) by (apply run_flags, flags_initial).
  destruct Hf as (Hch & Hrec).
  set (s1 := if Recorder.isRecording s then Recorder.stopRecording s else s).
  assert (Hs1 : Recorder.mediaStream s1 = Recorder.mediaStream s /\
                Recorder.isRecording s1 = false /\
                Recorder.clips s1 = Recorder.clips s /\
                Recorder.nextClipId s1 = Recorder.nextClipId s /\
                Recorder.chunks s1 = Recorder.chunks s).
  { unfold s1. destruct (Recorder.isRecording s) eqn:E; [|done].
    unfold Recorder.stopRecording.
    by destruct (Recorder.mediaRecorder s) as [[]|]. }
  destruct Hs1 as (M1 & M2 & M4 & M5 & M6).
  refine (conj Hrec (conj Hch (conj _ (conj _ (conj _ (conj _ (conj _
            (conj _ _)))))))).
  - unfold Recorder.startRecording. fold s1. rewrite M1.
    destruct (Recorder.mediaStream s), granted; cbn; intuition congruence.
  - unfold Recorder.startRecording. fold s1. cbn zeta.
    destruct (negb _ && negb _); [|discriminate]. intros _. cbn [fst].
    split; [reflexivity|]. cbn. unfold Recorder.getAllClips. cbn.
    by rewrite M2, M4, M5, M6.
  - intros Hm. unfold Recorder.startRecording. fold s1. rewrite M1, Hm.
    reflexivity.
  - intros Hok. cbn zeta.
    destruct (startRecording_frame granted t s) as (_ & Hc & Hn).
    unfold Recorder.getAllClips. rewrite Hc, Hn.
    unfold Recorder.startRecording in *.
    destruct (negb _ && negb _); [discriminate Hok|]. cbn. repeat split.
  - cbn zeta. rewrite startRecording_result.
    unfold Recorder.releaseMic, Recorder.getAllClips.
    destruct (Recorder.mediaStream s) eqn:Hm; cbn; rewrite ?Hm; done.
  - reflexivity.
  - vm_compute. repeat split.
Qed.

(** X10.  Starting a capture while one is running does not discard the
    running one: when the stopped recorder then delivers its last
    chunk and its stop handler runs, that audio becomes a clip placed
    at the start time of the new capture, and [isRecording] is cleared
    although the new media recorder is still recording. *)
Theorem restart_credits_old_audio_to_new_capture
    (s : Recorder.state) (g g' : bool) (t t' : Q) (size : Z)
    (ab : WebAudio.AudioBuffer) :
  snd (Recorder.startRecording g t s) = true ->
  0 < size ->
  let s1 := fst (Recorder.startRecording g t s) in
  let s2 := fst (Recorder.startRecording g' t' s1) in
  let out := Recorder.onstop (Some ab) (Recorder.ondataavailable size s2) in
  snd (Recorder.startRecording g' t' s1) = true /\
  snd out = Some (length (Recorder.heap s)) /\
  Recorder.heap (fst out)
  = Recorder.heap s
      ++ [{| Recorder.id := Recorder.nextClipId s;
             Recorder.startTime := t';
             Recorder.duration := WebAudio.buffer_duration ab;
             Recorder.audioBuffer := Some ab |}] /\
  Recorder.isRecording (fst out) = false /\
  Recorder.mediaRecorder (fst out) = Some Recorder.recording /\
  Recorder.chunks (fst out) = [size].
Proof.
  intros Hok Hsize s1 s2 out.
  destruct (startRecording_frame g t s) as (Hh & Hc & Hn).
  fold s1 in Hh, Hc, Hn.
  assert (H1 : Recorder.isRecording s1 = true /\ Recorder.mediaStream s1 = true).
  { unfold s1, Recorder.startRecording in *.
    destruct (negb _ && negb _); [discriminate Hok|]. by cbn. }
  destruct H1 as (Hr1 & Hm1).
  assert (E2 : Recorder.startRecording g' t' s1
               = ({| Recorder.heap := Recorder.heap s1;
                     Recorder.mediaStream := true;
                     Recorder.mediaRecorder := Some Recorder.recording;
                     Recorder.clips := Recorder.clips s1;
                     Recorder.nextClipId := Recorder.nextClipId s1;
                     Recorder.isRecording := true;
                     Recorder.recordStartTime := t';
                     Recorder.chunks := [];
                     Recorder.console := Recorder.console s1 |}, true)).
  { unfold Recorder.startRecording. rewrite Hr1.
    assert (Hm : Recorder.mediaStream (Recorder.stopRecording s1) = true).
    { unfold Recorder.stopRecording.
      by destruct (Recorder.mediaRecorder s1) as [[]|]. }
    rewrite Hm. cbn [negb andb].
    destruct (stopRecording_frame s1) as (-> & -> & ->).
    destruct (stopRecording_idle s1) as (_ & _ & _ & ->).
    reflexivity. }
  unfold out, s2. rewrite E2. cbn [fst snd].
  unfold Recorder.ondataavailable.
  rewrite (proj2 (Z.ltb_lt 0 size) Hsize).
  cbn. rewrite Hh, Hn. repeat split.
Qed.

Lemma restart_credits_old_audio_to_new_capture_witness :
  let s1 := fst (Recorder.startRecording true 2 Recorder.initial) in
  let s2 := fst (Recorder.startRecording false 9 s1) in
  let out :=
    Recorder.onstop (Some Spec.three_seconds)
      (Recorder.ondataavailable 100 s2) in
  snd (Recorder.startRecording true 2 Recorder.initial) = true /\
  0 < 100 /\
  Recorder.heap (fst out)
  = [{| Recorder.id := 1; Recorder.startTime := 9;
        Recorder.duration := WebAudio.buffer_duration Spec.three_seconds;
        Recorder.audioBuffer := Some Spec.three_seconds |}] /\
  Recorder.isRecording (fst out) = false /\
  Recorder.mediaRecorder (fst out) = Some Recorder.recording.
Proof.
  assert (H1 : snd (Recorder.startRecording true 2 Recorder.initial) = true)
    by reflexivity.
  assert (H2 : 0 < 100) by lia.
  pose proof (restart_credits_old_audio_to_new_capture Recorder.initial
                true false 2 9 100 Spec.three_seconds H1 H2)
    as (_ & _ & A & B & C & _).
  exact (conj H1 (conj H2 (conj A (conj B C)))).
Defined.

Section StoreOrder.
Import WebAudio Recorder.

Lemma buffers_frame (r r' : Recorder.state) :
  heap r' = heap r -> buffers_kept r -> buffers_kept r'.
Proof. unfold buffers_kept. by intros ->. Qed.

Lemma step_buffers (s : System.state) (c : System.call) :
  buffers_kept (System.rec s) -> buffers_kept (System.rec (System.step s c)).
Proof.
  intros H.
  assert (Hadd : forall ab,
             buffers_kept (fst (onstop_resume (Some ab) (System.rec s)))).
  { intros ab. unfold buffers_kept. cbn. apply Forall_app. split; [done|].
    constructor; [|constructor]. by exists ab. }
  destruct c; cbn [System.step System.on_rec System.on_eng System.rec];
    try exact H.
  - apply (buffers_frame (System.rec s)); [|done].
    apply requestMic_frame.
  - apply (buffers_frame (System.rec s)); [|done].
    apply releaseMic_frame.
  - apply (buffers_frame (System.rec s)); [|done].
    apply recorder_inactive_frame.
  - apply (buffers_frame (System.rec s)); [|done].
    apply startRecording_frame.
  - apply (buffers_frame (System.rec s)); [|done].
    apply ondataavailable_frame.
  - apply (buffers_frame (System.rec s)); [|done].
    apply stopRecording_frame.
  - unfold onstop. destruct (chunks (System.rec s)); [done|].
    destruct decoded as [ab|]; [apply Hadd|].
    apply (buffers_frame (System.rec s)); [|done]. apply resume_none.
  - destruct decoded as [ab|]; [apply Hadd|].
    apply (buffers_frame (System.rec s)); [|done]. apply resume_none.
  - unfold moveClip. destruct (getClip i (System.rec s)) as [r|]; [|done].
    unfold buffers_kept. cbn [heap with_heap].
    apply Forall_alter; [done|]. intros c _ (ab & H1 & H2). by exists ab.
Qed.

Lemma run_buffers (cs : list System.call) :
  forall s : System.state,
    buffers_kept (System.rec s) ->
    buffers_kept (System.rec (System.run cs s)).
Proof.
  induction cs as [|c cs IH]; intros s H; [done|].
  apply (IH (System.step s c)), step_buffers, H.
Qed.

Lemma omap_filter_sorted (h : list clip) (i : Z) (l : list ref) :
  StronglySorted Z.lt (omap (id_of h) l) ->
  StronglySorted Z.lt
    (omap (id_of h) (filter (fun r => id_of h r ≠ Some i) l)).
Proof.
  induction l as [|r l IH]; [done|].
  rewrite filter_cons. cbn [omap list_omap].
  destruct (id_of h r) as [j|] eqn:Hj.
  - intros H. apply StronglySorted_inv in H as (Hl & Hr).
    destruct (decide (Some j ≠ Some i)); [|by apply IH].
    cbn [omap list_omap]. rewrite Hj. constructor; [by apply IH|].
    apply List.Forall_forall. intros x Hx.
    rewrite List.Forall_forall in Hr. apply Hr.
    apply list_elem_of_In in Hx. apply list_elem_of_In.
    apply list_elem_of_omap in Hx as (y & Hy & Hyx).
    apply list_elem_of_filter in Hy as (_ & Hy).
    apply list_elem_of_omap. by exists y.
  - intros H. destruct (decide (None ≠ Some i)); [|by apply IH].
    cbn [omap list_omap]. rewrite Hj. by apply IH.
Qed.

Lemma sorted_snoc (l : list Z) (x : Z) :
  StronglySorted Z.lt l -> Forall (fun i => i < x) l ->
  StronglySorted Z.lt (l ++ [x]).
Proof.
  induction 1 as [|y l Hl IH Hy]; intros Hx; cbn [app].
  - repeat constructor.
  - apply Forall_cons_1 in Hx as (Hyx & Hx).
    constructor; [by apply IH|].
    rewrite List.Forall_app. split; [done|]. by repeat constructor.
Qed.

Lemma listed_sorted_snoc (r : Recorder.state) :
  wf r ->
  StronglySorted Z.lt (omap (id_of (heap r)) (clips r)) ->
  StronglySorted Z.lt (omap (id_of (heap r)) (clips r) ++ [nextClipId r]).
Proof.
  intros Hwf Hs. apply sorted_snoc; [done|].
  apply Forall_forall. intros i Hi. by apply listed_below.
Qed.

Lemma step_order (s : System.state) (c : System.call) :
  wf (System.rec s) ->
  StronglySorted Z.lt (System.listed_ids s) ->
  StronglySorted Z.lt (System.listed_ids (System.step s c)).
Proof.
  intros Hwf Hs.
  unfold System.listed_ids, getAllClips in *.
  destruct c; cbn [System.step System.on_rec System.on_eng System.rec];
    try exact Hs.
  - destruct (requestMic_frame granted (System.rec s)) as (-> & -> & _).
    exact Hs.
  - destruct (releaseMic_frame (System.rec s)) as (-> & -> & _).
    exact Hs.
  - destruct (recorder_inactive_frame (System.rec s)) as (-> & -> & _).
    exact Hs.
  - destruct (startRecording_frame granted t (System.rec s)) as (-> & -> & _).
    exact Hs.
  - destruct (ondataavailable_frame size (System.rec s)) as (-> & -> & _).
    exact Hs.
  - destruct (stopRecording_frame (System.rec s)) as (-> & -> & _).
    exact Hs.
  - unfold onstop. destruct (chunks (System.rec s)); [done|].
    destruct decoded as [ab|].
    + destruct (resume_add ab (System.rec s) Hwf) as (_ & _ & _ & _ & E).
      rewrite E. by apply listed_sorted_snoc.
    + destruct (resume_none (System.rec s)) as (_ & -> & -> & _). exact Hs.
  - destruct decoded as [ab|].
    + destruct (resume_add ab (System.rec s) Hwf) as (_ & _ & _ & _ & E).
      rewrite E. by apply listed_sorted_snoc.
    + destruct (resume_none (System.rec s)) as (_ & -> & -> & _). exact Hs.
  - by apply omap_filter_sorted.
  - rewrite moveClip_ids.
    by destruct (moveClip_frame i newStart (System.rec s)) as (-> & _).
Qed.

Lemma run_order (cs : list System.call) :
  forall s : System.state,
    wf (System.rec s) ->
    StronglySorted Z.lt (System.listed_ids s) ->
    StronglySorted Z.lt (System.listed_ids (System.run cs s)).
Proof.
  induction cs as [|c cs IH]; intros s Hwf Hs; [done|].
  apply (IH (System.step s c)); [by apply step_inv|by apply step_order].
Qed.

Lemma run_numbering (cs : list System.call) :
  forall s : System.state,
    wf (System.rec s) ->
    System.assigned cs s
    = seqZ (nextClipId (System.rec s))
        (nextClipId (System.rec (System.run cs s)) - nextClipId (System.rec s)).
Proof.
  induction cs as [|c cs IH]; intros s Hwf.
  - cbn. by rewrite Z.sub_diag.
  - destruct (step_inv s c Hwf) as (Hwf' & Hstep).
    cbn [System.assigned]. rewrite (IH _ Hwf').
    change (System.run (c :: cs) s) with (System.run cs (System.step s c)).
    destruct (run_inv cs (System.step s c) Hwf') as (_ & Hle & _).
    destruct Hstep as [(-> & Hn & _)|(-> & Hn & _)]; rewrite Hn in *.
    + reflexivity.
    + cbn [app].
      rewrite (seqZ_cons (nextClipId (System.rec s))) by lia.
      f_equal. f_equal; lia.
Qed.

End StoreOrder.

(** X11.  In every store the recorder can reach: the ids handed out
    so far are exactly 1, 2, ..., [nextClipId - 1], in that order;
    [getAllClips()] lists the clips in the order of their creation,
    ids strictly increasing, whatever was moved or deleted; and every
    listed clip exists, still has its buffer, lasts as long as that
    buffer and has an id from 1 to below the counter. *)
Theorem store_keeps_creation_order (calls : list System.call) :
  let s := System.run calls System.initial in
  System.assigned calls System.initial
  = seqZ 1 (Recorder.nextClipId (System.rec s) - 1) /\
  StronglySorted Z.lt (System.listed_ids s) /\
  (forall r : Recorder.ref,
     r ∈ Recorder.getAllClips (System.rec s) ->
     exists (c : Recorder.clip) (ab : WebAudio.AudioBuffer),
       Recorder.heap (System.rec s) !! r = Some c /\
       Recorder.audioBuffer c = Some ab /\
       Recorder.duration c = WebAudio.buffer_duration ab /\
       1 <= Recorder.id c < Recorder.nextClipId (System.rec s)).
Proof.
  intros s.
  split; [exact (run_numbering calls System.initial wf_initial)|].
  split.
  { apply run_order; [apply wf_initial|constructor]. }
  intros r Hr.
  pose proof (run_wf_initial calls) as (Hrefs & Hids & _). fold s in Hrefs, Hids.
  assert (Hb : buffers_kept (System.rec s)).
  { apply run_buffers. constructor. }
  rewrite Forall_forall in Hrefs. specialize (Hrefs r Hr). cbn beta in Hrefs.
  destruct (lookup_lt_is_Some_2 _ _ Hrefs) as (c & Hc).
  assert (Hin : c ∈ Recorder.heap (System.rec s))
    by (by apply list_elem_of_lookup_2 in Hc).
  unfold buffers_kept in Hb. rewrite Forall_forall in Hb.
  destruct (Hb c Hin) as (ab & H1 & H2).
  exists c, ab. split; [done|]. split; [done|]. split; [done|].
  rewrite Forall_forall in Hids. specialize (Hids c Hin). cbn beta in Hids.
  split; [|done].
  assert (Hlow : Forall (fun c => 1 <= Recorder.id c)
                   (Recorder.heap (System.rec s))).
  { unfold s. clear. induction calls as [|c cs IH] using rev_ind.
    - constructor.
    - unfold System.run in *. rewrite fold_left_app. cbn [fold_left].
      set (s0 := fold_left System.step cs System.initial) in *.
      destruct (run_inv cs System.initial wf_initial) as (_ & Hn & _).
      fold (System.run cs System.initial) in Hn. 
      change (System.run cs System.initial) with s0 in Hn.
      cbn in Hn.
      assert (Hadd : forall ab,
                 Forall (fun c => 1 <= Recorder.id c)
                   (Recorder.heap
                      (fst (Recorder.onstop_resume (Some ab) (System.rec s0))))).
      { intros ab. cbn. apply Forall_app. split; [done|].
        constructor; [cbn; lia|constructor]. }
      destruct c; cbn [System.step System.on_rec System.on_eng System.rec];
        try exact IH.
      + by destruct (requestMic_frame granted (System.rec s0)) as (-> & _).
      + by destruct (releaseMic_frame (System.rec s0)) as (-> & _).
      + by destruct (recorder_inactive_frame (System.rec s0)) as (-> & _).
      + by destruct (startRecording_frame granted t (System.rec s0)) as (-> & _).
      + by destruct (ondataavailable_frame size (System.rec s0)) as (-> & _).
      + by destruct (stopRecording_frame (System.rec s0)) as (-> & _).
      + unfold Recorder.onstop. destruct (Recorder.chunks (System.rec s0)); [done|].
        destruct decoded as [ab|]; [apply Hadd|].
        by destruct (resume_none (System.rec s0)) as (_ & -> & _).
      + destruct decoded as [ab|]; [apply Hadd|].
        by destruct (resume_none (System.rec s0)) as (_ & -> & _).
      + unfold Recorder.moveClip.
        destruct (Recorder.getClip i (System.rec s0)) as [r|]; [|done].
        cbn [Recorder.heap Recorder.with_heap].
        apply Forall_alter; [done|]. by intros c _ H. }
  rewrite Forall_forall in Hlow. by apply Hlow.
Qed.

(** ** The engine: restarts, ticks and gains *)

Section EngineMore.
Import WebAudio Recorder AudioEngine.

Lemma getClipGain_ext (i : Z) (s s' : state) :
  clipGains s' = clipGains s -> getClipGain i s' = getClipGain i s.
Proof. unfold getClipGain. by intros ->. Qed.

Lemma started_from_ext (h : list clip) (t : Q) (s s' : state) (p : play) :
  clipGains s' = clipGains s -> started_from h t s' p -> started_from h t s p.
Proof.
  intros E (c & H1 & H2 & H3 & H4). exists c.
  by rewrite <- (getClipGain_ext (id c) s s' E).
Qed.

Lemma playClipsAtTime_fold (h : list clip) (cs : list ref) (t : Q)
    (s : state) :
  playClipsAtTime h cs t s
  = fold_left (play_due h t) cs (stopAllClips s, []).
Proof. reflexivity. Qed.

Lemma play_due_step (h : list clip) (t : Q) (s0 : state) (ps0 : list play)
    (r : ref) :
  play_due h t (s0, ps0) r
  = match h !! r with
    | Some c =>
        if in_window c t && audioContext s0
           && bool_decide (is_Some (audioBuffer c))
        then
          ({| audioContext := true; masterGain := masterGain s0;
              activeClipSources :=
                activeClipSources s0 ++
                  [{| source := nodes s0;
                      gainValue := getClipGain (id c) s0;
                      clipId := id c |}];
              clipGains := clipGains s0; nodes := S (nodes s0) |},
           ps0 ++ [{| play_source := nodes s0; play_clip := r;
                      play_id := id c;
                      play_offset := (offset_at c t);
                      play_gain := getClipGain (id c) s0 |}])
        else (s0, ps0)
    | None => (s0, ps0)
    end.
Proof.
  unfold play_due, _playClip. cbn [fst snd].
  destruct (h !! r) as [c|]; [|done].
  destruct (in_window c t); [|done].
  destruct (audioContext s0) eqn:E; cbn; [|by rewrite app_nil_r].
  destruct (bool_decide (is_Some (audioBuffer c))); cbn; [done|].
  by rewrite app_nil_r.
Qed.

Lemma playClips_fold (h : list clip) (t : Q) (cs : list ref) :
  forall (s0 : state) (ps0 : list play),
    exists ps : list play,
      snd (fold_left (play_due h t) cs (s0, ps0)) = ps0 ++ ps /\
      map play_clip ps
      = (if audioContext s0 then List.filter (due h t) cs else []) /\
      activeClipSources (fst (fold_left (play_due h t) cs (s0, ps0)))
      = activeClipSources s0 ++ map entry_of ps /\
      map play_source ps = seq (nodes s0) (length ps) /\
      nodes (fst (fold_left (play_due h t) cs (s0, ps0)))
      = (nodes s0 + length ps)%nat /\
      audioContext (fst (fold_left (play_due h t) cs (s0, ps0)))
      = audioContext s0 /\
      clipGains (fst (fold_left (play_due h t) cs (s0, ps0)))
      = clipGains s0 /\
      masterGain (fst (fold_left (play_due h t) cs (s0, ps0)))
      = masterGain s0 /\
      Forall (started_from h t s0) ps.
Proof.
  induction cs as [|r cs IH]; intros s0 ps0.
  - exists []. cbn. rewrite !app_nil_r, Nat.add_0_r.
    destruct (audioContext s0); repeat split; constructor.
  - cbn [fold_left List.filter]. rewrite play_due_step. unfold due at 1.
    destruct (h !! r) as [c|] eqn:Hr.
    2:{ exact (IH s0 ps0). }
    destruct (in_window c t) eqn:Hw; cbn [andb].
    2:{ exact (IH s0 ps0). }
    destruct (audioContext s0) eqn:Hctx; cbn [andb].
    2:{ destruct (IH s0 ps0) as (ps & H).
        exists ps. by rewrite Hctx in H. }
    destruct (bool_decide (is_Some (audioBuffer c))) eqn:Hb.
    2:{ destruct (IH s0 ps0) as (ps & H).
        exists ps. by rewrite Hctx in H. }
    set (p := {| play_source := nodes s0; play_clip := r; play_id := id c;
                 play_offset := (offset_at c t);
                 play_gain := getClipGain (id c) s0 |}).
    set (s1 := {| audioContext := true;
                  masterGain := masterGain s0;
                  activeClipSources := activeClipSources s0 ++ _;
                  clipGains := clipGains s0; nodes := S (nodes s0) |}).
    destruct (IH s1 (ps0 ++ [p]))
      as (ps & H1 & H2 & H3 & H4 & H5 & H6 & H7 & H8 & H9).
    exists (p :: ps).
    rewrite H1, H3, H5, H6, H7, H8.
    cbn [audioContext s1] in H2.
    refine (conj _ (conj _ (conj _ (conj _ (conj _ (conj _ (conj _ (conj _ _)))))))).
    + by rewrite <- app_assoc.
    + cbn [map]. by rewrite H2.
    + cbn [activeClipSources s1 map]. by rewrite <- app_assoc.
    + cbn [map length seq]. by rewrite H4.
    + cbn [nodes s1 length]. lia.
    + by cbn.
    + by cbn.
    + by cbn.
    + constructor.
      * exists c. by cbn.
      * eapply Forall_impl; [exact H9|]. intros q.
        by apply started_from_ext.
Qed.

Lemma check_clip_step (h : list clip) (t : Q) (st : gset Z) (s0 : state)
    (ps0 : list play) (r : ref) :
  check_clip h t (st, s0, ps0) r
  = match h !! r with
    | Some c =>
        if in_window c t && negb (bool_decide (id c ∈ st)) then
          if audioContext s0 && bool_decide (is_Some (audioBuffer c)) then
            ({[id c]} ∪ st,
             {| audioContext := true; masterGain := masterGain s0;
                activeClipSources :=
                  activeClipSources s0 ++
                    [{| source := nodes s0;
                        gainValue := getClipGain (id c) s0;
                        clipId := id c |}];
                clipGains := clipGains s0; nodes := S (nodes s0) |},
             ps0 ++ [{| play_source := nodes s0; play_clip := r;
                        play_id := id c;
                        play_offset := (offset_at c t);
                        play_gain := getClipGain (id c) s0 |}])
          else ({[id c]} ∪ st, s0, ps0)
        else (st, s0, ps0)
    | None => (st, s0, ps0)
    end.
Proof.
  unfold check_clip, _playClip.
  destruct (h !! r) as [c|]; [|done].
  destruct (in_window c t && negb (bool_decide (id c ∈ st))); [|done].
  destruct (audioContext s0) eqn:E; cbn; [|by rewrite app_nil_r].
  destruct (bool_decide (is_Some (audioBuffer c))); cbn; [done|].
  by rewrite app_nil_r.
Qed.

Lemma check_fold (h : list clip) (t : Q) (l : list ref) :
  forall (st : gset Z) (s0 : state) (ps0 : list play),
    exists ps : list play,
      snd (fold_left (check_clip h t) l (st, s0, ps0)) = ps0 ++ ps /\
      activeClipSources (snd (fst (fold_left (check_clip h t) l (st, s0, ps0))))
      = activeClipSources s0 ++ map entry_of ps /\
      masterGain (snd (fst (fold_left (check_clip h t) l (st, s0, ps0))))
      = masterGain s0 /\
      (audioContext s0 = false ->
       ps = [] /\ snd (fst (fold_left (check_clip h t) l (st, s0, ps0))) = s0).
Proof.
  induction l as [|r l IH]; intros st s0 ps0.
  - exists []. cbn. by rewrite !app_nil_r.
  - cbn [fold_left]. rewrite check_clip_step.
    destruct (h !! r) as [c|] eqn:Hr.
    2:{ exact (IH st s0 ps0). }
    destruct (in_window c t && negb (bool_decide (id c ∈ st))).
    2:{ exact (IH st s0 ps0). }
    destruct (audioContext s0 && bool_decide (is_Some (audioBuffer c))) eqn:E.
    2:{ exact (IH ({[id c]} ∪ st) s0 ps0). }
    apply andb_prop in E as (E1 & _).
    set (p := {| play_source := nodes s0; play_clip := r; play_id := id c;
                 play_offset := (offset_at c t);
                 play_gain := getClipGain (id c) s0 |}).
    set (s1 := {| audioContext := true;
                  masterGain := masterGain s0;
                  activeClipSources := activeClipSources s0 ++ _;
                  clipGains := clipGains s0; nodes := S (nodes s0) |}).
    destruct (IH ({[id c]} ∪ st) s1 (ps0 ++ [p])) as (ps & H1 & H2 & H3 & H4).
    exists (p :: ps). rewrite H1, H2, H3.
    split; [by rewrite <- app_assoc|].
    split; [cbn [activeClipSources s1 map]; by rewrite <- app_assoc|].
    split; [done|]. intros Hf. congruence.
Qed.

Lemma update_first_twice (i : Z) (g g' : Q) (l : list activeSource) :
  update_first i g' (update_first i g l) = update_first i g' l.
Proof.
  induction l as [|a l IH]; [done|]. cbn [update_first].
  destruct (bool_decide (clipId a = i)) eqn:E; cbn [update_first].
  - cbn [clipId set_gainValue]. by rewrite E.
  - by rewrite E, IH.
Qed.

Lemma update_first_comm (i j : Z) (g g' : Q) (l : list activeSource) :
  i <> j ->
  update_first i g (update_first j g' l)
  = update_first j g' (update_first i g l).
Proof.
  intros Hij. induction l as [|a l IH]; [done|]. cbn [update_first].
  destruct (bool_decide (clipId a = j)) eqn:Ej,
    (bool_decide (clipId a = i)) eqn:Ei; cbn [update_first clipId set_gainValue];
    rewrite ?Ej, ?Ei; try reflexivity.
  - apply bool_decide_eq_true in Ej, Ei. congruence.
  - by rewrite IH.
Qed.

End EngineMore.

(** X12.  [playClipsAtTime(clips, t)] stops what was sounding and
    then starts, in array order, exactly the entries that exist, pass
    the window test [t >= startTime && t < startTime + duration] as
    evaluated in binary64, and have a buffer (none at all without an
    audio context); every source starts at offset [t - startTime],
    the double the subtraction gives, through the gain stored for its
    clip; the live sources afterwards are exactly the ones started;
    stored gains and the master gain are not touched.  A clip of 0.7 s
    at 0.1 s is not started at the double just below 0.8, which is
    what 0.1 + 0.7 rounds to; a clip at 0.1 s is started at 1.1 from
    offset 1. *)
Theorem playClipsAtTime_starts_the_due_clips
    (h : list Recorder.clip) (cs : list Recorder.ref) (t : Q)
    (s : AudioEngine.state) :
  let s' := fst (AudioEngine.playClipsAtTime h cs t s) in
  let ps := snd (AudioEngine.playClipsAtTime h cs t s) in
  map AudioEngine.play_clip ps
  = (if AudioEngine.audioContext s then List.filter (due h t) cs else []) /\
  AudioEngine.activeClipSources s' = map entry_of ps /\
  Forall (started_from h t s) ps /\
  NoDup (map AudioEngine.play_source ps) /\
  AudioEngine.clipGains s' = AudioEngine.clipGains s /\
  AudioEngine.masterGain s' = AudioEngine.masterGain s /\
  (let e := AudioEngine.init AudioEngine.initial in
   let c := {| Recorder.id := 1; Recorder.startTime := 1 # 10;
               Recorder.duration := 7 # 10;
               Recorder.audioBuffer := Some Spec.three_seconds |} in
   let c' := {| Recorder.id := 1; Recorder.startTime := 1 # 10;
                Recorder.duration := 2;
                Recorder.audioBuffer := Some Spec.three_seconds |} in
   snd (AudioEngine.playClipsAtTime [c] [0%nat]
          (7205759403792793 # 9007199254740992) e) = [] /\
   map AudioEngine.play_offset
     (snd (AudioEngine.playClipsAtTime [c'] [0%nat] (11 # 10) e))
   = [JS.Fin 1]).
Proof.
  cbn zeta. rewrite playClipsAtTime_fold.
  destruct (playClips_fold h t cs (AudioEngine.stopAllClips s) [])
    as (ps & H1 & H2 & H3 & H4 & _ & _ & H7 & H8 & H9).
  cbn [app] in H1. rewrite H1, H3, H7, H8.
  refine (conj H2 (conj eq_refl (conj _ (conj _ (conj eq_refl
            (conj eq_refl _)))))).
  - eapply Forall_impl; [exact H9|]. intros p. by apply started_from_ext.
  - rewrite H4. apply NoDup_seq.
  - vm_compute. split; reflexivity.
Qed.

(** X13.  A tick made while the engine has no audio context starts
    nothing and leaves the engine as it is, yet it marks every clip
    that is due as started: no later tick of that scheduler starts
    such a clip, whatever the engine, the clips and the time are
    then. *)
Theorem scheduler_marks_clips_it_could_not_start
    (sc : AudioEngine.scheduler) (h : list Recorder.clip) (t : Q)
    (s : AudioEngine.state) :
  AudioEngine.audioContext s = false ->
  let sc' := fst (fst (AudioEngine.checkTime sc h t s)) in
  snd (AudioEngine.checkTime sc h t s) = [] /\
  snd (fst (AudioEngine.checkTime sc h t s)) = s /\
  forall (r : Recorder.ref) (c : Recorder.clip),
    r ∈ AudioEngine.sched_clips sc -> h !! r = Some c ->
    AudioEngine.in_window c t = true ->
    (Recorder.id c ∈ AudioEngine.started sc') /\
    forall (later : list (list Recorder.clip * AudioEngine.state * Q))
           (p : AudioEngine.play),
      p ∈ snd (AudioEngine.ticks sc' later) ->
      AudioEngine.play_id p <> Recorder.id c.
Proof.
  intros Hctx sc'.
  destruct (check_fold h t (AudioEngine.sched_clips sc)
              (AudioEngine.started sc) s []) as (ps & H1 & _ & _ & H4).
  destruct (H4 Hctx) as (-> & Hs).
  pose proof (checkTime_inv sc h t s) as (Hinv & _).
  fold sc' in Hinv.
  unfold AudioEngine.checkTime in *.
  destruct (fold_left _ _ _) as [[st s'] ps'] eqn:E.
  cbn [fst snd] in *. subst ps' s'.
  split; [done|]. split; [done|].
  intros r c Hr Hc Hw.
  destruct Hinv as (_ & _ & Hst & _).
  assert (Hin : Recorder.id c ∈ AudioEngine.started sc').
  { apply Hst. right. by exists r, c. }
  split; [exact Hin|].
  intros later p Hp Heq.
  destruct (ticks_once later sc') as (_ & Hnot).
  apply (Hnot p Hp). by rewrite Heq.
Qed.

Lemma scheduler_marks_clips_it_could_not_start_witness :
  let sc := AudioEngine.createClipScheduler
              (Recorder.getAllClips Spec.one_clip) in
  let h := Recorder.heap Spec.one_clip in
  let sc' := fst (fst (AudioEngine.checkTime sc h (5 # 2)
                         AudioEngine.initial)) in
  AudioEngine.audioContext AudioEngine.initial = false /\
  snd (AudioEngine.checkTime sc h (5 # 2) AudioEngine.initial) = [] /\
  snd (AudioEngine.ticks sc'
         [(h, AudioEngine.init AudioEngine.initial, 3%Q)]) = [].
Proof.
  assert (H1 : AudioEngine.audioContext AudioEngine.initial = false)
    by reflexivity.
  refine (conj H1 (conj _ _)).
  - exact (proj1 (scheduler_marks_clips_it_could_not_start
                    (AudioEngine.createClipScheduler
                       (Recorder.getAllClips Spec.one_clip))
                    (Recorder.heap Spec.one_clip) (5 # 2)
                    AudioEngine.initial H1)).
  - vm_compute. reflexivity.
Defined.

(** X14.  [setClipVolume] composes like a write to a map: the last
    gain set for an id wins, writes to different ids commute, a write
    to one id leaves the gain of every other id alone, and neither
    [stopAllClips] nor [setMasterVolume] changes a stored gain. *)
Theorem setClipVolume_composes
    (i j : Z) (g g' : Q) (s : AudioEngine.state) :
  AudioEngine.setClipVolume i g' (AudioEngine.setClipVolume i g s)
  = AudioEngine.setClipVolume i g' s /\
  (i <> j ->
   AudioEngine.setClipVolume i g (AudioEngine.setClipVolume j g' s)
   = AudioEngine.setClipVolume j g' (AudioEngine.setClipVolume i g s)) /\
  (i <> j ->
   AudioEngine.getClipGain j (AudioEngine.setClipVolume i g s)
   = AudioEngine.getClipGain j s) /\
  AudioEngine.getClipGain i (AudioEngine.setClipVolume i g s) = g /\
  AudioEngine.getClipGain i
    (AudioEngine.stopAllClips (AudioEngine.setClipVolume i g s)) = g /\
  AudioEngine.getClipGain i
    (AudioEngine.setMasterVolume g' (AudioEngine.setClipVolume i g s)) = g.
Proof.
  refine (conj _ (conj _ (conj _ (conj _ (conj _ _))))).
  - unfold AudioEngine.setClipVolume. cbn.
    by rewrite update_first_twice, insert_insert_eq.
  - intros Hij. unfold AudioEngine.setClipVolume. cbn.
    rewrite (update_first_comm i j g g') by done.
    by rewrite (insert_insert_ne (AudioEngine.clipGains s) i j) by done.
  - intros Hij. unfold AudioEngine.getClipGain, AudioEngine.setClipVolume. cbn.
    by rewrite lookup_insert_ne.
  - unfold AudioEngine.getClipGain, AudioEngine.setClipVolume. cbn.
    by rewrite lookup_insert_eq.
  - unfold AudioEngine.getClipGain, AudioEngine.setClipVolume. cbn.
    by rewrite lookup_insert_eq.
  - unfold AudioEngine.getClipGain, AudioEngine.setMasterVolume,
      AudioEngine.setClipVolume. cbn.
    destruct (AudioEngine.audioContext s); cbn; by rewrite lookup_insert_eq.
Qed.

(** ** The application: live sources and gains *)

Section AppMore.
Import WebAudio Recorder AudioEngine.

Lemma checkTime_voices (sc : scheduler) (h : list clip) (t : Q) (s : state) :
  NoDup (map clipId (activeClipSources s)) ->
  (forall x, x ∈ activeClipSources s -> clipId x ∈ started sc) ->
  NoDup (map clipId (activeClipSources (snd (fst (checkTime sc h t s))))) /\
  (forall x,
     x ∈ activeClipSources (snd (fst (checkTime sc h t s))) ->
     clipId x ∈ started (fst (fst (checkTime sc h t s)))).
Proof.
  intros Hnd Hin.
  destruct (check_fold h t (sched_clips sc) (started sc) s [])
    as (ps & H1 & H2 & _).
  pose proof (checkTime_inv sc h t s) as (Hinv & _).
  unfold checkTime in *.
  destruct (fold_left _ _ _) as [[st s'] ps'] eqn:E.
  cbn [fst snd started app] in *. subst ps'.
  destruct Hinv as (_ & _ & Hst & Hids & Hps & _).
  rewrite H2, map_app, map_map.
  assert (Em : map (fun p => clipId (entry_of p)) ps = map play_id ps)
    by (by apply map_ext).
  rewrite Em. split.
  - apply NoDup_app. split; [done|]. split; [|done].
    intros i Hi Hi'.
    apply list_elem_of_fmap in Hi as (x & -> & Hx).
    apply list_elem_of_fmap in Hi' as (p & Hp & Hpin).
    destruct (Hps p Hpin) as (Hnot & _).
    apply Hnot. rewrite <- Hp. by apply Hin.
  - intros x Hx. apply elem_of_app in Hx as [Hx|Hx].
    + apply Hst. left. by apply Hin.
    + apply list_elem_of_fmap in Hx as (p & -> & Hpin).
      by destruct (Hps p Hpin) as (_ & ? & _).
Qed.

Lemma restart_voices (a : App.state) :
  one_voice (fst (App._restartClipPlayback a)).
Proof.
  unfold App._restartClipPlayback.
  destruct (App.playing a && hasRecordings (App.recorder a)).
  - pose proof (checkTime_voices
                  (createClipScheduler (getAllClips (App.recorder a)))
                  (heap (App.recorder a)) (App.videoTime a)
                  (stopAllClips (App.engine a))) as H.
    destruct (checkTime _ _ _ _) as [[sc' e2] ps].
    cbn [fst snd] in *. unfold one_voice. cbn.
    apply H; cbn; [constructor|]. intros x Hx. by apply elem_of_nil in Hx.
  - cbn. split; [constructor|done].
Qed.

Lemma voices_frame (a a' : App.state) :
  App.engine a' = App.engine a -> App.clipScheduler a' = App.clipScheduler a ->
  one_voice a -> one_voice a'.
Proof. unfold one_voice. by intros -> ->. Qed.

Lemma completion_voices (out : Recorder.state * option ref) (a : App.state) :
  one_voice a -> one_voice (fst (App.completion out a)).
Proof.
  intros H. unfold App.completion.
  destruct (snd out) as [r|]; [|by apply (voices_frame a)].
  destruct (heap (fst out) !! r) as [c|]; [|by apply (voices_frame a)].
  apply restart_voices.
Qed.

Lemma step_voices (a : App.state) (e : App.event) :
  one_voice a -> one_voice (fst (App.step a e)).
Proof.
  intros H. destruct e; cbn [App.step fst].
  - by apply (voices_frame a).
  - unfold App.onTimeUpdate. cbn [App.clipScheduler App.with_videoTime].
    destruct (App.clipScheduler a) as [sc|] eqn:Esc.
    + destruct H as (Hnd & Hin). rewrite Esc in Hin.
      pose proof (checkTime_voices sc (heap (App.recorder a)) currentTime
                    (App.engine a) Hnd Hin) as Hv.
      cbn [App.recorder App.engine App.with_videoTime].
      destruct (checkTime _ _ _ _) as [[sc' e'] ps].
      cbn [fst snd] in *. unfold one_voice. cbn. exact Hv.
    + cbn [fst]. apply (voices_frame a); [done| |done]. by rewrite Esc.
  - unfold App.onSeek. destruct (App.isRecordingMode a); [done|].
    apply restart_voices.
  - apply restart_voices.
  - unfold App._togglePlay. destruct (App.playing a); [|apply restart_voices].
    cbn. unfold one_voice. cbn. split; [constructor|].
    destruct (App.clipScheduler a); [|done].
    intros x Hx. by apply elem_of_nil in Hx.
  - unfold App.onEnded, App._finishRecording. cbn.
    destruct (App.isRecordingMode a); by apply (voices_frame a).
  - unfold App.onRecordClick.
    destruct (App.isRecordingMode a); [done|].
    cbn [App.playing App.with_isRecordingMode].
    destruct (App.playing a);
      destruct (startRecording _ _ _) as [r []]; by apply (voices_frame a).
  - unfold App._finishRecording.
    destruct (App.isRecordingMode a); by apply (voices_frame a).
  - by apply (voices_frame a).
  - by apply completion_voices.
  - by apply completion_voices.
  - apply restart_voices.
  - apply restart_voices.
  - destruct H as (Hnd & Hin). unfold one_voice. cbn. split.
    + clear Hin. induction (activeClipSources (App.engine a)) as [|x l IH];
        [constructor|].
      cbn [map] in Hnd. apply NoDup_cons in Hnd as (Hx & Hl).
      rewrite filter_cons. destruct (decide _); [|by apply IH].
      cbn [map]. apply NoDup_cons. split; [|by apply IH].
      intros Hin. apply Hx.
      apply list_elem_of_fmap in Hin as (y & -> & Hy).
      apply list_elem_of_filter in Hy as (_ & Hy).
      apply list_elem_of_fmap. by exists y.
    + destruct (App.clipScheduler a).
      * intros x Hx. apply list_elem_of_filter in Hx as (_ & Hx). by apply Hin.
      * by rewrite Hin.
Qed.

Lemma run_voices (es : list App.event) :
  forall a : App.state, one_voice a -> one_voice (App.run es a).
Proof.
  induction es as [|e es IH]; intros a H; [done|].
  apply (IH (fst (App.step a e))), step_voices, H.
Qed.

Lemma update_first_all (i : Z) (g : Q) (l : list activeSource) :
  NoDup (map clipId l) ->
  update_first i g l
  = map (fun a => if bool_decide (clipId a = i) then set_gainValue g a else a)
      l.
Proof.
  induction l as [|a l IH]; [done|]. cbn [map update_first].
  intros Hnd. apply NoDup_cons in Hnd as (Ha & Hl).
  destruct (bool_decide (clipId a = i)) eqn:E; [|by rewrite IH].
  f_equal. apply bool_decide_eq_true in E.
  clear IH Hl. induction l as [|b l IH]; [done|].
  cbn [map] in Ha |- *. rewrite not_elem_of_cons in Ha.
  destruct Ha as (Hb & Ha).
  rewrite bool_decide_eq_false_2 by congruence.
  by rewrite <- IH.
Qed.

(** The stored gains under the application's events. *)

Lemma checkTime_gains (sc : scheduler) (h : list clip) (t : Q) (s : state) :
  clipGains (snd (fst (checkTime sc h t s))) = clipGains s.
Proof. by destruct (checkTime_inv sc h t s) as ((_ & H & _) & _). Qed.

Lemma restart_gains (a : App.state) :
  clipGains (App.engine (fst (App._restartClipPlayback a)))
  = clipGains (App.engine a).
Proof.
  unfold App._restartClipPlayback.
  destruct (App.playing a && hasRecordings (App.recorder a)); [|done].
  pose proof (checkTime_gains
                (createClipScheduler (getAllClips (App.recorder a)))
                (heap (App.recorder a)) (App.videoTime a)
                (stopAllClips (App.engine a))) as H.
  destruct (checkTime _ _ _ _) as [[sc' e2] ps]. exact H.
Qed.

Lemma restart_played (a : App.state) (p : play) :
  p ∈ snd (App._restartClipPlayback a) ->
  exists c, play_gain p = getClipGain (id c) (App.engine a).
Proof.
  unfold App._restartClipPlayback.
  destruct (App.playing a && hasRecordings (App.recorder a)).
  2:{ intros H. by apply elem_of_nil in H. }
  pose proof (checkTime_inv
                (createClipScheduler (getAllClips (App.recorder a)))
                (heap (App.recorder a)) (App.videoTime a)
                (stopAllClips (App.engine a))) as ((_ & _ & _ & _ & H & _) & _).
  destruct (checkTime _ _ _ _) as [[sc' e2] ps]. cbn [fst snd] in *.
  intros Hp. destruct (H p Hp) as (_ & _ & c & _ & _ & _ & _ & _ & Hg).
  by exists c.
Qed.

Lemma getClipGain_default (e : state) (i : Z) :
  gains_default e -> getClipGain i e = 4 # 5.
Proof.
  intros H. unfold getClipGain.
  destruct (clipGains e !! i) as [g|] eqn:E; [by apply (H i)|done].
Qed.

Lemma gains_ext (e e' : state) :
  clipGains e' = clipGains e -> gains_default e -> gains_default e'.
Proof. unfold gains_default. by intros ->. Qed.

Lemma completion_gains (out : Recorder.state * option ref) (a : App.state) :
  gains_default (App.engine a) ->
  gains_default (App.engine (fst (App.completion out a))) /\
  forall p, p ∈ snd (App.completion out a) -> play_gain p = 4 # 5.
Proof.
  intros H. unfold App.completion.
  destruct (snd out) as [r|].
  2:{ split; [done|]. intros p Hp. by apply elem_of_nil in Hp. }
  destruct (heap (fst out) !! r) as [c|].
  2:{ split; [done|]. intros p Hp. by apply elem_of_nil in Hp. }
  unfold App.onRecordingComplete.
  assert (Hset : gains_default (setClipVolume (id c) (4 # 5) (App.engine a))).
  { intros i g. unfold setClipVolume. cbn.
    destruct (decide (i = id c)) as [->|Hne].
    - rewrite lookup_insert_eq. by intros [= <-].
    - rewrite lookup_insert_ne by done. apply H. }
  split.
  - eapply gains_ext; [apply restart_gains|]. exact Hset.
  - intros p Hp. apply restart_played in Hp as (c' & ->).
    by apply getClipGain_default.
Qed.

Lemma step_gains (a : App.state) (e : App.event) :
  gains_default (App.engine a) ->
  gains_default (App.engine (fst (App.step a e))) /\
  forall p, p ∈ snd (App.step a e) -> play_gain p = 4 # 5.
Proof.
  intros H.
  assert (Hnil : forall p : play, p ∈ @nil play -> play_gain p = 4 # 5).
  { intros p Hp. by apply elem_of_nil in Hp. }
  assert (Hrestart : forall a' : App.state,
             clipGains (App.engine a') = clipGains (App.engine a) ->
             gains_default (App.engine (fst (App._restartClipPlayback a'))) /\
             forall p, p ∈ snd (App._restartClipPlayback a') ->
                       play_gain p = 4 # 5).
  { intros a' E. split.
    - eapply gains_ext; [apply restart_gains|]. by eapply gains_ext.
    - intros p Hp. apply restart_played in Hp as (c' & ->).
      apply getClipGain_default. by eapply gains_ext. }
  destruct e; cbn [App.step fst snd].
  - by split.
  - unfold App.onTimeUpdate. cbn [App.clipScheduler App.with_videoTime].
    destruct (App.clipScheduler a) as [sc|]; [|by split].
    cbn [App.recorder App.engine App.with_videoTime].
    pose proof (checkTime_inv sc (heap (App.recorder a)) currentTime
                  (App.engine a)) as ((_ & Hg & _ & _ & Hps & _) & _).
    destruct (checkTime _ _ _ _) as [[sc' e'] ps]. cbn [fst snd] in *.
    split.
    + cbn. by eapply gains_ext.
    + intros p Hp. destruct (Hps p Hp) as (_ & _ & c & _ & _ & _ & _ & _ & ->).
      by apply getClipGain_default.
  - unfold App.onSeek. destruct (App.isRecordingMode a); [by split|].
    by apply Hrestart.
  - by apply Hrestart.
  - unfold App._togglePlay. destruct (App.playing a); [by split|].
    by apply Hrestart.
  - split; [|done]. unfold App.onEnded, App._finishRecording. cbn.
    by destruct (App.isRecordingMode a).
  - split; [|done]. unfold App.onRecordClick.
    destruct (App.isRecordingMode a); [done|].
    cbn [App.playing App.with_isRecordingMode].
    by destruct (App.playing a); destruct (startRecording _ _ _) as [r []].
  - split; [|done]. unfold App._finishRecording.
    by destruct (App.isRecordingMode a).
  - by split.
  - by apply completion_gains.
  - by apply completion_gains.
  - by apply Hrestart.
  - by apply Hrestart.
  - by split.
Qed.

Lemma run_gains (es : list App.event) :
  forall a : App.state,
    gains_default (App.engine a) ->
    gains_default (App.engine (App.run es a)) /\
    forall p, p ∈ played es a -> play_gain p = 4 # 5.
Proof.
  induction es as [|e es IH]; intros a H.
  - split; [done|]. intros p Hp. by apply elem_of_nil in Hp.
  - destruct (step_gains a e H) as (H1 & H2).
    destruct (IH _ H1) as (H3 & H4).
    split; [exact H3|].
    intros p Hp. cbn [played] in Hp.
    apply elem_of_app in Hp as [Hp|Hp]; [by apply H2|by apply H4].
Qed.

End AppMore.

(** X15.  In the application, whatever events occur, no clip id has
    two live sources at once; hence a gain set for an id reaches every
    live source of that clip. *)
Theorem app_one_source_per_clip (es : list App.event) :
  let e := App.engine (App.run es App.initial) in
  NoDup (map AudioEngine.clipId (AudioEngine.activeClipSources e)) /\
  forall (i : Z) (g : Q) (a : AudioEngine.activeSource),
    a ∈ AudioEngine.activeClipSources (AudioEngine.setClipVolume i g e) ->
    AudioEngine.clipId a = i -> AudioEngine.gainValue a = g.
Proof.
  intros e.
  assert (Hv : one_voice (App.run es App.initial)).
  { apply run_voices. split; [constructor|done]. }
  destruct Hv as (Hnd & _). fold e in Hnd.
  split; [exact Hnd|].
  intros i g a Ha Hi. unfold AudioEngine.setClipVolume in Ha. cbn in Ha.
  rewrite (update_first_all i g _ Hnd) in Ha.
  apply list_elem_of_fmap in Ha as (b & -> & _).
  destruct (bool_decide (AudioEngine.clipId b = i)) eqn:E; [done|].
  apply bool_decide_eq_false in E. by destruct E.
Qed.

(** X16.  In the application every stored gain is 0.8 at all times
    (its only write is the 0.8 of the recording-complete callback):
    [getClipGain] answers 0.8 for every id, and every source the
    application starts plays through a gain of 0.8. *)
Theorem app_plays_every_clip_at_default_gain (es : list App.event) :
  (forall i : Z,
     AudioEngine.getClipGain i (App.engine (App.run es App.initial)) = 4 # 5) /\
  (forall p : AudioEngine.play,
     p ∈ played es App.initial -> AudioEngine.play_gain p = 4 # 5).
Proof.
  assert (H0 : gains_default (App.engine App.initial)).
  { intros i g H. cbn in H. by rewrite lookup_empty in H. }
  destruct (run_gains es App.initial H0) as (H1 & H2).
  split; [|exact H2]. intros i. by apply getClipGain_default.
Qed.

Section Silence.
Import WebAudio Recorder AudioEngine.

Lemma no_window (c : clip) (t : Q) :
  (duration c <= 0)%Q -> in_window c t = false.
Proof.
  intros Hd. apply not_true_iff_false. rewrite in_window_iff.
  intros [H1 H2].
  pose proof (double_mono _ _ Hd) as Hd'.
  change (JS.double 0) with (JS.Fin 0) in Hd'.
  destruct (add_nonpos (startTime c) _ Hd') as [E | E].
  - rewrite E in H2. by destruct (JS.double t).
  - exact (lt_le_le_cycle _ _ _ H2 E H1).
Qed.

Lemma checkTime_played (sc : scheduler) (h : list clip) (t : Q) (s : state)
    (p : play) :
  p ∈ snd (checkTime sc h t s) ->
  exists c : clip,
    play_clip p ∈ sched_clips sc /\ h !! play_clip p = Some c /\
    play_id p = id c /\ in_window c t = true.
Proof.
  intros Hp.
  destruct (checkTime_inv sc h t s) as ((_ & _ & _ & _ & H & _) & _).
  destruct (H p Hp) as (_ & _ & c & H1 & H2 & H3 & H4 & _).
  by exists c.
Qed.

Lemma restart_played_from (a : App.state) (p : play) :
  p ∈ snd (App._restartClipPlayback a) ->
  exists c : clip,
    play_clip p ∈ getAllClips (App.recorder a) /\
    heap (App.recorder a) !! play_clip p = Some c /\ play_id p = id c.
Proof.
  unfold App._restartClipPlayback.
  destruct (App.playing a && hasRecordings (App.recorder a)).
  2:{ intros H. by apply elem_of_nil in H. }
  pose proof (checkTime_played
                (createClipScheduler (getAllClips (App.recorder a)))
                (heap (App.recorder a)) (App.videoTime a)
                (stopAllClips (App.engine a)) p) as H.
  destruct (checkTime _ _ _ _) as [[sc' e2] ps]. cbn [fst snd] in *.
  intros Hp. destruct (H Hp) as (c & H1 & H2 & H3 & _). by exists c.
Qed.

Lemma restart_active (a : App.state) :
  activeClipSources (App.engine (fst (App._restartClipPlayback a)))
  = map entry_of (snd (App._restartClipPlayback a)).
Proof.
  unfold App._restartClipPlayback.
  destruct (App.playing a && hasRecordings (App.recorder a)); [|done].
  destruct (check_fold (heap (App.recorder a)) (App.videoTime a)
              (getAllClips (App.recorder a)) ∅
              (stopAllClips (App.engine a)) []) as (ps & H1 & H2 & _).
  unfold checkTime. cbn [sched_clips started createClipScheduler].
  destruct (fold_left _ _ _) as [[st e2] ps'].
  cbn [fst snd app] in *. subst ps'. exact H2.
Qed.

Lemma restart_scheduler_clips (a : App.state) :
  App.recorder (fst (App._restartClipPlayback a)) = App.recorder a /\
  forall sc,
    App.clipScheduler (fst (App._restartClipPlayback a)) = Some sc ->
    sched_clips sc = getAllClips (App.recorder a).
Proof.
  pose proof (restart_scheduler a) as (H1 & H2). cbn zeta in H1, H2.
  split; [exact H1|]. intros sc E. rewrite E in H2. by rewrite H2, H1.
Qed.

Lemma ticks_played (es : list App.event) :
  Forall (fun e => is_tick e = true) es ->
  forall (a : App.state) (p : play),
    p ∈ played es a ->
    exists (sc : scheduler) (c : clip),
      App.clipScheduler a = Some sc /\
      play_clip p ∈ sched_clips sc /\
      heap (App.recorder a) !! play_clip p = Some c /\ play_id p = id c.
Proof.
  induction 1 as [|e es He Hes IH]; intros a p Hp.
  { by apply elem_of_nil in Hp. }
  cbn [played] in Hp. apply elem_of_app in Hp as [Hp|Hp].
  - destruct e; try discriminate He; cbn [App.step snd] in Hp;
      try (by apply elem_of_nil in Hp).
    unfold App.onTimeUpdate in Hp.
    cbn [App.clipScheduler App.with_videoTime App.recorder App.engine] in Hp.
    destruct (App.clipScheduler a) as [sc|] eqn:Esc;
      [|by apply elem_of_nil in Hp].
    pose proof (checkTime_played sc (heap (App.recorder a)) currentTime
                  (App.engine a) p) as H.
    destruct (checkTime _ _ _ _) as [[sc' e'] ps]. cbn [fst snd] in *.
    destruct (H Hp) as (c & H1 & H2 & H3 & _). by exists sc, c.
  - destruct (IH _ _ Hp) as (sc' & c & E & H1 & H2 & H3).
    assert (Hstep : App.recorder (fst (App.step a e)) = App.recorder a /\
                    exists sc, App.clipScheduler a = Some sc /\
                               sched_clips sc = sched_clips sc').
    { destruct e; try discriminate He; cbn [App.step fst] in E |- *.
      - split; [done|]. by exists sc'.
      - unfold App.onTimeUpdate in *.
        cbn [App.clipScheduler App.with_videoTime App.recorder App.engine]
          in *.
        destruct (App.clipScheduler a) as [sc|] eqn:Esc.
        + pose proof (checkTime_clips sc (heap (App.recorder a)) currentTime
                        (App.engine a)) as Hc.
          destruct (checkTime _ _ _ _) as [[sc1 e1] ps]. cbn [fst snd] in *.
          split; [done|]. exists sc. split; [done|].
          injection E as <-. by rewrite Hc.
        + cbn in E. by rewrite Esc in E.
      - split; [done|]. by exists sc'. }
    destruct Hstep as (Hrec & sc & Esc & Hsc).
    exists sc, c. rewrite <- Hrec, Hsc. done.
Qed.

End Silence.

(** X17.  The delete callback silences the clip: afterwards the
    recorder does not find the id, no live source belongs to it, the
    restart has not started it, and no tick of the video's clock that
    follows starts it. *)
Theorem deleted_clip_is_silenced (i : Z) (a : App.state) :
  let a' := fst (App.onClipDelete i a) in
  Recorder.getClip i (App.recorder a') = None /\
  (forall x : AudioEngine.activeSource,
     x ∈ AudioEngine.activeClipSources (App.engine a') ->
     AudioEngine.clipId x <> i) /\
  (forall p : AudioEngine.play,
     p ∈ snd (App.onClipDelete i a) -> AudioEngine.play_id p <> i) /\
  (forall (ticks : list App.event) (p : AudioEngine.play),
     Forall (fun e => is_tick e = true) ticks ->
     p ∈ played ticks a' -> AudioEngine.play_id p <> i).
Proof.
  intros a'.
  set (a0 := App.with_recorder (Recorder.deleteClip i (App.recorder a)) a).
  assert (Hlisted : forall r c,
             r ∈ Recorder.getAllClips (App.recorder a0) ->
             Recorder.heap (App.recorder a0) !! r = Some c ->
             Recorder.id c <> i).
  { intros r c Hr Hc Hi. cbn in Hr, Hc.
    apply list_elem_of_filter in Hr as (Hne & _). apply Hne.
    unfold Recorder.id_of. rewrite Hc. cbn. by rewrite Hi. }
  assert (Hplays : forall p,
             p ∈ snd (App._restartClipPlayback a0) ->
             AudioEngine.play_id p <> i).
  { intros p Hp. apply restart_played_from in Hp as (c & H1 & H2 & H3).
    rewrite H3. by apply (Hlisted (AudioEngine.play_clip p)). }
  destruct (restart_scheduler_clips a0) as (Hrec & Hsc).
  unfold a', App.onClipDelete. fold a0.
  refine (conj _ (conj _ (conj Hplays _))).
  - rewrite Hrec. cbn. apply find_filter_same.
  - intros x Hx. rewrite restart_active in Hx.
    apply list_elem_of_fmap in Hx as (p & -> & Hp). by apply Hplays.
  - intros ticks p Hticks Hp.
    destruct (ticks_played ticks Hticks _ p Hp) as (sc & c & E & H1 & H2 & H3).
    rewrite Hrec in H2. rewrite (Hsc sc E) in H1. rewrite H3.
    by apply (Hlisted (AudioEngine.play_clip p)).
Qed.

(** X18.  A clip whose duration is zero or less is in no window:
    neither a scheduler tick nor [playClipsAtTime] ever starts it. *)
Theorem empty_clips_never_play
    (h : list Recorder.clip) (r : Recorder.ref) (c : Recorder.clip) (t : Q)
    (s : AudioEngine.state) :
  h !! r = Some c -> (Recorder.duration c <= 0)%Q ->
  (forall (sc : AudioEngine.scheduler) (p : AudioEngine.play),
     p ∈ snd (AudioEngine.checkTime sc h t s) -> AudioEngine.play_clip p <> r)
  /\
  (forall (cs : list Recorder.ref) (p : AudioEngine.play),
     p ∈ snd (AudioEngine.playClipsAtTime h cs t s) ->
     AudioEngine.play_clip p <> r).
Proof.
  intros Hr Hd. pose proof (no_window c t Hd) as Hw. split.
  - intros sc p Hp Heq.
    apply checkTime_played in Hp as (c' & _ & Hc' & _ & Hw').
    rewrite Heq, Hr in Hc'. injection Hc' as <-. congruence.
  - intros cs p Hp Heq.
    rewrite playClipsAtTime_fold in Hp.
    destruct (playClips_fold h t cs (AudioEngine.stopAllClips s) [])
      as (ps & H1 & H2 & _).
    cbn [app] in H1. rewrite H1 in Hp.
    assert (Hin : AudioEngine.play_clip p ∈ map AudioEngine.play_clip ps)
      by (apply list_elem_of_fmap; by exists p).
    rewrite H2 in Hin.
    destruct (AudioEngine.audioContext (AudioEngine.stopAllClips s));
      [|by apply elem_of_nil in Hin].
    apply list_elem_of_In, filter_In in Hin as (_ & Hdue).
    unfold due in Hdue. rewrite Heq, Hr, Hw in Hdue. discriminate Hdue.
Qed.

Lemma empty_clips_never_play_witness :
  let c := {| Recorder.id := 1; Recorder.startTime := 2;
              Recorder.duration := 0;
              Recorder.audioBuffer :=
                Some {| WebAudio.sampleRate := 1;
                        WebAudio.channelData := [[]] |} |} in
  [c] !! 0%nat = Some c /\ (Recorder.duration c <= 0)%Q /\
  forall p : AudioEngine.play,
    p ∈ snd (AudioEngine.checkTime (AudioEngine.createClipScheduler [0%nat])
               [c] 2 (AudioEngine.init AudioEngine.initial)) ->
    AudioEngine.play_clip p <> 0%nat.
Proof.
  cbn zeta.
  assert (H1 : [{| Recorder.id := 1; Recorder.startTime := 2;
                   Recorder.duration := 0;
                   Recorder.audioBuffer :=
                     Some {| WebAudio.sampleRate := 1;
                             WebAudio.channelData := [[]] |} |}] !! 0%nat
               = Some {| Recorder.id := 1; Recorder.startTime := 2;
                         Recorder.duration := 0;
                         Recorder.audioBuffer :=
                           Some {| WebAudio.sampleRate := 1;
                                   WebAudio.channelData := [[]] |} |})
    by reflexivity.
  assert (H2 : (Recorder.duration
                  {| Recorder.id := 1; Recorder.startTime := 2;
                     Recorder.duration := 0;
                     Recorder.audioBuffer :=
                       Some {| WebAudio.sampleRate := 1;
                               WebAudio.channelData := [[]] |} |} <= 0)%Q)
    by discriminate.
  refine (conj H1 (conj H2 _)).
  exact (proj1 (empty_clips_never_play _ 0%nat _ 2
                  (AudioEngine.init AudioEngine.initial) H1 H2)
           (AudioEngine.createClipScheduler [0%nat])).
Defined.

(** ** The exporter: outcomes and progress *)

Section ExportMore.
Import JS DataView WebAudio Exporter.

Lemma wav_mono_length (b : AudioBuffer) (bytes : list Z) :
  numberOfChannels b = 1%nat -> audioBufferToWav b = Some bytes ->
  length bytes = (44 + 2 * frames b)%nat.
Proof.
  intros Hc. rewrite audioBufferToWav_unfold.
  rewrite decide_True by done.
  unfold getChannelData, frames, numberOfChannels in *.
  destruct (channelData b) as [|ch [|? ?]]; try discriminate Hc.
  cbn [lookup list_lookup mbind option_bind default].
  rewrite wav_of_spec. intros H. apply (inj Some) in H. rewrite <- H.
  repeat rewrite ?length_app, ?length_le_bytes. rewrite length_samples.
  unfold Spec.ascii_bytes. rewrite !length_map. cbn. lia.
Qed.

Lemma emit_no_download (onProgress : bool) (stage : string) (pct : Q) :
  List.filter is_download (_emit onProgress stage pct) = [] /\
  (Throw ∉ _emit onProgress stage pct) /\
  forall b m f, Download b m f ∉ _emit onProgress stage pct.
Proof.
  unfold _emit. destruct onProgress; cbn.
  - split; [done|]. split.
    + intros H. apply list_elem_of_singleton in H. discriminate H.
    + intros b m f H. apply list_elem_of_singleton in H. discriminate H.
  - split; [done|]. split.
    + apply not_elem_of_nil.
    + intros b m f. apply not_elem_of_nil.
Qed.

Lemma emit_stage (onProgress : bool) (stage stage' : string) (pct : Q)
    (p : Z) :
  stage <> stage' -> Progress stage' p ∉ _emit onProgress stage pct.
Proof.
  unfold _emit. destruct onProgress; [|intros _; apply not_elem_of_nil].
  intros H Hin. apply list_elem_of_singleton in Hin. congruence.
Qed.

Section Mixing.
Variable start : scheduledSource -> bool.

(** The loop reports progress and nothing else. *)
Lemma mix_effects (onProgress : bool) (eng : AudioEngine.state) (len : nat)
    (cs : list Recorder.clip) :
  forall i : nat,
    List.filter is_download (fst (mix start onProgress eng len i cs)) = [] /\
    (Throw ∉ fst (mix start onProgress eng len i cs)) /\
    (forall b m f,
       Download b m f ∉ fst (mix start onProgress eng len i cs)) /\
    (forall p,
       Progress "Rendering…" p ∉ fst (mix start onProgress eng len i cs)).
Proof.
  induction cs as [|c cs IH]; intros i; cbn [mix].
  - cbn. repeat split; intros; apply not_elem_of_nil.
  - destruct (start (source_of eng c)).
    + specialize (IH (S i)).
      destruct (mix start onProgress eng len (S i) cs) as [es r].
      cbn [fst] in *. destruct IH as (I1 & I2 & I3 & I4).
      destruct (emit_no_download onProgress "Mixing clips…"
                  (mixing_pct i len)) as (E1 & E2 & E3).
      rewrite List.filter_app, E1, I1. split; [done|].
      split; [rewrite elem_of_app; intros [H|H]; [by apply E2|by apply I2]|].
      split.
      * intros b m f. rewrite elem_of_app.
        intros [H|H]; [by apply (E3 b m f)|by apply (I3 b m f)].
      * intros p. rewrite elem_of_app. intros [H|H]; [|by apply (I4 p)].
        revert H. by apply emit_stage.
    + cbn. repeat split; intros; apply not_elem_of_nil.
Qed.

(** It runs to its end exactly when every source can be started, and
    has then started one source per clip, in order. *)
Lemma mix_sources (onProgress : bool) (eng : AudioEngine.state) (len : nat)
    (cs : list Recorder.clip) :
  forall (i : nat) (l : list scheduledSource),
    snd (mix start onProgress eng len i cs) = Some l ->
    l = map (source_of eng) cs /\
    Forall (fun src => start src = true) l.
Proof.
  induction cs as [|c cs IH]; intros i l; cbn [mix].
  - cbn. intros [= <-]. split; [done|constructor].
  - destruct (start (source_of eng c)) eqn:E; [|discriminate].
    specialize (IH (S i)).
    destruct (mix start onProgress eng len (S i) cs) as [es [l'|]];
      cbn [snd fmap option_fmap option_map] in *; [|discriminate].
    intros [= <-]. destruct (IH l' eq_refl) as (-> & Hall).
    split; [done|]. by constructor.
Qed.

Lemma mix_ok (onProgress : bool) (eng : AudioEngine.state) (len : nat)
    (cs : list Recorder.clip) :
  Forall (fun src => start src = true) (map (source_of eng) cs) ->
  forall i : nat,
    snd (mix start onProgress eng len i cs) = Some (map (source_of eng) cs).
Proof.
  induction cs as [|c cs IH]; intros Hall i; cbn [mix map]; [done|].
  cbn [map] in Hall. apply Forall_cons_1 in Hall as (Hc & Hall).
  rewrite Hc. specialize (IH Hall (S i)).
  destruct (mix start onProgress eng len (S i) cs) as [es r].
  cbn [snd] in *. by rewrite IH.
Qed.

(** Its percentages are those of the clips before the one it stopped
    at. *)
Lemma mix_percents (onProgress : bool) (eng : AudioEngine.state) (len : nat)
    (cs : list Recorder.clip) :
  forall i : nat,
    exists k : nat,
      (k <= length cs)%nat /\
      percents (fst (mix start onProgress eng len i cs))
      = if onProgress
        then map (fun j => round (mixing_pct j len)) (seq i k)
        else [].
Proof.
  induction cs as [|c cs IH]; intros i; cbn [mix].
  - exists 0%nat. split; [done|]. by destruct onProgress.
  - destruct (start (source_of eng c)).
    + destruct (IH (S i)) as (k & Hk & E).
      destruct (mix start onProgress eng len (S i) cs) as [es r].
      cbn [fst] in *. exists (S k). split; [cbn; lia|].
      unfold percents in *. rewrite flat_map_app, E.
      unfold _emit. by destruct onProgress.
    + exists 0%nat. split; [cbn; lia|]. by destruct onProgress.
Qed.

End Mixing.

End ExportMore.

Section Outcomes.
Import JS JSArith WebAudio Exporter.
Variable newOfflineAudioContext : nat -> number -> number -> bool.
Variable start : scheduledSource -> bool.
Variable startRendering :
  nat -> number -> number -> list scheduledSource -> option AudioBuffer.

Lemma export_cases (onProgress : bool) (rec : Recorder.state)
    (eng : AudioEngine.state) (d : number) :
  let es :=
    downloadRecordedAudio newOfflineAudioContext start startRendering
      onProgress rec eng d in
  (exists pre : list effect,
      (es = pre ++ [Throw] \/ es = [Alert "No recordings to export."]) /\
      (es = pre ++ [Throw] -> List.filter is_download pre = []) /\
      forall b m f, Download b m f ∉ es)
  \/
  (exists (pre : list effect) (first rendered : AudioBuffer) (wav : list Z),
      es = pre ++ [Download wav "audio/wav" "thiptines-day-recordings.wav"]
             ++ _emit onProgress "Done!" 100 /\
      List.filter is_download pre = [] /\ (Throw ∉ pre) /\
      (forall b m f, Download b m f ∉ pre) /\
      first_buffer rec = Some first /\
      newOfflineAudioContext 1%nat
        (Math_ceil (times d (double (sampleRate first))))
        (double (sampleRate first)) = true /\
      Forall (fun src => start src = true) (sources_of rec eng) /\
      startRendering 1%nat
        (Math_ceil (times d (double (sampleRate first))))
        (double (sampleRate first)) (sources_of rec eng)
      = Some rendered /\
      audioBufferToWav rendered = Some wav).
Proof.
  cbn zeta. unfold downloadRecordedAudio.
  destruct (Nat.eqb _ 0).
  { left. exists []. split; [by right|]. split; [done|].
    intros b m f H. apply list_elem_of_singleton in H. discriminate H. }
  set (e0 := _emit onProgress "Preparing recordings…" 0).
  destruct (emit_no_download onProgress "Preparing recordings…" 0)
    as (A1 & A2 & A3). fold e0 in A1, A2, A3.
  assert (Hearly : forall b m f, Download b m f ∉ e0 ++ [Throw]).
  { intros b m f. rewrite elem_of_app. intros [H|H]; [by apply (A3 b m f)|].
    apply list_elem_of_singleton in H. discriminate H. }
  destruct (first_buffer rec) as [first|] eqn:Hfirst.
  2:{ left. exists e0. split; [by left|]. by split. }
  destruct (newOfflineAudioContext _ _ _) eqn:Hnew; cbn [negb].
  2:{ left. exists e0. split; [by left|]. by split. }
  pose proof (mix_effects start onProgress eng
                (length (Recorder.getAllClips rec))
                (omap (fun r => Recorder.heap rec !! r)
                   (Recorder.getAllClips rec)) 0)
    as (B1 & B2 & B3 & _).
  pose proof (mix_sources start onProgress eng
                (length (Recorder.getAllClips rec))
                (omap (fun r => Recorder.heap rec !! r)
                   (Recorder.getAllClips rec)) 0) as Hsrc.
  destruct (mix start onProgress eng _ 0 _) as [e1 [sources|]];
    cbn [fst snd] in *.
  2:{ left. exists (e0 ++ e1). split; [left; by rewrite <- !app_assoc|].
      split; [intros _; by rewrite !List.filter_app, A1, B1|].
      intros b m f. rewrite !elem_of_app.
      intros [H|[H|H]]; [by apply (A3 b m f)|by apply (B3 b m f)|].
      apply list_elem_of_singleton in H. discriminate H. }
  destruct (Hsrc sources eq_refl) as (-> & Hall). clear Hsrc.
  fold (sources_of rec eng) in Hall |- *.
  set (e2 := _emit onProgress "Rendering…" 60).
  destruct (emit_no_download onProgress "Rendering…" 60) as (C1 & C2 & C3).
  fold e2 in C1, C2, C3.
  destruct (startRendering _ _ _ _) as [rendered|] eqn:Hrender.
  2:{ left. exists (e0 ++ e1 ++ e2). split; [left; by rewrite <- !app_assoc|].
      split; [intros _; by rewrite !List.filter_app, A1, B1, C1|].
      intros b m f. rewrite !elem_of_app.
      intros [H|[H|[H|H]]];
        [by apply (A3 b m f)|by apply (B3 b m f)|by apply (C3 b m f)|].
      apply list_elem_of_singleton in H. discriminate H. }
  set (e3 := _emit onProgress "Encoding WAV…" 85).
  destruct (emit_no_download onProgress "Encoding WAV…" 85) as (D1 & D2 & D3).
  fold e3 in D1, D2, D3.
  destruct (audioBufferToWav rendered) as [wav|] eqn:Hwav.
  2:{ left. exists (e0 ++ e1 ++ e2 ++ e3).
      split; [left; by rewrite <- !app_assoc|].
      split; [intros _; by rewrite !List.filter_app, A1, B1, C1, D1|].
      intros b m f. rewrite !elem_of_app.
      intros [H|[H|[H|[H|H]]]];
        [by apply (A3 b m f)|by apply (B3 b m f)|by apply (C3 b m f)
        |by apply (D3 b m f)|].
      apply list_elem_of_singleton in H. discriminate H. }
  right. exists (e0 ++ e1 ++ e2 ++ e3), first, rendered, wav.
  split; [by rewrite <- !app_assoc|].
  split; [by rewrite !List.filter_app, A1, B1, C1, D1|].
  split.
  { rewrite !elem_of_app. intros [H|[H|[H|H]]]; by auto. }
  split.
  { intros b m f. rewrite !elem_of_app.
    intros [H|[H|[H|H]]];
      [by apply (A3 b m f)|by apply (B3 b m f)|by apply (C3 b m f)
      |by apply (D3 b m f)]. }
  done.
Qed.

(** A constructor that throws ends the export right after its first
    report. *)
Lemma export_no_context (onProgress : bool) (rec : Recorder.state)
    (eng : AudioEngine.state) (d : number) (first : AudioBuffer) :
  Recorder.hasRecordings rec = true ->
  first_buffer rec = Some first ->
  newOfflineAudioContext 1%nat
    (Math_ceil (times d (double (sampleRate first))))
    (double (sampleRate first)) = false ->
  downloadRecordedAudio newOfflineAudioContext start startRendering
    onProgress rec eng d
  = _emit onProgress "Preparing recordings…" 0 ++ [Throw].
Proof.
  unfold Recorder.hasRecordings, downloadRecordedAudio.
  intros Hhas -> ->. apply negb_true_iff in Hhas.
  unfold Recorder.getAllClips. by rewrite Hhas.
Qed.

(** A source that cannot be started ends it before "Rendering…". *)
Lemma export_no_start (onProgress : bool) (rec : Recorder.state)
    (eng : AudioEngine.state) (d : number) :
  Exists (fun src => start src = false) (sources_of rec eng) ->
  let es :=
    downloadRecordedAudio newOfflineAudioContext start startRendering
      onProgress rec eng d in
  (forall p, Progress "Rendering…" p ∉ es) /\
  (forall b m f, Download b m f ∉ es).
Proof.
  intros Hex. cbn zeta. unfold downloadRecordedAudio.
  destruct (Nat.eqb _ 0).
  { split; intros; intros H; apply list_elem_of_singleton in H;
      discriminate H. }
  set (e0 := _emit onProgress "Preparing recordings…" 0).
  destruct (emit_no_download onProgress "Preparing recordings…" 0)
    as (_ & _ & A3). fold e0 in A3.
  assert (A4 : forall p, Progress "Rendering…" p ∉ e0)
    by (intros p; by apply emit_stage).
  assert (Hearly : (forall p, Progress "Rendering…" p ∉ e0 ++ [Throw]) /\
                   (forall b m f, Download b m f ∉ e0 ++ [Throw])).
  { split; intros; rewrite elem_of_app;
      (intros [H|H]; [first [by eapply A4|by eapply A3]|]);
      apply list_elem_of_singleton in H; discriminate H. }
  destruct (first_buffer rec) as [first|]; [|exact Hearly].
  destruct (newOfflineAudioContext _ _ _); cbn [negb]; [|exact Hearly].
  pose proof (mix_effects start onProgress eng
                (length (Recorder.getAllClips rec))
                (omap (fun r => Recorder.heap rec !! r)
                   (Recorder.getAllClips rec)) 0)
    as (_ & _ & B3 & B4).
  pose proof (mix_sources start onProgress eng
                (length (Recorder.getAllClips rec))
                (omap (fun r => Recorder.heap rec !! r)
                   (Recorder.getAllClips rec)) 0) as Hsrc.
  destruct (mix start onProgress eng _ 0 _) as [e1 [sources|]];
    cbn [fst snd] in *.
  { exfalso. destruct (Hsrc sources eq_refl) as (-> & Hall).
    fold (sources_of rec eng) in Hall.
    apply Exists_exists in Hex as (src & Hin & Hsrc').
    rewrite Forall_forall in Hall. specialize (Hall src Hin). congruence. }
  split; intros; rewrite !elem_of_app.
  - intros [H|[H|H]]; [by eapply A4|by eapply B4|].
    apply list_elem_of_singleton in H. discriminate H.
  - intros [H|[H|H]]; [by eapply A3|by eapply B3|].
    apply list_elem_of_singleton in H. discriminate H.
Qed.

End Outcomes.

(** X19.  Whatever the recorder, the engine and the rendering backend
    are, [downloadRecordedAudio] hands over at most one file, and none
    when it throws.  A file it hands over is named
    thiptines-day-recordings.wav, typed audio/wav, and is the encoding
    of what the backend rendered for a context it agreed to construct:
    one channel, [Math.ceil(duration * sampleRate)] frames, the product
    rounded to binary64 before the ceiling is taken, at the rate of
    the first clip's buffer, with one source per clip object, each
    started: its buffer, its stored gain and its start time; a mono
    rendering of [n] frames gives [44 + 2*n] bytes.  When the
    constructor throws the export ends right after its first report;
    when a source cannot be started it ends before "Rendering…" is
    reported.  A video of 0.1 s at 8000 Hz asks for 800 frames. *)
Theorem recorded_audio_export_outcomes
    (newOfflineAudioContext : nat -> JS.number -> JS.number -> bool)
    (start : Exporter.scheduledSource -> bool)
    (startRendering :
       nat -> JS.number -> JS.number -> list Exporter.scheduledSource ->
       option WebAudio.AudioBuffer)
    (onProgress : bool) (rec : Recorder.state) (eng : AudioEngine.state)
    (videoDuration : JS.number) :
  let es :=
    Exporter.downloadRecordedAudio newOfflineAudioContext start
      startRendering onProgress rec eng videoDuration in
  (length (List.filter is_download es) <= 1)%nat /\
  (Exporter.Throw ∈ es -> List.filter is_download es = []) /\
  (forall (bytes : list Z) (mime filename : string),
     Exporter.Download bytes mime filename ∈ es ->
     mime = "audio/wav"%string /\
     filename = "thiptines-day-recordings.wav"%string /\
     (Exporter.Throw ∉ es) /\
     exists first rendered : WebAudio.AudioBuffer,
       Exporter.first_buffer rec = Some first /\
       let sampleRate := JS.double (WebAudio.sampleRate first) in
       let totalSamples :=
         JSArith.Math_ceil (JSArith.times videoDuration sampleRate) in
       newOfflineAudioContext 1%nat totalSamples sampleRate = true /\
       Forall (fun src => start src = true) (Exporter.sources_of rec eng) /\
       startRendering 1%nat totalSamples sampleRate
         (Exporter.sources_of rec eng) = Some rendered /\
       Exporter.audioBufferToWav rendered = Some bytes /\
       (WebAudio.numberOfChannels rendered = 1%nat ->
        length bytes = (44 + 2 * WebAudio.frames rendered)%nat)) /\
  (forall first : WebAudio.AudioBuffer,
     Recorder.hasRecordings rec = true ->
     Exporter.first_buffer rec = Some first ->
     let sampleRate := JS.double (WebAudio.sampleRate first) in
     let totalSamples :=
       JSArith.Math_ceil (JSArith.times videoDuration sampleRate) in
     newOfflineAudioContext 1%nat totalSamples sampleRate = false ->
     es = Exporter._emit onProgress "Preparing recordings…" 0
            ++ [Exporter.Throw]) /\
  (Exists (fun src => start src = false) (Exporter.sources_of rec eng) ->
   (forall pct : Z, Exporter.Progress "Rendering…" pct ∉ es) /\
   (forall (bytes : list Z) (mime filename : string),
      Exporter.Download bytes mime filename ∉ es)) /\
  JSArith.Math_ceil (JSArith.times (JS.double (1 # 10)) (JS.double 8000))
  = JS.of_Z 800.
Proof.
  intros es.
  assert (Hmain :
    (length (List.filter is_download es) <= 1)%nat /\
    (Exporter.Throw ∈ es -> List.filter is_download es = []) /\
    (forall (bytes : list Z) (mime filename : string),
       Exporter.Download bytes mime filename ∈ es ->
       mime = "audio/wav"%string /\
       filename = "thiptines-day-recordings.wav"%string /\
       (Exporter.Throw ∉ es) /\
       exists first rendered : WebAudio.AudioBuffer,
         Exporter.first_buffer rec = Some first /\
         newOfflineAudioContext 1%nat
           (JSArith.Math_ceil
              (JSArith.times videoDuration
                 (JS.double (WebAudio.sampleRate first))))
           (JS.double (WebAudio.sampleRate first)) = true /\
         Forall (fun src => start src = true)
           (Exporter.sources_of rec eng) /\
         startRendering 1%nat
           (JSArith.Math_ceil
              (JSArith.times videoDuration
                 (JS.double (WebAudio.sampleRate first))))
           (JS.double (WebAudio.sampleRate first))
           (Exporter.sources_of rec eng) = Some rendered /\
         Exporter.audioBufferToWav rendered = Some bytes /\
         (WebAudio.numberOfChannels rendered = 1%nat ->
          length bytes = (44 + 2 * WebAudio.frames rendered)%nat))).
  { destruct (export_cases newOfflineAudioContext start startRendering
                onProgress rec eng videoDuration)
      as [(pre & Hes & Hpre & Hno)
         |(pre & first & rendered & wav & Hes & Hpre & Hthrow & Hno
           & H1 & H2 & H3 & H4 & H5)];
      fold es in Hes, Hno.
    - assert (Hf : List.filter is_download es = []).
      { destruct Hes as [E|E].
        - rewrite E, List.filter_app, (Hpre E). reflexivity.
        - by rewrite E. }
      split; [rewrite Hf; cbn; lia|]. split; [done|].
      intros bytes mime filename H. by destruct (Hno bytes mime filename).
    - fold es in Hes.
      destruct (emit_no_download onProgress "Done!" 100) as (E1 & E2 & E3).
      assert (Hf : List.filter is_download es
                   = [Exporter.Download wav "audio/wav"
                        "thiptines-day-recordings.wav"]).
      { rewrite Hes, !List.filter_app, Hpre, E1. reflexivity. }
      assert (Hnt : Exporter.Throw ∉ es).
      { rewrite Hes, !elem_of_app.
        intros [H|[H|H]]; [by apply Hthrow| |by apply E2].
        apply list_elem_of_singleton in H. discriminate H. }
      split; [rewrite Hf; cbn; lia|]. split; [intros H; by destruct (Hnt H)|].
      intros bytes mime filename H.
      rewrite Hes, !elem_of_app in H.
      destruct H as [H|[H|H]];
        [by destruct (Hno bytes mime filename)|
        |by destruct (E3 bytes mime filename)].
      apply list_elem_of_singleton in H. injection H as -> -> ->.
      split; [done|]. split; [done|]. split; [done|].
      exists first, rendered.
      split; [done|]. split; [done|]. split; [done|]. split; [done|].
      split; [done|]. intros Hc. by apply wav_mono_length. }
  destruct Hmain as (M1 & M2 & M3).
  split; [exact M1|]. split; [exact M2|]. split; [exact M3|].
  split; [|split].
  - intros first Hhas Hfirst. cbn zeta. intros Hnew.
    by apply export_no_context with (first := first).
  - intros Hex.
    exact (export_no_start newOfflineAudioContext start startRendering
             onProgress rec eng videoDuration Hex).
  - vm_compute. reflexivity.
Qed.

Section Progress.
Import JS WebAudio Exporter.

Lemma percents_app (a b : list effect) :
  percents (a ++ b) = percents a ++ percents b.
Proof. unfold percents. apply flat_map_app. Qed.

Lemma percents_emit (onProgress : bool) (stage : string) (pct : Q) :
  percents (_emit onProgress stage pct)
  = if onProgress then [round pct] else [].
Proof. unfold _emit. by destruct onProgress. Qed.

Lemma round_floor (q : Q) : round q = Qfloor (q + (1 # 2)).
Proof.
  destruct q as [n d]. unfold round, Qfloor, Qplus. cbn [Qnum Qden].
  f_equal; lia.
Qed.

Lemma round_mono (a b : Q) : (a <= b)%Q -> round a <= round b.
Proof.
  intros H. rewrite !round_floor. apply Qfloor_resp_le. lra.
Qed.

Lemma fraction_unit (i len : nat) :
  (0 < len)%nat -> (i <= len)%nat ->
  (0 <= inject_Z (Z.of_nat i) / inject_Z (Z.of_nat len) <= 1)%Q.
Proof.
  intros Hlen Hi.
  assert (H0 : (0 < inject_Z (Z.of_nat len))%Q)
    by (rewrite <- (Zlt_Qlt 0); lia).
  assert (H1 : (0 <= inject_Z (Z.of_nat i))%Q)
    by (rewrite <- (Zle_Qle 0); lia).
  assert (H2 : (inject_Z (Z.of_nat i) <= inject_Z (Z.of_nat len))%Q)
    by (rewrite <- Zle_Qle; lia).
  split.
  - apply Qle_shift_div_l; [done|]. lra.
  - apply Qle_shift_div_r; [done|]. lra.
Qed.

Lemma mixing_pct_range (i len : nat) :
  (0 < len)%nat -> (i <= len)%nat -> (0 <= mixing_pct i len <= 60)%Q.
Proof.
  intros Hlen Hi. destruct (fraction_unit i len Hlen Hi) as (H0 & H1).
  apply round64_mono in H0, H1.
  change (round64 0) with 0%Q in H0. change (round64 1) with 1%Q in H1.
  unfold mixing_pct.
  set (p := round64 (inject_Z (Z.of_nat i) / inject_Z (Z.of_nat len))) in *.
  split.
  - apply (round64_mono 0). lra.
  - change 60%Q with (round64 60) at 2. apply round64_mono. lra.
Qed.

(** [mixing_pct] is the value of the expression the loop hands to
    [_emit]. *)
Lemma mixing_pct_spec (i len : nat) :
  (0 < len)%nat -> (i <= len)%nat ->
  JSArith.times (JSArith.div (of_nat i) (of_nat len)) (of_Z 60)
  = Fin (mixing_pct i len).
Proof.
  intros Hlen Hi. destruct (fraction_unit i len Hlen Hi) as (H0 & H1).
  unfold of_nat, of_Z, JSArith.div.
  assert (Hne : Qeq_bool (inject_Z (Z.of_nat len)) 0 = false).
  { apply not_true_iff_false. rewrite Qeq_bool_iff.
    assert ((0 < inject_Z (Z.of_nat len))%Q)
      by (rewrite <- (Zlt_Qlt 0); lia).
    lra. }
  rewrite Hne.
  destruct (double_between 0 1 _ eq_refl eq_refl (conj H0 H1)) as (E & P0 & P1).
  rewrite E. cbn [JSArith.times]. change (inject_Z 60) with 60%Q.
  set (p := round64 (inject_Z (Z.of_nat i) / inject_Z (Z.of_nat len))) in *.
  assert (Hp : (0 <= p * 60 <= 60)%Q) by (split; lra).
  destruct (double_between 0 60 _ eq_refl eq_refl Hp) as (E' & _).
  exact E'.
Qed.

Lemma mixing_pct_mono (i j len : nat) :
  (0 < len)%nat -> (i <= j)%nat -> (mixing_pct i len <= mixing_pct j len)%Q.
Proof.
  intros Hlen Hij. unfold mixing_pct. apply round64_mono.
  assert (H : (round64 (inject_Z (Z.of_nat i) / inject_Z (Z.of_nat len))
               <= round64 (inject_Z (Z.of_nat j) / inject_Z (Z.of_nat len)))%Q).
  { apply round64_mono.
    assert (H0 : (0 < inject_Z (Z.of_nat len))%Q)
      by (rewrite <- (Zlt_Qlt 0); lia).
    assert (H2 : (inject_Z (Z.of_nat i) <= inject_Z (Z.of_nat j))%Q)
      by (rewrite <- Zle_Qle; lia).
    unfold Qdiv. apply Qmult_le_compat_r; [done|].
    apply Qlt_le_weak, Qinv_lt_0_compat, H0. }
  lra.
Qed.

Lemma sorted_prefix (l1 l2 : list Z) :
  StronglySorted Z.le (l1 ++ l2) -> StronglySorted Z.le l1.
Proof.
  induction l1 as [|x l1 IH]; cbn; [constructor|].
  intros H. apply StronglySorted_inv in H as (H1 & H2).
  constructor; [by apply IH|].
  rewrite List.Forall_app in H2. by destruct H2.
Qed.

Lemma mixing_sorted (len a n : nat) :
  (0 < len)%nat -> (a + n <= len)%nat ->
  StronglySorted Z.le
    (map (fun j => round (mixing_pct j len)) (seq a n)) /\
  List.Forall (fun p => round (mixing_pct a len) <= p <= 60)
    (map (fun j => round (mixing_pct j len)) (seq a n)).
Proof.
  intros Hlen. revert a. induction n as [|n IH]; intros a Ha; cbn [seq map].
  - split; constructor.
  - destruct (IH (S a)) as (IH1 & IH2); [lia|].
    assert (Hup : round (mixing_pct a len) <= 60).
    { change 60 with (round 60). apply round_mono.
      apply mixing_pct_range; [done|lia]. }
    assert (Hstep : round (mixing_pct a len) <= round (mixing_pct (S a) len)).
    { apply round_mono, mixing_pct_mono; [done|lia]. }
    split.
    + constructor; [done|].
      eapply List.Forall_impl; [|exact IH2]. cbn beta. intros p Hp. lia.
    + constructor; [lia|].
      eapply List.Forall_impl; [|exact IH2]. cbn beta. intros p Hp. lia.
Qed.

(** The percentages of an export that got through [k] clips and then
    reported [tail], a beginning of 60, 85, 100. *)
Lemma scale_sorted (len k : nat) (tail rest : list Z) :
  (0 < len)%nat -> (k <= len)%nat -> tail ++ rest = [60; 85; 100] ->
  let ps := [0] ++ map (fun j => round (mixing_pct j len)) (seq 0 k) ++ tail in
  StronglySorted Z.le ps /\ List.Forall (fun p => 0 <= p <= 100) ps /\
  ((100 ∈ ps) <-> rest = []).
Proof.
  intros Hlen Hk Htail ps.
  destruct (mixing_sorted len 0 k Hlen) as (H1 & H2); [lia|].
  assert (H0 : 0 <= round (mixing_pct 0 len)).
  { change 0 with (round 0) at 1. apply round_mono.
    apply mixing_pct_range; [done|lia]. }
  assert (H3 : List.Forall (fun p => 0 <= p <= 60)
                 (map (fun j => round (mixing_pct j len)) (seq 0 k))).
  { eapply List.Forall_impl; [|exact H2]. cbn beta. intros p Hp. lia. }
  clear H2.
  assert (Htl : StronglySorted Z.le tail /\
                List.Forall (fun p => 60 <= p <= 100) tail /\
                ((100 ∈ tail) <-> rest = [])).
  { destruct tail as [|x1 [|x2 [|x3 [|? ?]]]]; cbn in Htail;
      try discriminate Htail.
    - split; [constructor|]. split; [constructor|]. subst rest.
      split; [intros H; by apply elem_of_nil in H|discriminate].
    - injection Htail as -> ->.
      split; [repeat constructor|]. split; [repeat constructor; lia|].
      split; [|discriminate].
      intros H. apply list_elem_of_singleton in H. discriminate H.
    - injection Htail as -> -> ->.
      split; [repeat constructor; lia|]. split; [repeat constructor; lia|].
      split; [|discriminate].
      intros [H|H%list_elem_of_singleton]%elem_of_cons; discriminate H.
    - injection Htail as -> -> -> ->.
      split; [repeat constructor; lia|]. split; [repeat constructor; lia|].
      split; [done|]. intros _. set_solver. }
  destruct Htl as (T1 & T2 & T3).
  set (mixing := map (fun j => round (mixing_pct j len)) (seq 0 k)) in *.
  assert (Hmid : StronglySorted Z.le (mixing ++ tail) /\
                 List.Forall (fun p => 0 <= p <= 100) (mixing ++ tail)).
  { clear H0. induction mixing as [|x l IH]; cbn [app].
    - split; [done|]. eapply List.Forall_impl; [|exact T2].
      cbn beta. intros p Hp. lia.
    - apply StronglySorted_inv in H1 as (Hl & Hx).
      apply Forall_cons_1 in H3 as (Hx3 & Hl3).
      destruct (IH Hl Hl3) as (I1 & I2).
      split.
      + constructor; [done|]. rewrite List.Forall_app. split; [done|].
        eapply List.Forall_impl; [|exact T2]. cbn beta. intros p Hp. lia.
      + constructor; [lia|done]. }
  destruct Hmid as (S1 & S2).
  split; [|split].
  - unfold ps. cbn [app]. constructor; [done|].
    eapply List.Forall_impl; [|exact S2]. cbn beta. intros p Hp. lia.
  - unfold ps. cbn [app]. constructor; [lia|done].
  - rewrite <- T3. unfold ps. rewrite !elem_of_app. split.
    + intros [H|[H|H]]; [|exfalso|done].
      * apply list_elem_of_singleton in H. discriminate H.
      * apply list_elem_of_In in H.
        rewrite List.Forall_forall in H3. specialize (H3 100 H). lia.
    + intros H. right. by right.
Qed.

Section Reported.
Variable newOfflineAudioContext : nat -> number -> number -> bool.
Variable start : scheduledSource -> bool.
Variable startRendering :
  nat -> number -> number -> list scheduledSource -> option AudioBuffer.

Lemma export_silent (rec : Recorder.state) (eng : AudioEngine.state)
    (d : number) :
  percents (downloadRecordedAudio newOfflineAudioContext start startRendering
              false rec eng d) = [].
Proof.
  unfold downloadRecordedAudio.
  destruct (Nat.eqb _ 0); [done|].
  destruct (first_buffer rec) as [first|]; [|done].
  destruct (newOfflineAudioContext _ _ _); cbn [negb]; [|done].
  destruct (mix_percents start false eng
              (length (Recorder.getAllClips rec))
              (omap (fun r => Recorder.heap rec !! r)
                 (Recorder.getAllClips rec)) 0) as (k & _ & E).
  destruct (mix start false eng _ 0 _) as [e1 [sources|]]; cbn [fst] in E.
  - destruct (startRendering _ _ _ _) as [rendered|];
      [destruct (audioBufferToWav rendered)|];
      rewrite !percents_app, !percents_emit, E; reflexivity.
  - rewrite !percents_app, !percents_emit, E; reflexivity.
Qed.

Lemma export_reported (rec : Recorder.state) (eng : AudioEngine.state)
    (d : number) :
  let es :=
    downloadRecordedAudio newOfflineAudioContext start startRendering
      true rec eng d in
  let len := length (Recorder.getAllClips rec) in
  (percents es = [] /\ forall b m f, Download b m f ∉ es)
  \/
  ((0 < len)%nat /\
   exists (k : nat) (tail rest : list Z),
     (k <= len)%nat /\ tail ++ rest = [60; 85; 100] /\
     percents es
     = [0] ++ map (fun j => round (mixing_pct j len)) (seq 0 k) ++ tail /\
     (rest = [] <-> exists b m f, Download b m f ∈ es)).
Proof.
  intros es len.
  pose proof (export_cases newOfflineAudioContext start startRendering
                true rec eng d) as Hcases.
  cbn zeta in Hcases. fold es in Hcases.
  assert (Hno : (exists b m f, Download b m f ∈ es) \/
                forall b m f, Download b m f ∉ es).
  { destruct Hcases as [(pre & _ & _ & H)|(pre & f1 & rd & wav & E & _)].
    - by right.
    - left. exists wav, "audio/wav"%string,
        "thiptines-day-recordings.wav"%string.
      rewrite E, !elem_of_app. right. left. by apply list_elem_of_singleton. }
  clear Hcases.
  assert (Hnone : (forall b m f, Download b m f ∉ es) ->
                  forall rest : list Z,
                    rest <> [] ->
                    (rest = [] <-> exists b m f, Download b m f ∈ es)).
  { intros H rest Hrest. split; [done|].
    intros (b & m & f & Hin). by destruct (H b m f). }
  unfold es, downloadRecordedAudio in *. fold len in Hno, Hnone |- *.
  destruct (Nat.eqb len 0) eqn:Elen.
  { left. split; [done|]. intros b m f H.
    apply list_elem_of_singleton in H. discriminate H. }
  apply Nat.eqb_neq in Elen.
  assert (Hlen : (0 < len)%nat) by lia.
  assert (R0 : round 0 = 0) by reflexivity.
  assert (R60 : round 60 = 60) by reflexivity.
  assert (R85 : round 85 = 85) by reflexivity.
  assert (R100 : round 100 = 100) by reflexivity.
  assert (Hobj : (length (omap (fun r => Recorder.heap rec !! r)
                            (Recorder.getAllClips rec)) <= len)%nat).
  { unfold len. generalize (Recorder.getAllClips rec). intros l.
    induction l as [|r l IH]; [done|]. cbn [omap list_omap length].
    destruct (Recorder.heap rec !! r); cbn [length]; lia. }
  right. split; [done|].
  assert (Hthrow : forall (pre : list effect) b m f,
             Download b m f ∈ pre ++ [Throw] -> Download b m f ∈ pre).
  { intros pre b m f. rewrite elem_of_app. intros [H|H]; [done|].
    apply list_elem_of_singleton in H. discriminate H. }
  destruct (first_buffer rec) as [first|].
  2:{ exists 0%nat, [], [60; 85; 100]. split; [lia|]. split; [done|].
      rewrite !percents_app, !percents_emit, R0. split; [done|].
      apply Hnone; [|done]. intros b m f H. apply Hthrow in H.
      by apply list_elem_of_singleton in H. }
  destruct (newOfflineAudioContext _ _ _); cbn [negb] in *.
  2:{ exists 0%nat, [], [60; 85; 100]. split; [lia|]. split; [done|].
      rewrite !percents_app, !percents_emit, R0. split; [done|].
      apply Hnone; [|done]. intros b m f H. apply Hthrow in H.
      by apply list_elem_of_singleton in H. }
  destruct (mix_percents start true eng len
              (omap (fun r => Recorder.heap rec !! r)
                 (Recorder.getAllClips rec)) 0) as (k & Hk & E).
  destruct (mix_effects start true eng len
              (omap (fun r => Recorder.heap rec !! r)
                 (Recorder.getAllClips rec)) 0) as (_ & _ & B3 & _).
  destruct (mix start true eng len 0 _) as [e1 [sources|]];
    cbn [fst] in E, B3.
  2:{ exists k, [], [60; 85; 100]. split; [lia|]. split; [done|].
      rewrite !percents_app, !percents_emit, E, R0. split; [done|].
      apply Hnone; [|done]. intros b m f H.
      rewrite !elem_of_app in H. destruct H as [H|[H|H]];
        [|by apply (B3 b m f)|];
        apply list_elem_of_singleton in H; discriminate H. }
  destruct (startRendering _ _ _ _) as [rendered|].
  2:{ exists k, [60], [85; 100]. split; [lia|]. split; [done|].
      rewrite !percents_app, !percents_emit, E, R0, R60.
      split; [cbn [percents flat_map]; by rewrite app_nil_r|].
      apply Hnone; [|done]. intros b m f H.
      rewrite !elem_of_app in H. destruct H as [H|[H|[H|H]]];
        [|by apply (B3 b m f)| |];
        apply list_elem_of_singleton in H; discriminate H. }
  destruct (audioBufferToWav rendered) as [wav|].
  2:{ exists k, [60; 85], [100]. split; [lia|]. split; [done|].
      rewrite !percents_app, !percents_emit, E, R0, R60, R85.
      split; [cbn [percents flat_map]; by rewrite app_nil_r|].
      apply Hnone; [|done]. intros b m f H.
      rewrite !elem_of_app in H. destruct H as [H|[H|[H|[H|H]]]];
        [|by apply (B3 b m f)| | |];
        apply list_elem_of_singleton in H; discriminate H. }
  exists k, [60; 85; 100], []. split; [lia|]. split; [done|].
  rewrite !percents_app, !percents_emit, E, R0, R60, R85, R100.
  split; [reflexivity|]. split; [|done]. intros _.
  exists wav, "audio/wav"%string, "thiptines-day-recordings.wav"%string.
  rewrite !elem_of_app. do 4 right. left. by apply list_elem_of_singleton.
Qed.

End Reported.

End Progress.

(** X20.  The percentages [downloadRecordedAudio] reports never
    decrease and lie between 0 and 100; without a progress callback
    nothing is reported; with one, 100 is reported exactly when a file
    was handed over. *)
Theorem export_progress_never_goes_back
    (newOfflineAudioContext : nat -> JS.number -> JS.number -> bool)
    (start : Exporter.scheduledSource -> bool)
    (startRendering :
       nat -> JS.number -> JS.number -> list Exporter.scheduledSource ->
       option WebAudio.AudioBuffer)
    (onProgress : bool) (rec : Recorder.state) (eng : AudioEngine.state)
    (videoDuration : JS.number) :
  let es :=
    Exporter.downloadRecordedAudio newOfflineAudioContext start
      startRendering onProgress rec eng videoDuration in
  StronglySorted Z.le (percents es) /\
  List.Forall (fun p => 0 <= p <= 100) (percents es) /\
  (onProgress = false -> percents es = []) /\
  (onProgress = true ->
   ((100 ∈ percents es) <->
    exists (bytes : list Z) (mime filename : string),
      Exporter.Download bytes mime filename ∈ es)).
Proof.
  intros es. destruct onProgress.
  - pose proof (export_reported newOfflineAudioContext start startRendering
                  rec eng videoDuration) as H.
    cbn zeta in H. fold es in H.
    destruct H as [(E & Hno)
                  |(Hlen & k & tail & rest & Hk & Htail & E & Hd)].
    + rewrite E. split; [constructor|]. split; [constructor|].
      split; [done|]. intros _. split.
      * intros H. by apply elem_of_nil in H.
      * intros (b & m & f & H). by destruct (Hno b m f).
    + destruct (scale_sorted _ k tail rest Hlen Hk Htail) as (F1 & F2 & F3).
      cbn zeta in F1, F2, F3. rewrite <- E in F1, F2, F3.
      split; [done|]. split; [done|]. split; [done|]. intros _.
      by rewrite F3.
  - unfold es. rewrite export_silent.
    split; [constructor|]. split; [constructor|]. split; [done|]. done.
Qed.

(** X21.  From every store the recorder can reach that holds a clip,
    the first clip has a buffer and the sources the export sets up are
    those of the clips listed, one each and in order.  If the backend
    constructs the context the export asks for, starts each of those
    sources and renders them to one channel, the export hands over
    exactly one file, the encoding of that very rendering, and does
    not throw. *)
Theorem export_succeeds_when_the_backend_renders
    (newOfflineAudioContext : nat -> JS.number -> JS.number -> bool)
    (start : Exporter.scheduledSource -> bool)
    (startRendering :
       nat -> JS.number -> JS.number -> list Exporter.scheduledSource ->
       option WebAudio.AudioBuffer)
    (calls : list System.call) (onProgress : bool)
    (videoDuration : JS.number) :
  let s := System.run calls System.initial in
  Recorder.hasRecordings (System.rec s) = true ->
  let es :=
    Exporter.downloadRecordedAudio newOfflineAudioContext start
      startRendering onProgress (System.rec s) (System.eng s)
      videoDuration in
  let sources := Exporter.sources_of (System.rec s) (System.eng s) in
  exists first : WebAudio.AudioBuffer,
    Exporter.first_buffer (System.rec s) = Some first /\
    Forall2
      (fun r src =>
         exists c : Recorder.clip,
           Recorder.heap (System.rec s) !! r = Some c /\
           src = Exporter.source_of (System.eng s) c)
      (Recorder.getAllClips (System.rec s)) sources /\
    let sampleRate := JS.double (WebAudio.sampleRate first) in
    let totalSamples :=
      JSArith.Math_ceil (JSArith.times videoDuration sampleRate) in
    forall rendered : WebAudio.AudioBuffer,
      newOfflineAudioContext 1%nat totalSamples sampleRate = true ->
      Forall (fun src => start src = true) sources ->
      startRendering 1%nat totalSamples sampleRate sources = Some rendered ->
      WebAudio.numberOfChannels rendered = 1%nat ->
      exists bytes : list Z,
        Exporter.audioBufferToWav rendered = Some bytes /\
        List.filter is_download es
        = [Exporter.Download bytes "audio/wav"
             "thiptines-day-recordings.wav"] /\
        (Exporter.Throw ∉ es) /\
        length bytes = (44 + 2 * WebAudio.frames rendered)%nat.
Proof.
  intros s Hhas es sources.
  pose proof (run_wf_initial calls) as (Hrefs & _ & _). fold s in Hrefs.
  assert (Hb : buffers_kept (System.rec s)).
  { apply run_buffers. constructor. }
  assert (Hclips : exists r0 rest,
             Recorder.clips (System.rec s) = r0 :: rest).
  { unfold Recorder.hasRecordings in Hhas.
    destruct (Recorder.clips (System.rec s)) as [|r0 rest]; [done|].
    by exists r0, rest. }
  destruct Hclips as (r0 & rest & Hclips).
  assert (Hr0 : (r0 < length (Recorder.heap (System.rec s)))%nat).
  { rewrite Hclips in Hrefs. by apply Forall_cons_1 in Hrefs as (? & _). }
  destruct (lookup_lt_is_Some_2 _ _ Hr0) as (c0 & Hc0).
  unfold buffers_kept in Hb. rewrite Forall_forall in Hb.
  destruct (Hb c0) as (first & Hfirst & _);
    [by apply list_elem_of_lookup_2 in Hc0|].
  assert (Hfb : Exporter.first_buffer (System.rec s) = Some first).
  { unfold Exporter.first_buffer, Recorder.getAllClips. rewrite Hclips.
    cbn [lookup list_lookup mbind option_bind]. rewrite Hc0.
    cbn [mbind option_bind]. exact Hfirst. }
  assert (Hsrc : Forall2
            (fun r src =>
               exists c : Recorder.clip,
                 Recorder.heap (System.rec s) !! r = Some c /\
                 src = Exporter.source_of (System.eng s) c)
            (Recorder.getAllClips (System.rec s)) sources).
  { unfold sources, Exporter.sources_of, Recorder.getAllClips.
    clear -Hrefs.
    induction (Recorder.clips (System.rec s)) as [|r l IH];
      [constructor|].
    apply Forall_cons_1 in Hrefs as (Hr & Hl). cbn [omap list_omap].
    destruct (lookup_lt_is_Some_2 _ _ Hr) as (c & Hc). rewrite Hc.
    cbn [map]. constructor; [by exists c|by apply IH]. }
  exists first. split; [exact Hfb|]. split; [exact Hsrc|].
  cbn zeta. intros rendered Hnew Hstart Hrender Hone.
  destruct (Exporter.audioBufferToWav rendered) as [wav|] eqn:Hwav.
  2:{ apply encoder_fails_only_without_channels in Hwav. congruence. }
  exists wav. split; [done|].
  assert (E : es = Exporter._emit onProgress "Preparing recordings…" 0
                   ++ fst (Exporter.mix start onProgress (System.eng s)
                             (length (Recorder.getAllClips (System.rec s))) 0
                             (omap (fun r => Recorder.heap (System.rec s) !! r)
                                (Recorder.getAllClips (System.rec s))))
                   ++ Exporter._emit onProgress "Rendering…" 60
                   ++ Exporter._emit onProgress "Encoding WAV…" 85
                   ++ [Exporter.Download wav "audio/wav"
                         "thiptines-day-recordings.wav"]
                   ++ Exporter._emit onProgress "Done!" 100).
  { unfold es, Exporter.downloadRecordedAudio.
    assert (Hn : Nat.eqb (length (Recorder.getAllClips (System.rec s))) 0
                 = false).
    { unfold Recorder.getAllClips. by rewrite Hclips. }
    rewrite Hn, Hfb, Hnew. cbn [negb].
    pose proof (mix_ok start onProgress (System.eng s)
                  (length (Recorder.getAllClips (System.rec s)))
                  (omap (fun r => Recorder.heap (System.rec s) !! r)
                     (Recorder.getAllClips (System.rec s))) Hstart 0) as Hok.
    destruct (Exporter.mix start onProgress (System.eng s) _ 0 _)
      as [e1 r]. cbn [fst snd] in *. rewrite Hok.
    fold (Exporter.sources_of (System.rec s) (System.eng s)).
    fold sources. by rewrite Hrender, Hwav. }
  destruct (emit_no_download onProgress "Preparing recordings…" 0)
    as (A1 & A2 & _).
  destruct (mix_effects start onProgress (System.eng s)
              (length (Recorder.getAllClips (System.rec s)))
              (omap (fun r => Recorder.heap (System.rec s) !! r)
                 (Recorder.getAllClips (System.rec s))) 0)
    as (B1 & B2 & _).
  destruct (emit_no_download onProgress "Rendering…" 60) as (C1 & C2 & _).
  destruct (emit_no_download onProgress "Encoding WAV…" 85) as (D1 & D2 & _).
  destruct (emit_no_download onProgress "Done!" 100) as (E1 & E2 & _).
  split; [|split].
  - rewrite E, !List.filter_app, A1, B1, C1, D1, E1. reflexivity.
  - rewrite E, !elem_of_app.
    intros [H|[H|[H|[H|[H|H]]]]]; try done.
    apply list_elem_of_singleton in H. discriminate H.
  - by apply wav_mono_length.
Qed.

Lemma export_succeeds_when_the_backend_renders_witness :
  let calls :=
    [System.StartRecording true 2; System.DataAvailable 100;
     System.StopRecording; System.OnStop (Some Spec.three_seconds)] in
  let s := System.run calls System.initial in
  let es :=
    Exporter.downloadRecordedAudio (fun _ _ _ => true) (fun _ => true)
      (fun _ _ _ _ => Some Spec.three_seconds)
      true (System.rec s) (System.eng s) (JS.of_Z 10) in
  Recorder.hasRecordings (System.rec s) = true /\
  exists bytes : list Z,
    Exporter.audioBufferToWav Spec.three_seconds = Some bytes /\
    List.filter is_download es
    = [Exporter.Download bytes "audio/wav" "thiptines-day-recordings.wav"] /\
    (Exporter.Throw ∉ es) /\
    length bytes = (44 + 2 * WebAudio.frames Spec.three_seconds)%nat.
Proof.
  assert (H1 : Recorder.hasRecordings
                 (System.rec
                    (System.run
                       [System.StartRecording true 2; System.DataAvailable 100;
                        System.StopRecording;
                        System.OnStop (Some Spec.three_seconds)]
                       System.initial)) = true) by reflexivity.
  destruct (export_succeeds_when_the_backend_renders
              (fun _ _ _ => true) (fun _ => true)
              (fun _ _ _ _ => Some Spec.three_seconds)
              [System.StartRecording true 2; System.DataAvailable 100;
               System.StopRecording; System.OnStop (Some Spec.three_seconds)]
              true (JS.of_Z 10) H1) as (first & _ & _ & H).
  cbn zeta in H.
  assert (H2 : Forall (fun src => (fun _ : Exporter.scheduledSource => true) src = true)
                 (Exporter.sources_of
                    (System.rec
                       (System.run
                          [System.StartRecording true 2;
                           System.DataAvailable 100; System.StopRecording;
                           System.OnStop (Some Spec.three_seconds)]
                          System.initial))
                    (System.eng
                       (System.run
                          [System.StartRecording true 2;
                           System.DataAvailable 100; System.StopRecording;
                           System.OnStop (Some Spec.three_seconds)]
                          System.initial)))).
  { apply Forall_forall. intros src _. reflexivity. }
  exact (conj H1 (H Spec.three_seconds eq_refl H2 eq_refl eq_refl)).
Defined.

Section Handlers.
Import WebAudio Exporter ExportHandlers.

Lemma encoded_or_not (decoded : option AudioBuffer) :
  (exists ab wav,
      decoded = Some ab /\ numberOfChannels ab <> 0%nat /\
      audioBufferToWav ab = Some wav /\
      decoded ≫= audioBufferToWav = Some wav)
  \/
  ((decoded = None \/ exists ab, decoded = Some ab /\
                                 numberOfChannels ab = 0%nat) /\
   decoded ≫= audioBufferToWav = None).
Proof.
  destruct decoded as [ab|]; cbn [mbind option_bind].
  - destruct (audioBufferToWav ab) as [wav|] eqn:E.
    + left. exists ab, wav. split; [done|]. split; [|done].
      intros H. apply encoder_fails_only_without_channels in H. congruence.
    + right. split; [|done]. right. exists ab. split; [done|].
      by apply encoder_fails_only_without_channels.
  - right. split; [by left|done].
Qed.

End Handlers.

(** X22.  The stop handlers of the three exports that record the
    playing video each hand over exactly one file and do not throw.
    The original-audio and mixed-audio exports hand over the WAV
    encoding of the decoded recording when it decodes to a buffer with
    a channel, and otherwise the recording itself, under its own type
    but always named .webm; the video export hands over the recording
    named thiptines-day-final.mp4 when its type mentions mp4 and
    thiptines-day-final.webm otherwise.  Progress ends at 100. *)
Theorem recording_exports_hand_over_one_file
    (onProgress : bool) (blob : list Z) (mimeType : string)
    (decoded : option WebAudio.AudioBuffer) :
  let original :=
    ExportHandlers.downloadOriginalAudio_onstop onProgress blob mimeType
      decoded in
  let mixed :=
    ExportHandlers.downloadMixedAudio_onstop onProgress blob mimeType
      decoded in
  let video :=
    ExportHandlers.downloadMixedVideo_onstop onProgress blob mimeType in
  ((exists (ab : WebAudio.AudioBuffer) (wav : list Z),
       decoded = Some ab /\ WebAudio.numberOfChannels ab <> 0%nat /\
       Exporter.audioBufferToWav ab = Some wav /\
       List.filter is_download original
       = [Exporter.Download wav "audio/wav" "thiptines-day-original.wav"] /\
       List.filter is_download mixed
       = [Exporter.Download wav "audio/wav" "thiptines-day-mixed.wav"])
   \/
   ((decoded = None \/
     exists ab, decoded = Some ab /\ WebAudio.numberOfChannels ab = 0%nat) /\
    List.filter is_download original
    = [Exporter.Download blob mimeType "thiptines-day-original.webm"] /\
    List.filter is_download mixed
    = [Exporter.Download blob mimeType "thiptines-day-mixed.webm"])) /\
  List.filter is_download video
  = [Exporter.Download blob mimeType
       (if MediaTypes.includes mimeType "mp4"
        then "thiptines-day-final.mp4" else "thiptines-day-final.webm")] /\
  (Exporter.Throw ∉ original) /\ (Exporter.Throw ∉ mixed) /\
  (Exporter.Throw ∉ video) /\
  percents original = (if onProgress then [80; 100] else []) /\
  percents mixed = (if onProgress then [85; 100] else []) /\
  percents video = (if onProgress then [100] else []).
Proof.
  intros original mixed video.
  assert (Hv : video
               = [Exporter.Download blob mimeType
                    (if MediaTypes.includes mimeType "mp4"
                     then "thiptines-day-final.mp4"
                     else "thiptines-day-final.webm")]
                   ++ Exporter._emit onProgress "Done!" 100).
  { unfold video, ExportHandlers.downloadMixedVideo_onstop,
      MediaTypes.extension.
    by destruct (MediaTypes.includes mimeType "mp4"). }
  unfold original, mixed, ExportHandlers.downloadOriginalAudio_onstop,
    ExportHandlers.downloadMixedAudio_onstop.
  rewrite Hv. clear Hv video original mixed.
  destruct (encoded_or_not decoded)
    as [(ab & wav & H1 & H2 & H3 & ->)|(H1 & ->)];
    (split; [|destruct onProgress; cbn;
              repeat split; intros H;
              repeat (apply elem_of_cons in H as [H|H]; [discriminate H|]);
              by apply elem_of_nil in H]).
  - left. exists ab, wav. by destruct onProgress.
  - right. by destruct onProgress.
Qed.

(** ** Media types, seeking, dragging and volume *)

Section MediaTypesProps.
Import MediaTypes.


End MediaTypesProps.


Section Pointer.
Import JS JSArith.

(** [Math.max(0, Math.min(a, b))] for a bound that is not negative. *)
Lemma clamp_number (a : number) (b : Q) :
  a <> NaN -> (0 <= b)%Q ->
  exists q : Q,
    Math_max (of_Z 0) (Math_min a (Fin b)) = Fin q /\
    (0 <= q <= b)%Q /\
    (le a (Fin 0) = true -> (q == 0)%Q) /\
    (le (Fin b) a = true -> (q == b)%Q) /\
    (forall x : Q, a = Fin x -> (0 <= x <= b)%Q -> (q == x)%Q).
Proof.
  intros Ha Hb. destruct a as [x | | |]; [| | |done].
  - unfold Math_max, Math_min, lt, le, of_Z, Qltb.
    change (inject_Z 0) with 0%Q.
    destruct (Qle_bool x b) eqn:E1; cbn [negb].
    + apply Qle_bool_iff in E1.
      destruct (Qle_bool x 0) eqn:E2; cbn [negb].
      * apply Qle_bool_iff in E2. exists 0%Q.
        split; [reflexivity|]. split; [lra|]. split; [done|].
        split; [intros H%Qle_bool_iff; lra|].
        intros y [= <-] Hy. lra.
      * apply Qle_bool_false in E2. exists x.
        split; [reflexivity|]. split; [lra|]. split; [discriminate|].
        split; [intros H%Qle_bool_iff; lra|].
        by intros y [= <-] Hy.
    + apply Qle_bool_false in E1.
      destruct (Qle_bool b 0) eqn:E2; cbn [negb].
      * apply Qle_bool_iff in E2. exists 0%Q.
        split; [reflexivity|]. split; [lra|].
        split; [intros H%Qle_bool_iff; lra|].
        split; [intros _; lra|].
        intros y [= <-] Hy. lra.
      * apply Qle_bool_false in E2. exists b.
        split; [reflexivity|]. split; [lra|].
        split; [intros H%Qle_bool_iff; lra|].
        split; [done|].
        intros y [= <-] Hy. lra.
  - unfold Math_max, Math_min, lt, le, of_Z, Qltb.
    change (inject_Z 0) with 0%Q.
    destruct (Qle_bool b 0) eqn:E2; cbn [negb].
    + apply Qle_bool_iff in E2. exists 0%Q.
      split; [reflexivity|]. split; [lra|]. split; [discriminate|].
      split; [intros _; lra|]. discriminate.
    + apply Qle_bool_false in E2. exists b.
      split; [reflexivity|]. split; [lra|]. split; [discriminate|].
      split; [done|]. discriminate.
  - exists 0%Q. split; [reflexivity|]. split; [lra|]. split; [done|].
    split; [discriminate|]. discriminate.
Qed.

Lemma div_finite (x w : Q) :
  ~ (w == 0)%Q -> div (Fin x) (Fin w) = double (x / w).
Proof.
  intros Hw. unfold div.
  destruct (Qeq_bool w 0) eqn:E; [|done].
  apply Qeq_bool_iff in E. by destruct Hw.
Qed.

Lemma fraction_range (x w T : Q) :
  (0 < w)%Q -> (0 <= T)%Q -> (0 <= x <= w)%Q ->
  (0 <= x / w <= 1)%Q.
Proof.
  intros Hw HT (Hx0 & Hxw). split.
  - apply Qle_shift_div_l; [done|]. lra.
  - apply Qle_shift_div_r; [done|]. lra.
Qed.

Lemma div_not_NaN (a : number) (w : Q) :
  a <> NaN -> ~ (w == 0)%Q -> div a (Fin w) <> NaN.
Proof.
  intros Ha Hw. destruct a as [x | | |]; [| | |done].
  - rewrite div_finite by done. apply double_not_NaN.
  - cbn. by destruct (Qltb w 0).
  - cbn. by destruct (Qltb w 0).
Qed.

Lemma times_not_NaN (a : number) (T : Q) :
  a <> NaN -> (0 < T)%Q -> times a (Fin T) <> NaN.
Proof.
  intros Ha HT. destruct (Qnum_pos T HT) as (p & Hp).
  destruct a as [x | | |]; [| | |done]; cbn [times mul].
  - apply double_not_NaN.
  - unfold inf_times. by rewrite Hp.
  - unfold inf_times. by rewrite Hp.
Qed.

Lemma add_not_NaN (s : Q) (a : number) : a <> NaN -> add (Fin s) a <> NaN.
Proof.
  intros Ha. destruct a as [x | | |]; [| | |done]; cbn [add]; [|done..].
  apply double_not_NaN.
Qed.

(** A scaled fraction of a double [T] stays within it. *)
Lemma scaled_fraction (q w T : Q) :
  (0 < w)%Q -> (0 <= T)%Q -> representable T -> (0 <= q <= w)%Q ->
  let t := round64 (round64 (q / w) * T) in
  times (div (Fin q) (Fin w)) (Fin T) = Fin t /\ (0 <= t <= T)%Q.
Proof.
  intros Hw HT HdT Hq.
  destruct (fraction_range q w T Hw HT Hq) as (F0 & F1).
  destruct (double_between 0 1 (q / w) eq_refl eq_refl (conj F0 F1))
    as (Ep & P0 & P1).
  cbn zeta. rewrite div_finite by lra. rewrite Ep. cbn [times].
  set (p := round64 (q / w)) in *.
  assert (Hp : (0 <= p * T <= T)%Q) by (split; nra).
  destruct (double_between 0 T (p * T) eq_refl HdT Hp) as (Et & Ht).
  by rewrite Et.
Qed.

End Pointer.

(** X24.  For a video whose duration is a positive double and a bar
    whose width is one, whatever the other numbers are, the time a click on the timeline seeks to and
    the time a skip button seeks to lie between 0 and the duration: a
    click left of the bar seeks to 0, one right of it to the duration,
    one on it to the clicked fraction of the duration, each of the
    subtraction, the division and the product rounded to binary64; a
    skip that stays within the video goes to the rounded sum.  Without
    a duration (zero or NaN) or without a callback the click seeks
    nowhere, and a skip goes to 0.  A click at 101 on a bar at 100 of
    width 200 over 90 s seeks to the double nearest 0.45; a skip of 5
    from 0.1 to the double nearest 5.1. *)
Theorem seek_targets_stay_within_the_video
    (T clientX left width time delta : Q) :
  (0 < T)%Q -> (0 < width)%Q ->
  JS.representable T -> JS.representable width ->
  (exists t : Q,
      Timeline._seekFromEvent (JS.Fin T) true (JS.Fin clientX) (JS.Fin left)
        (JS.Fin width) = Some (JS.Fin t) /\
      (0 <= t <= T)%Q /\
      ((clientX <= left)%Q -> (t == 0)%Q) /\
      ((left + width <= clientX)%Q -> (t == T)%Q) /\
      ((left <= clientX <= left + width)%Q ->
       t = JS.round64
             (JS.round64 (JS.round64 (clientX - left) / width) * T))) /\
  (exists t : Q,
      Controls.skip_target (JS.Fin time) (JS.Fin delta)
        (VideoPlayer.getDuration (Some (JS.Fin T))) = JS.Fin t /\
      (0 <= t <= T)%Q /\
      ((0 <= time + delta <= T)%Q -> (t == JS.round64 (time + delta))%Q)) /\
  Timeline._seekFromEvent (JS.Fin 0) true (JS.Fin clientX) (JS.Fin left)
    (JS.Fin width) = None /\
  Timeline._seekFromEvent JS.NaN true (JS.Fin clientX) (JS.Fin left)
    (JS.Fin width) = None /\
  Timeline._seekFromEvent (JS.Fin T) false (JS.Fin clientX) (JS.Fin left)
    (JS.Fin width) = None /\
  Controls.skip_target (JS.Fin time) (JS.Fin delta)
    (VideoPlayer.getDuration (Some JS.NaN)) = JS.Fin 0 /\
  Controls.skip_target (JS.Fin time) (JS.Fin delta)
    (VideoPlayer.getDuration None) = JS.Fin 0 /\
  Timeline._seekFromEvent (JS.Fin 90) true (JS.Fin 101) (JS.Fin 100)
    (JS.Fin 200) = Some (JS.double (9 # 20)) /\
  JS.double (9 # 20) <> JS.Fin (9 # 20) /\
  Controls.skip_target (JS.double (1 # 10)) (JS.Fin 5) (JS.Fin 90)
  = JS.double (51 # 10).
Proof.
  intros HT Hw HdT Hdw.
  assert (HT0 : ~ (T == 0)%Q) by lra.
  assert (Htruthy : JSArith.truthy (JS.Fin T) = true).
  { cbn. destruct (Qeq_bool T 0) eqn:E; [|done].
    apply Qeq_bool_iff in E. by destruct HT0. }
  assert (Hzero : forall a : JS.number,
             a <> JS.NaN ->
             JS.Math_max (JS.of_Z 0) (JS.Math_min a (JS.of_Z 0)) = JS.Fin 0).
  { intros a Ha. destruct a as [x | | |]; [| | |done].
    - unfold JS.Math_max, JS.Math_min, JS.lt, JS.of_Z, JS.Qltb.
      change (inject_Z 0) with 0%Q.
      destruct (Qle_bool x 0) eqn:E1; cbn [negb].
      + by rewrite E1.
      + reflexivity.
    - reflexivity.
    - reflexivity. }
  refine (conj _ (conj _ (conj _ (conj _ (conj _ (conj _ (conj _
            (conj _ (conj _ _))))))))).
  - unfold Timeline._seekFromEvent. rewrite Htruthy. cbn [negb].
    unfold JSArith.sub. cbn [JS.neg JSArith.add].
    change (clientX + - left)%Q with (clientX - left)%Q.
    destruct (clamp_number (JS.double (clientX - left)) width
                (double_not_NaN _) ltac:(lra))
      as (q & Eq & Hq & H0 & H1 & H2).
    rewrite Eq.
    destruct (scaled_fraction q width T Hw ltac:(lra) HdT Hq) as (Et & Ht).
    cbn zeta in Et, Ht. rewrite Et.
    eexists. split; [reflexivity|]. split; [exact Ht|].
    split; [|split].
    + intros H.
      assert (Hq0 : (q == 0)%Q).
      { apply H0. change (JS.Fin 0) with (JS.double 0).
        apply double_mono. lra. }
      assert (E1 : (q / width == 0)%Q) by (rewrite Hq0; field; lra).
      rewrite (round64_comp _ _ E1). change (JS.round64 0) with 0%Q.
      assert (E2 : (0 * T == 0)%Q) by ring.
      by rewrite (round64_comp _ _ E2).
    + intros H.
      assert (Hq1 : (q == width)%Q).
      { apply H1.
        pose proof (double_mono width (clientX - left) ltac:(lra)) as Hle.
        rewrite Hdw in Hle.
        destruct (JS.double (clientX - left)) as [a | | |];
          cbn [JS.le] in Hle |- *; try done.
        apply Qle_bool_iff. apply Qle_bool_iff in Hle.
        by rewrite Qred_correct in Hle. }
      assert (E1 : (q / width == 1)%Q) by (rewrite Hq1; field; lra).
      rewrite (round64_comp _ _ E1). change (JS.round64 1) with 1%Q.
      assert (E2 : (1 * T == T)%Q) by ring.
      rewrite (round64_comp _ _ E2).
      rewrite <- (double_Fin _ _ HdT). apply Qred_correct.
    + intros H.
      assert (Hr : (0 <= clientX - left <= width)%Q) by (split; lra).
      destruct (double_between 0 width (clientX - left) eq_refl Hdw Hr)
        as (Ea & Ha).
      pose proof (H2 _ Ea Ha) as Hq2.
      assert (E1 : (q / width == JS.round64 (clientX - left) / width)%Q)
        by (rewrite Hq2; reflexivity).
      rewrite (round64_comp _ _ E1). reflexivity.
  - unfold VideoPlayer.getDuration. rewrite Htruthy.
    unfold Controls.skip_target. cbn [JSArith.add].
    destruct (clamp_number (JS.double (time + delta)) T
                (double_not_NaN _) ltac:(lra))
      as (t & Et & Ht & _ & _ & H2).
    exists t. split; [done|]. split; [done|].
    intros Hr.
    destruct (double_between 0 T (time + delta) eq_refl HdT Hr) as (Ea & Ha).
    exact (H2 _ Ea Ha).
  - reflexivity.
  - reflexivity.
  - unfold Timeline._seekFromEvent. by rewrite Htruthy.
  - apply Hzero. cbn [JSArith.add]. apply double_not_NaN.
  - apply Hzero. cbn [JSArith.add]. apply double_not_NaN.
  - vm_compute. reflexivity.
  - vm_compute. discriminate.
  - vm_compute. reflexivity.
Qed.

Lemma seek_targets_stay_within_the_video_witness :
  (0 < 90)%Q /\ (0 < 200)%Q /\
  exists t : Q,
    Timeline._seekFromEvent (JS.Fin 90) true (JS.Fin 150) (JS.Fin 100)
      (JS.Fin 200) = Some (JS.Fin t) /\
    (0 <= t <= 90)%Q.
Proof.
  assert (H1 : (0 < 90)%Q) by reflexivity.
  assert (H2 : (0 < 200)%Q) by reflexivity.
  destruct (proj1 (seek_targets_stay_within_the_video 90 150 100 200 0 0
                     H1 H2 eq_refl eq_refl))
    as (t & E & Ht & _).
  exact (conj H1 (conj H2 (ex_intro _ t (conj E Ht)))).
Defined.

(** X25.  Releasing a dragged clip ends the drag.  The move callback
    is called exactly when [Math.abs(dx) > 3] holds of the difference
    [dx] the handler computes, rounded to binary64: never for a drag
    of at most 3 pixels; and then for the dragged clip, with a start
    time between 0 and the duration, and [moveClip] leaves the clip
    starting within that range.  A drag from 0.1 to 3.1 moves nothing:
    the two doubles are more than 3 apart, their rounded difference is
    3. *)
Theorem dropped_clip_stays_on_the_timeline
    (c : Recorder.clip) (T x0 x1 width : Q) (rec : Recorder.state) :
  (0 < T)%Q -> ~ (width == 0)%Q ->
  JS.representable (Recorder.startTime c) ->
  let d := RecTimeline.onMouseDown c (JS.Fin x0) in
  let out :=
    RecTimeline._onMouseUp true (JS.Fin T) true d (JS.Fin x1) (JS.Fin width) in
  let dx := JSArith.sub (JS.Fin x1) (JS.Fin x0) in
  RecTimeline.dragClipId (fst out) = None /\
  (JS.lt (JS.of_Z 3) (JSArith.abs dx) = false -> snd out = None) /\
  ((Qabs (x1 - x0) <= 3)%Q -> snd out = None) /\
  (JS.lt (JS.of_Z 3) (JSArith.abs dx) = true ->
   exists q : Q,
     snd out = Some (Recorder.id c, JS.Fin q) /\
     (0 <= q <= T)%Q /\
     forall r : Recorder.ref,
       Recorder.getClip (Recorder.id c) rec = Some r ->
       exists c' : Recorder.clip,
         Recorder.heap (Recorder.moveClip (Recorder.id c) q rec) !! r
         = Some c' /\
         (0 <= Recorder.startTime c' <= T)%Q /\
         Recorder.id c' = Recorder.id c) /\
  (let d' := RecTimeline.onMouseDown c (JS.double (1 # 10)) in
   (3 < JS.round64 (31 # 10) - JS.round64 (1 # 10))%Q /\
   JSArith.sub (JS.double (31 # 10)) (JS.double (1 # 10)) = JS.Fin 3 /\
   snd (RecTimeline._onMouseUp true (JS.Fin T) true d'
          (JS.double (31 # 10)) (JS.Fin width)) = None).
Proof.
  intros HT Hw Hds d out dx. unfold JS.representable in Hds.
  unfold out, RecTimeline._onMouseUp, d, RecTimeline.onMouseDown.
  cbn [RecTimeline.dragClipId RecTimeline.dragStartX
       RecTimeline.dragOriginalStart negb fst snd andb].
  fold dx. rewrite Hds.
  split; [done|]. split; [by intros ->|]. split; [|split].
  - intros Hsmall.
    assert (Hlt : JS.lt (JS.of_Z 3) (JSArith.abs dx) = false).
    { unfold dx, JSArith.sub. cbn [JS.neg JSArith.add].
      change (x1 + - x0)%Q with (x1 - x0)%Q.
      apply Qabs_Qle_condition in Hsmall.
      destruct (double_between (-3) 3 (x1 - x0) eq_refl eq_refl Hsmall)
        as (E & Hr).
      rewrite E. cbn [JSArith.abs JS.lt JS.of_Z]. unfold JS.Qltb.
      apply negb_false_iff, Qle_bool_iff.
      change (inject_Z 3) with 3%Q. by apply Qabs_Qle_condition. }
    by rewrite Hlt.
  - intros Hlt. rewrite Hlt.
    assert (Hdx : dx <> JS.NaN).
    { unfold dx, JSArith.sub. cbn [JS.neg JSArith.add]. apply double_not_NaN. }
    pose proof (add_not_NaN (Qred (Recorder.startTime c)) _
                  (times_not_NaN _ T (div_not_NaN dx width Hdx Hw) HT))
      as Hsum.
    destruct (clamp_number _ T Hsum ltac:(lra)) as (q & Eq & Hq & _).
    exists q. split; [by rewrite Eq|]. split; [done|].
    intros r Hr.
    destruct (find_split _ _ _ _ Hr) as (l1 & l2 & _ & Hid & _).
    unfold Recorder.id_of in Hid.
    destruct (Recorder.heap rec !! r) as [c0|] eqn:Hc0; [|done].
    injection Hid as Hid.
    exists (Recorder.set_startTime (Recorder.max0 q) c0).
    split; [by apply moveClip_object|].
    cbn [Recorder.set_startTime Recorder.startTime Recorder.id].
    split; [|done].
    destruct (max0_nonneg q) as (M0 & M1 & _).
    rewrite (M1 (proj1 Hq)). exact Hq.
  - cbn zeta. split; [vm_compute; reflexivity|].
    assert (E : JSArith.sub (JS.double (31 # 10)) (JS.double (1 # 10))
                = JS.Fin 3) by (vm_compute; reflexivity).
    split; [exact E|].
    unfold RecTimeline._onMouseUp, RecTimeline.onMouseDown.
    cbn [RecTimeline.dragClipId RecTimeline.dragStartX
         RecTimeline.dragOriginalStart negb fst snd andb].
    rewrite E. reflexivity.
Qed.

Lemma dropped_clip_stays_on_the_timeline_witness :
  let c := {| Recorder.id := 1; Recorder.startTime := 2;
              Recorder.duration := 3;
              Recorder.audioBuffer := Some Spec.three_seconds |} in
  let out :=
    RecTimeline._onMouseUp true (JS.Fin 10) true
      (RecTimeline.onMouseDown c (JS.Fin 50)) (JS.Fin 1000) (JS.Fin 100) in
  (0 < 10)%Q /\ ~ (100 == 0)%Q /\
  RecTimeline.dragClipId (fst out) = None /\
  exists q : Q, snd out = Some (1, JS.Fin q) /\ (0 <= q <= 10)%Q.
Proof.
  assert (H1 : (0 < 10)%Q) by reflexivity.
  assert (H2 : ~ (100 == 0)%Q) by discriminate.
  pose proof (dropped_clip_stays_on_the_timeline
                {| Recorder.id := 1; Recorder.startTime := 2;
                   Recorder.duration := 3;
                   Recorder.audioBuffer := Some Spec.three_seconds |}
                10 50 1000 100 Spec.one_clip H1 H2 eq_refl)
    as (A & _ & _ & B & _).
  assert (H3 : JS.lt (JS.of_Z 3)
                 (JSArith.abs (JSArith.sub (JS.Fin 1000) (JS.Fin 50))) = true)
    by reflexivity.
  destruct (B H3) as (q & E & Hq & _).
  exact (conj H1 (conj H2 (conj A (ex_intro _ q (conj E Hq))))).
Defined.

(** X26.  [VideoPlayer.setVolume] stores a volume between 0 and 1
    for every argument but NaN: a value in range is kept, one below
    becomes 0, one above 1, +Infinity 1 and -Infinity 0; NaN is passed
    on; without a video element nothing is stored. *)
Theorem video_volume_is_clamped (videoEl : JS.number) :
  (forall v : Q,
     exists q : Q,
       VideoPlayer.setVolume (Some videoEl) (JS.Fin v) = Some (JS.Fin q) /\
       (0 <= q <= 1)%Q /\
       ((0 <= v <= 1)%Q -> (q == v)%Q) /\
       ((v <= 0)%Q -> (q == 0)%Q) /\ ((1 <= v)%Q -> (q == 1)%Q)) /\
  VideoPlayer.setVolume (Some videoEl) JS.PosInfinity = Some (JS.Fin 1) /\
  VideoPlayer.setVolume (Some videoEl) JS.NegInfinity = Some (JS.Fin 0) /\
  VideoPlayer.setVolume (Some videoEl) JS.NaN = Some JS.NaN /\
  (forall vol : JS.number, VideoPlayer.setVolume None vol = None).
Proof.
  split; [|repeat split].
  intros v. unfold VideoPlayer.setVolume, JS.Math_max, JS.Math_min, JS.lt,
    JS.of_Z, JS.Qltb.
  change (inject_Z 0) with 0%Q. change (inject_Z 1) with 1%Q.
  destruct (Qle_bool 1 v) eqn:E1; cbn [negb].
  - apply Qle_bool_iff in E1. exists 1%Q.
    split; [reflexivity|]. repeat split; intros; lra.
  - apply Qle_bool_false in E1.
    destruct (Qle_bool v 0) eqn:E2; cbn [negb].
    + apply Qle_bool_iff in E2. exists 0%Q.
      split; [reflexivity|]. repeat split; intros; lra.
    + apply Qle_bool_false in E2. exists v.
      split; [reflexivity|]. repeat split; intros; lra.
Qed.
